(** * Search-engine chat bot: the query-resolution pipeline

    A shallow embedding of [utils/helpers.py] and [core/pipeline.py]:
    the observation parser with its URL cleaning, the formatting of
    search results, the three retrieval adapters and the orchestration
    of one turn ([run_pipeline]).

    Python strings are sequences of Unicode code points; the regular
    expressions of the source are written as terms of a small regex
    language and run by a backtracking matcher that follows the
    priorities of Python's [re] module. *)

From Stdlib Require Import List Bool Arith NArith Lia Ascii.
From Stdlib Require String.
Import ListNotations.
Import String.StringSyntax.
Delimit Scope string_scope with string.

Set Implicit Arguments.

(** ** Python strings *)

Module PyStr.

(** A character is a Unicode code point, a [str] a list of them. *)
Definition char := N.
Definition pystr := list char.

(** Source literals are written in UTF-8; [u] decodes them. *)
Fixpoint utf8_decode (bs : list N) (pending : nat) (acc : N) : pystr :=
  match bs with
  | [] => []
  | b :: bs' =>
      match pending with
      | O =>
          if (b <? 128)%N then b :: utf8_decode bs' 0 0%N
          else if (b <? 224)%N then utf8_decode bs' 1 (b - 192)%N
          else if (b <? 240)%N then utf8_decode bs' 2 (b - 224)%N
          else utf8_decode bs' 3 (b - 240)%N
      | S O => (acc * 64 + (b - 128))%N :: utf8_decode bs' 0 0%N
      | S p => utf8_decode bs' p (acc * 64 + (b - 128))%N
      end
  end.

Definition u (s : String.string) : pystr :=
  utf8_decode (map N_of_ascii (String.list_ascii_of_string s)) 0 0%N.
Arguments u s%_string.

Definition str_eqb (a b : pystr) : bool :=
  if list_eq_dec N.eq_dec a b then true else false.

(** [x in xs] for a list of strings. *)
Definition str_in (x : pystr) (xs : list pystr) : bool :=
  existsb (str_eqb x) xs.

(** Truthiness of a string: [if s:]. *)
Definition truthy (s : pystr) : bool :=
  match s with [] => false | _ :: _ => true end.

(** Truthiness of a list: [if xs:]. *)
Definition nonempty {A} (xs : list A) : bool :=
  match xs with [] => false | _ :: _ => true end.

(** [str.isspace] on one character, which is also the class [\s] of
    [re] on [str] patterns (CPython's [_PyUnicode_IsWhitespace]). *)
Definition is_space (c : char) : bool :=
  ((9 <=? c) && (c <=? 13) || (28 <=? c) && (c <=? 32)
   || (c =? 133) || (c =? 160) || (c =? 5760)
   || (8192 <=? c) && (c <=? 8202)
   || (c =? 8232) || (c =? 8233) || (c =? 8239) || (c =? 8287)
   || (c =? 12288))%N.

Fixpoint lstrip (s : pystr) : pystr :=
  match s with
  | c :: s' => if is_space c then lstrip s' else s
  | [] => []
  end.

Definition rstrip (s : pystr) : pystr := rev (lstrip (rev s)).

(** [s.strip()] *)
Definition strip (s : pystr) : pystr := rstrip (lstrip s).

Fixpoint starts_with (p s : pystr) : bool :=
  match p, s with
  | [], _ => true
  | a :: p', b :: s' => (a =? b)%N && starts_with p' s'
  | _ :: _, [] => false
  end.

(** [p in s] for strings: substring test. *)
Fixpoint contains (p s : pystr) : bool :=
  starts_with p s ||
  match s with
  | [] => false
  | _ :: s' => contains p s'
  end.

(** [sep.join(xs)] *)
Fixpoint join (sep : pystr) (xs : list pystr) : pystr :=
  match xs with
  | [] => []
  | [x] => x
  | x :: rest => x ++ sep ++ join sep rest
  end.

Definition is_ascii_upper (c : char) : bool := ((65 <=? c) && (c <=? 90))%N.
Definition is_ascii_lower (c : char) : bool := ((97 <=? c) && (c <=? 122))%N.
Definition is_ascii_letter (c : char) : bool :=
  is_ascii_upper c || is_ascii_lower c.

(** [list(dict.fromkeys(xs))]: first occurrences, in order. *)
Fixpoint dedup_from (seen : list pystr) (xs : list pystr) : list pystr :=
  match xs with
  | [] => []
  | x :: rest =>
      if str_in x seen then dedup_from seen rest
      else x :: dedup_from (x :: seen) rest
  end.

Definition fromkeys (xs : list pystr) : list pystr := dedup_from [] xs.

End PyStr.
Export PyStr.

(** ** Regular expressions *)

Module Regex.

(** The fragment of [re] syntax the source uses. *)
Inductive re : Type :=
| Eps
| Chr (p : char -> bool)          (* a literal, a class or [.] *)
| Seq (r1 r2 : re)
| Alt (r1 r2 : re)                (* [r1|r2], [r1] tried first *)
| Star (greedy : bool) (r : re)   (* [r*] or [r*?] *)
| Group (n : nat) (r : re)        (* capturing group number [n] *)
| Bos                             (* [^] without MULTILINE *)
| Eos                             (* [$] without MULTILINE *)
| NotBehind (w : pystr).          (* [(?<!w)] for a literal [w] *)

Definition Opt (r : re) : re := Alt r Eps.            (* [r?] *)
Definition Plus (r : re) : re := Seq r (Star true r). (* [r+] *)

Definition lit1 (c : char) : re := Chr (N.eqb c).

(** Case-insensitive literal: the characters whose lower case is [c]
    or one of the equivalents of [c] in [sre]'s table ([s] and the long
    s, [i] and the dotless and dotted i, [k] and the Kelvin sign). *)
Definition ci_char (c x : char) : bool :=
  let l := if is_ascii_upper c then (c + 32)%N else c in
  (x =? l)%N
  || (is_ascii_lower l && (x =? l - 32))%N
  || ((l =? 115) && (x =? 383))%N
  || ((l =? 105) && ((x =? 304) || (x =? 305)))%N
  || ((l =? 107) && (x =? 8490))%N.

Fixpoint seq_of (rs : list re) : re :=
  match rs with
  | [] => Eps
  | [r] => r
  | r :: rest => Seq r (seq_of rest)
  end.

Fixpoint alt_of (rs : list re) : re :=
  match rs with
  | [] => Eps
  | [r] => r
  | r :: rest => Alt r (alt_of rest)
  end.

Definition lit (w : pystr) : re := seq_of (map lit1 w).
Definition lit_ci (w : pystr) : re := seq_of (map (fun c => Chr (ci_char c)) w).

(** Matcher state: the text before the cursor (reversed), the text
    after it, and the captured groups. *)
Record mstate : Type := MState {
  before : pystr;
  rest : pystr;
  caps : list (nat * pystr)
}.

Definition orelse {A} (x y : option A) : option A :=
  match x with Some _ => x | None => y end.

(** Repetition: each further round must consume input, as [sre]'s
    repeat does; a greedy star tries another round before leaving,
    a lazy one leaves first. *)
Fixpoint star_loop {A} (greedy : bool)
    (body : (mstate -> option A) -> mstate -> option A)
    (k : mstate -> option A) (fuel : nat) (st : mstate) : option A :=
  match fuel with
  | O => k st
  | S f =>
      let again :=
        body (fun st' =>
                if length (rest st') <? length (rest st)
                then star_loop greedy body k f st' else None) st in
      if greedy then orelse again (k st) else orelse (k st) again
  end.

Definition set_cap (n : nat) (st0 st1 : mstate) : mstate :=
  MState (before st1) (rest st1)
    ((n, firstn (length (rest st0) - length (rest st1)) (rest st0))
       :: caps st1).

Fixpoint rmatch {A} (r : re) (k : mstate -> option A) (st : mstate)
  : option A :=
  match r with
  | Eps => k st
  | Chr p =>
      match rest st with
      | c :: s' =>
          if p c then k (MState (c :: before st) s' (caps st)) else None
      | [] => None
      end
  | Seq r1 r2 => rmatch r1 (rmatch r2 k) st
  | Alt r1 r2 => orelse (rmatch r1 k st) (rmatch r2 k st)
  | Star g r1 => star_loop g (rmatch r1) k (S (length (rest st))) st
  | Group n r1 => rmatch r1 (fun st' => k (set_cap n st st')) st
  | Bos => match before st with [] => k st | _ :: _ => None end
  | Eos =>
      match rest st with
      | [] => k st
      | [c] => if (c =? 10)%N then k st else None
      | _ => None
      end
  | NotBehind w => if starts_with (rev w) (before st) then None else k st
  end.

(** One match attempt at the cursor: the state at the end of the match. *)
Definition match_here (r : re) (pre s : pystr) : option mstate :=
  rmatch r (fun st => Some st) (MState pre s []).

Fixpoint get_cap (n : nat) (cs : list (nat * pystr)) : pystr :=
  match cs with
  | [] => []
  | (m, w) :: cs' => if Nat.eqb n m then w else get_cap n cs'
  end.

Definition group (n : nat) (st : mstate) : pystr := get_cap n (caps st).

(** [re.search]: the leftmost start at which the pattern matches. *)
Fixpoint search_from (r : re) (pre s : pystr) : option mstate :=
  match match_here r pre s with
  | Some st => Some st
  | None =>
      match s with
      | [] => None
      | c :: s' => search_from r (c :: pre) s'
      end
  end.

Definition search (r : re) (s : pystr) : option mstate := search_from r [] s.

(** [re.match]: a match at the start of the string. *)
Definition match_start (r : re) (s : pystr) : option mstate :=
  match_here r [] s.

(** [re.sub(pattern, "", s)]: every match is deleted.  [skip] counts the
    characters of the current match still to drop. *)
Fixpoint sub_scan (r : re) (skip : nat) (pre s : pystr) : pystr :=
  match s with
  | [] => []
  | c :: s' =>
      match skip with
      | S n => sub_scan r n (c :: pre) s'
      | O =>
          match match_here r pre s with
          | Some st =>
              match length s - length (rest st) with
              | O => c :: sub_scan r 0 (c :: pre) s'
              | S n => sub_scan r n (c :: pre) s'
              end
          | None => c :: sub_scan r 0 (c :: pre) s'
          end
      end
  end.

Definition sub_empty (r : re) (s : pystr) : pystr := sub_scan r 0 [] s.

(** [re.findall] for a pattern with one group: the text of group 1 of
    every match, left to right, matches not overlapping. *)
Fixpoint findall_scan (r : re) (skip : nat) (pre s : pystr) : list pystr :=
  match s with
  | [] =>
      match skip with
      | O => match match_here r pre [] with
             | Some st => [group 1 st]
             | None => []
             end
      | S _ => []
      end
  | c :: s' =>
      match skip with
      | S n => findall_scan r n (c :: pre) s'
      | O =>
          match match_here r pre s with
          | Some st =>
              group 1 st
                :: findall_scan r (length s - length (rest st) - 1) (c :: pre) s'
          | None => findall_scan r 0 (c :: pre) s'
          end
      end
  end.

Definition findall (r : re) (s : pystr) : list pystr := findall_scan r 0 [] s.

End Regex.
Export Regex.


(** ** utils/helpers.py *)

Module Helpers.

Local Open Scope N_scope.

(** The result of an operation that can raise: the exception's text,
    or the value returned. *)
Inductive outcome (A : Type) : Type :=
| Raised (e : pystr)
| Returned (a : A).
Arguments Raised {A} e.
Arguments Returned {A} a.

(** *** The patterns of [parse_agent_observation] *)

Definition any_char : re := Chr (fun _ => true).          (* [.] with DOTALL *)
Definition dot : re := Chr (fun c => negb (c =? 10)%N).    (* [.] *)
Definition ws : re := Chr is_space.                        (* [\s] *)
Definition nl : re := lit1 10.                             (* [\n] *)

Definition http_prefix : re :=
  seq_of [lit (u "http"); Opt (lit1 115); lit (u "://")].

(** [\[.*?\]\((https?://.*?)\)] *)
Definition markdown_link_regex : re :=
  seq_of [lit1 91; Star false dot; lit (u "](");
          Group 1 (Seq http_prefix (Star false dot)); lit1 41].

(** The class of [plain_links]: anything but whitespace, the two quote
    characters and the angle brackets. *)
Definition url_char (c : char) : bool :=
  negb (is_space c || (c =? 34) || (c =? 39) || (c =? 60) || (c =? 62))%N.

(** [(?<!\]\()(https?://C+)] with [C] the class above. *)
Definition plain_link_regex : re :=
  Seq (NotBehind (u "]("))
      (Group 1 (Seq http_prefix (Plus (Chr url_char)))).

(** The punctuation class: full stop, comma, semicolon and the two
    quote characters. *)
Definition punct_char (c : char) : bool :=
  ((c =? 46) || (c =? 44) || (c =? 59) || (c =? 39) || (c =? 34))%N.

(** [(?:에서|이?와|이?과|으?로|의|이|가|은|는)] *)
Definition particle : re :=
  alt_of [lit (u "에서");
          Seq (Opt (lit (u "이"))) (lit (u "와"));
          Seq (Opt (lit (u "이"))) (lit (u "과"));
          Seq (Opt (lit (u "으"))) (lit (u "로"));
          lit (u "의"); lit (u "이"); lit (u "가"); lit (u "은");
          lit (u "는")].

(** The words of [particle]. *)
Definition particles : list pystr :=
  [u "에서"; u "이와"; u "와"; u "이과"; u "과"; u "으로"; u "로";
   u "의"; u "이"; u "가"; u "은"; u "는"].

(** One round of the repeated group of [trailing_junk_regex]:
    [\)?\s*(?:...)?\s*P*] with [P] the punctuation class. *)
Definition junk_round : re :=
  seq_of [Opt (lit1 41); Star true ws; Opt particle; Star true ws;
          Star true (Chr punct_char)].

(** [( \)? \s* (?:에서|이?와|이?과|으?로|의|이|가|은|는)? \s* P* )+ $],
    written here with spaces between the parts. *)
Definition junk_rounds : re := Plus (Group 1 junk_round).
Definition trailing_junk_regex : re := Seq junk_rounds Eos.

(** The class of [simple_trailing_junk_regex]: closing parenthesis,
    whitespace and punctuation. *)
Definition simple_junk_char (c : char) : bool :=
  ((c =? 41) || is_space c || punct_char c)%N.

(** [S+$] with [S] the class above. *)
Definition simple_trailing_junk_regex : re :=
  Seq (Plus (Chr simple_junk_char)) Eos.

(** [( .*? ) (?: \n* \s* (?:출처|Sources) \s* : \s* \n* ) ( .* )] with
    DOTALL and IGNORECASE. *)
Definition source_section_regex : re :=
  seq_of [Group 1 (Star false any_char);
          Star true nl; Star true ws;
          Alt (lit_ci (u "출처")) (lit_ci (u "Sources"));
          Star true ws; lit1 58; Star true ws; Star true nl;
          Group 2 (Star true any_char)].

(** [^본문\s*:\s*\n?], IGNORECASE *)
Definition body_label_regex : re :=
  seq_of [Bos; lit_ci (u "본문"); Star true ws; lit1 58; Star true ws;
          Opt nl].

(** [Final Answer:\s* ( .* )] with DOTALL and IGNORECASE. *)
Definition final_answer_regex : re :=
  seq_of [lit_ci (u "Final Answer:"); Star true ws;
          Group 1 (Star true any_char)].

(** *** [urllib.parse.urlparse]

    The parser reads two fields of the result, [scheme] and [netloc];
    the call can also raise.  The library function is a parameter of
    the parser; [py_urlparse] below is the function for the URLs of the
    examples. *)
Inductive urlparse_result : Type :=
| UrlParsed (scheme netloc : pystr)
| UrlValueError                      (* [ValueError], caught per link *)
| UrlError (e : pystr).              (* any other exception *)

Definition is_digit (c : char) : bool := ((48 <=? c) && (c <=? 57))%N.
Definition is_scheme_char (c : char) : bool :=
  (is_ascii_letter c || is_digit c || (c =? 43) || (c =? 45) || (c =? 46))%N.

Definition ascii_lower (c : char) : char :=
  if is_ascii_upper c then (c + 32)%N else c.

Fixpoint take_while (p : char -> bool) (s : pystr) : pystr :=
  match s with
  | c :: s' => if p c then c :: take_while p s' else []
  | [] => []
  end.

Fixpoint drop_while (p : char -> bool) (s : pystr) : pystr :=
  match s with
  | c :: s' => if p c then drop_while p s' else s
  | [] => []
  end.

Definition has_char (c : char) (s : pystr) : bool := existsb (N.eqb c) s.

Definition is_hex_digit (c : char) : bool :=
  (is_digit c || (65 <=? c) && (c <=? 70) || (97 <=? c) && (c <=? 102))%N.

(** [s.split(sep)] for a separator of one character. *)
Fixpoint split_on (sep : char) (s : pystr) : list pystr :=
  match s with
  | [] => [[]]
  | c :: s' =>
      if (c =? sep)%N then [] :: split_on sep s'
      else
        match split_on sep s' with
        | part :: parts => (c :: part) :: parts
        | [] => [[c]]
        end
  end.

(** [s.partition(sep)]: the text before the first [sep], whether there
    is one, and the text after it. *)
Definition str_partition (sep : char) (s : pystr) : pystr * bool * pystr :=
  let before_sep := take_while (fun c => negb (c =? sep)%N) s in
  match drop_while (fun c => negb (c =? sep)%N) s with
  | _ :: after_sep => (before_sep, true, after_sep)
  | [] => (before_sep, false, [])
  end.

(** [s.rpartition(sep)[2]]: the text after the last [sep]. *)
Definition after_last (sep : char) (s : pystr) : pystr :=
  rev (take_while (fun c => negb (c =? sep)%N) (rev s)).

(** [int(s, 10)] on decimal digits. *)
Definition decimal_value (s : pystr) : N :=
  fold_left (fun acc c => acc * 10 + (c - 48))%N s 0%N.

(** [IPv4Address._parse_octet]: [None] when it raises. *)
Definition _parse_octet (octet_str : pystr) : option N :=
  if negb (truthy octet_str) then None
  else if negb (forallb is_digit octet_str) then None
  else if (3 <? length octet_str)%nat then None
  else if negb (str_eqb octet_str [48%N]) && starts_with [48%N] octet_str
  then None
  else
    let octet_int := decimal_value octet_str in
    if (255 <? octet_int)%N then None else Some octet_int.

(** [IPv4Address(address)._ip] for a string: [None] when the
    constructor raises. *)
Definition ipv4_int (address : pystr) : option N :=
  if has_char 47 address then None
  else if negb (truthy address) then None
  else
    match map _parse_octet (split_on 46 address) with
    | [Some a; Some b; Some c; Some d] =>
        Some (((a * 256 + b) * 256 + c) * 256 + d)%N
    | _ => None
    end.

(** ['%x' % n] for a number below 65536. *)
Definition hex_of (n : N) : pystr :=
  let digit := fun d => if (d <? 10)%N then (48 + d)%N else (87 + d)%N in
  let digits :=
    map digit [n / 4096; (n / 256) mod 16; (n / 16) mod 16; n mod 16]%N in
  match drop_while (N.eqb 48) digits with
  | [] => [48%N]
  | significant => significant
  end.

(** [IPv6Address._parse_hextet] returns: hex digits only, at most four,
    and [int(hextet_str, 16)] does not raise on an empty string. *)
Definition _parse_hextet (hextet_str : pystr) : bool :=
  forallb is_hex_digit hextet_str
  && (length hextet_str <=? 4)%nat
  && truthy hextet_str.

(** [IPv6Address._ip_int_from_string] returns. *)
Definition ipv6_parts (ip_str : pystr) : bool :=
  if negb (truthy ip_str) then false
  else
    let parts := split_on 58 ip_str in
    if (length parts <? 3)%nat then false
    else
      let with_suffix :=
        if has_char 46 (last parts [])
        then
          match ipv4_int (last parts []) with
          | Some ipv4 =>
              Some (removelast parts
                      ++ [hex_of ((ipv4 / 65536) mod 65536);
                          hex_of (ipv4 mod 65536)])%N
          | None => None
          end
        else Some parts in
      match with_suffix with
      | None => false
      | Some parts =>
          if (9 <? length parts)%nat then false
          else
            let empty := fun i => negb (truthy (nth i parts [])) in
            match filter empty (seq 1 (length parts - 2)%nat) with
            | _ :: _ :: _ => false
            | [skip_index] =>
                let parts_hi := skip_index in
                let parts_lo := (length parts - skip_index - 1)%nat in
                let leading := empty 0%nat in
                let trailing := empty (length parts - 1)%nat in
                let parts_hi := if leading then (parts_hi - 1)%nat else parts_hi in
                let parts_lo := if trailing then (parts_lo - 1)%nat else parts_lo in
                if leading && negb (parts_hi =? 0)%nat then false
                else if trailing && negb (parts_lo =? 0)%nat then false
                else if (8 <=? parts_hi + parts_lo)%nat then false
                else
                  forallb _parse_hextet
                    (firstn parts_hi parts
                       ++ skipn (length parts - parts_lo)%nat parts)
            | [] =>
                if negb (length parts =? 8)%nat then false
                else if empty 0%nat then false
                else if empty (length parts - 1)%nat then false
                else forallb _parse_hextet parts
            end
      end.

(** [IPv6Address(address)] returns, for a string: the address may
    carry a scope after a percent sign. *)
Definition is_ipv6 (address : pystr) : bool :=
  if has_char 47 address then false
  else
    let '(addr, sep, scope_id) := str_partition 37 address in
    if sep && (negb (truthy scope_id) || has_char 37 scope_id) then false
    else ipv6_parts addr.

(** [v[a-fA-F0-9]+\..+], which [_check_bracketed_host] matches from
    the start to the very end of the host. *)
Definition ipvfuture_regex : re :=
  seq_of [lit1 118; Plus (Chr is_hex_digit); lit1 46; Plus dot].

(** [_check_bracketed_host] returns: the host is an address of a
    future version, or an IPv6 address; [ip_address] tries IPv4 first,
    and an IPv4 address in brackets is refused. *)
Definition _check_bracketed_host (hostname : pystr) : bool :=
  if starts_with [118%N] hostname then
    match match_start ipvfuture_regex hostname with
    | Some st => negb (truthy (rest st))
    | None => false
    end
  else
    match ipv4_int hostname with
    | Some _ => false
    | None => is_ipv6 hostname
    end.

(** [_check_bracketed_netloc] returns. *)
Definition _check_bracketed_netloc (netloc : pystr) : bool :=
  let hostname_and_port := after_last 64 netloc in
  let '(before_bracket, have_open_br, bracketed) :=
    str_partition 91 hostname_and_port in
  if have_open_br then
    if truthy before_bracket then false
    else
      let '(hostname, _, port) := str_partition 93 bracketed in
      if truthy port && negb (starts_with [58%N] port) then false
      else _check_bracketed_host hostname
  else
    let '(hostname, _, port) := str_partition 58 hostname_and_port in
    _check_bracketed_host hostname.

(** The characters whose NFKC form holds one of [/], [?], [#], [@] and
    [:], by the tables of the interpreter (Unicode 14): two question
    and exclamation marks, the signs a/c, a/s, c/o and c/u, the triple
    colon equal, and the vertical, small and full-width forms of the
    five characters. *)
Definition nfkc_unsafe (c : char) : bool :=
  existsb (N.eqb c)
    [8263; 8264; 8265; 8448; 8449; 8453; 8454; 10868; 65043; 65046;
     65109; 65110; 65119; 65131; 65283; 65295; 65306; 65311; 65312]%N.

(** [_checknetloc] returns: a location that is not ASCII is normalized
    (NFKC) without its [@], [:], [#] and [?], and refused when that
    brings one of the five characters in; no character combines with
    one of them, so this is when it holds one of the characters
    above. *)
Definition _checknetloc (netloc : pystr) : bool :=
  negb (existsb nfkc_unsafe netloc).

(** [urlsplit] as CPython 3.11 has it, for the two fields read: leading
    C0 controls and spaces and all tabs and line breaks are removed; a
    valid scheme before the first colon is split off; after [//] the
    network location runs up to the first of [/], [?], [#]; unbalanced
    square brackets in it are an error, and so are a bracketed host
    that is no IPv6 or future address and a location that is unsafe
    under normalization. *)
Definition py_urlparse (url : pystr) : urlparse_result :=
  let url := drop_while (fun c => c <=? 32)%N url in
  let url := filter (fun c => negb ((c =? 9) || (c =? 10) || (c =? 13))%N) url in
  let head := take_while (fun c => negb (c =? 58)%N) url in
  let tail := drop_while (fun c => negb (c =? 58)%N) url in
  let '(scheme, url) :=
    match head, tail with
    | c :: _, _ :: after =>
        if is_ascii_letter c && forallb is_scheme_char head
        then (map ascii_lower head, after) else ([], url)
    | _, _ => ([], url)
    end in
  if starts_with (u "//") url then
    let netloc :=
      take_while (fun c => negb ((c =? 47) || (c =? 63) || (c =? 35))%N)
                 (skipn 2 url) in
    if xorb (has_char 91 netloc) (has_char 93 netloc) then UrlValueError
    else if has_char 91 netloc && has_char 93 netloc
            && negb (_check_bracketed_netloc netloc)
    then UrlValueError
    else if negb (_checknetloc netloc) then UrlValueError
    else UrlParsed scheme netloc
  else UrlParsed scheme [].

Definition no_valid_content : pystr := u "결과에서 유효한 내용을 찾지 못했습니다.".
Definition not_parsable : pystr := u "파싱 불가".

Section Parser.

Variable urlparse : pystr -> urlparse_result.

(** Step 2 for one link: [strip], then the two substitutions. *)
Definition clean_url (link : pystr) : pystr :=
  sub_empty simple_trailing_junk_regex
    (sub_empty trailing_junk_regex (strip link)).

(** The loop [for link in found_links_raw], with [cleaned_links] as it
    grows. *)
Fixpoint clean_links (found_links_raw cleaned_links : list pystr)
  : outcome (list pystr) :=
  match found_links_raw with
  | [] => Returned cleaned_links
  | link :: more =>
      if negb (truthy link) then clean_links more cleaned_links
      else
        let cleaned := clean_url link in
        match urlparse cleaned with
        | UrlParsed scheme netloc =>
            if truthy scheme && truthy netloc
               && negb (str_in cleaned cleaned_links)
            then clean_links more (cleaned_links ++ [cleaned])
            else clean_links more cleaned_links
        | UrlValueError => clean_links more cleaned_links
        | UrlError e => Raised e
        end
  end.

(** Step 1: the raw candidates. *)
Definition found_links_raw (observation : pystr) : list pystr :=
  let markdown_links := findall markdown_link_regex observation in
  let plain_links := findall plain_link_regex observation in
  fromkeys (markdown_links ++ plain_links).

(** The body of the [try] block. *)
Definition parse_body (observation : pystr) : outcome (pystr * list pystr) :=
  match clean_links (found_links_raw observation) [] with
  | Raised e => Raised e
  | Returned links =>
      let content_part :=
        match search source_section_regex observation with
        | Some m => strip (group 1 m)
        | None => observation
        end in
      let content :=
        match match_start body_label_regex content_part with
        | Some _ => strip (sub_empty body_label_regex content_part)
        | None => content_part
        end in
      let content :=
        match search final_answer_regex observation with
        | Some m =>
            let possible_content := strip (group 1 m) in
            if nonempty links
               && Nat.ltb (length possible_content) (length content_part)
            then possible_content
            else if negb (nonempty links) && truthy possible_content
            then possible_content
            else content
        | None => content
        end in
      Returned (content, links)
  end.

Definition or_placeholder (content : pystr) : pystr :=
  if truthy content then content else no_valid_content.

Definition parse_agent_observation (observation : pystr)
  : pystr * list pystr :=
  let '(content, links) :=
    match parse_body observation with
    | Returned r => r
    | Raised _ => (strip observation, [])
    end in
  (or_placeholder content, links).

(** The guard for an observation that is no string ([None]). *)
Definition parse_agent_observation_value (observation : option pystr)
  : pystr * list pystr :=
  match observation with
  | None => (not_parsable, [])
  | Some s => parse_agent_observation s
  end.

(** Parsing again the text made of the links of a parse, one a line. *)
Definition reparse_links (observation : pystr) : list pystr :=
  snd (parse_agent_observation
         (join [10] (snd (parse_agent_observation observation)))).

End Parser.


(** *** [format_search_results] *)

Definition NL : pystr := [10].

Definition no_content_found : pystr := u "관련 내용을 찾거나 추출하지 못했습니다.".

(** [list(dict.fromkeys(link for link in links if link))] *)
Definition unique_links_of (links : list pystr) : list pystr :=
  fromkeys (filter truthy links).

(** The lines [- link] of a sources block. *)
Definition link_lines (unique_links : list pystr) : pystr :=
  join NL (map (fun link => u "- " ++ link) unique_links).

Definition format_search_results (processed_texts links : list pystr)
  : pystr :=
  if negb (nonempty processed_texts) then no_content_found
  else
    let content_str := join (NL ++ NL) processed_texts in
    let unique_links :=
      if nonempty links then unique_links_of links else [] in
    if nonempty unique_links then
      u "본문:" ++ NL ++ content_str ++ NL ++ NL ++ u "출처:" ++ NL
        ++ link_lines unique_links
    else u "본문:" ++ NL ++ content_str.

(** *** [_extract_and_process_item] *)

(** A search result: a dict whose keys [title] and [link] may be
    absent. *)
Record item : Type := Item {
  item_title : option pystr;
  item_link : option pystr
}.

(** A search engine, as the adapters use it.  Each method can raise. *)
Record engine : Type := Engine {
  search_items : pystr -> outcome (list item);
  extract_text : pystr -> outcome pystr;
  extract_main_text_from_html : pystr -> outcome pystr
}.

Definition get_or (v : option pystr) (default : pystr) : pystr :=
  match v with Some s => s | None => default end.

Section Extraction.

(** [preprocess_html text url] of [utils/html_processor.py]: generic
    cleaning and truncation, a collaborator of the adapters; it may
    raise (on a text that is not a string). *)
Variable preprocess_html : pystr -> pystr -> outcome pystr.

Definition doc_text (title processed_text : pystr) : pystr :=
  u "--- 문서 (" ++ title ++ u ") ---" ++ NL ++ processed_text.

(** The pair [(text, link)], or [(None, None)]. *)
Definition _extract_and_process_item (eng : engine) (it : item)
  : option pystr * option pystr :=
  let title := get_or (item_title it) [] in
  match item_link it with
  | None => (None, None)
  | Some link =>
      if negb (truthy link) then (None, None)
      else
        match extract_text eng link with
        | Raised _ => (None, None)
        | Returned html =>
            if truthy html then
              match extract_main_text_from_html eng html with
              | Raised _ => (None, None)
              | Returned main_text =>
                  match preprocess_html main_text link with
                  | Raised _ => (None, None)
                  | Returned processed_text =>
                      if truthy processed_text
                      then (Some (doc_text title processed_text), Some link)
                      else (None, None)
                  end
              end
            else (None, None)
        end
  end.

(** The ways an item fails: it has no link, its page cannot be fetched
    or is empty, the extraction of the main text raises, the
    preprocessing raises or leaves nothing. *)
Definition item_fails (eng : engine) (it : item) : Prop :=
  match item_link it with
  | None => True
  | Some link =>
      link = []
      \/ (exists e, extract_text eng link = Raised e)
      \/ extract_text eng link = Returned []
      \/ exists html, extract_text eng link = Returned html
          /\ ((exists e, extract_main_text_from_html eng html = Raised e)
              \/ exists main_text,
                   extract_main_text_from_html eng html = Returned main_text
                   /\ ((exists e, preprocess_html main_text link = Raised e)
                       \/ preprocess_html main_text link = Returned []))
  end.

(** The item gives the text [processed] under the title [title] for
    its link [link]: it has that link, which is not empty, its page is
    fetched and not empty, and the extraction and the preprocessing
    return, the latter a text that is not empty. *)
Definition item_gives (eng : engine) (it : item)
    (title processed link : pystr) : Prop :=
  item_link it = Some link /\ link <> [] /\ processed <> []
  /\ title = get_or (item_title it) []
  /\ exists html main_text,
       extract_text eng link = Returned html /\ html <> []
       /\ extract_main_text_from_html eng html = Returned main_text
       /\ preprocess_html main_text link = Returned processed.

(** What the items give, in their order: an item that fails gives
    nothing, every other item gives its title, text and link. *)
Inductive gathered_from (eng : engine)
  : list item -> list (pystr * pystr * pystr) -> Prop :=
| gathered_nil : gathered_from eng [] []
| gathered_failed it items kept :
    item_fails eng it -> gathered_from eng items kept ->
    gathered_from eng (it :: items) kept
| gathered_given it items kept title processed link :
    item_gives eng it title processed link -> gathered_from eng items kept ->
    gathered_from eng (it :: items) ((title, processed, link) :: kept).

(** [[x for x, _ in results if x]] on optional strings. *)
Fixpoint keep_truthy (xs : list (option pystr)) : list pystr :=
  match xs with
  | [] => []
  | Some x :: more =>
      if truthy x then x :: keep_truthy more else keep_truthy more
  | None :: more => keep_truthy more
  end.

(** [asyncio.gather] over the items, then the two comprehensions and
    the formatting: the common tail of the three adapters. *)
Definition gather_and_format (eng : engine) (items : list item)
  : pystr * list pystr :=
  let results := map (_extract_and_process_item eng) items in
  let valid_texts := keep_truthy (map fst results) in
  let valid_links := keep_truthy (map snd results) in
  let observation_string := format_search_results valid_texts valid_links in
  (observation_string, valid_links).

End Extraction.

End Helpers.
Export Helpers.


(** ** core/pipeline.py *)

Module Pipeline.

Local Open Scope N_scope.

(** *** The retrieval adapters *)

(** The JSON answer of SerpAPI: the adapter reads [organic_results];
    [handle_response] reads the rest. *)
Record serp_response : Type := SerpResponse {
  organic_results : option (list item);
  other_fields : pystr
}.

Record serp_engine : Type := SerpEngine {
  serp_base : engine;
  serp_search : pystr -> outcome serp_response;
  handle_response : serp_response -> outcome pystr
}.

(** [try: ... except Exception as e: return (f"...: {e}", [])] *)
Definition catching (prefix : pystr) (body : outcome (pystr * list pystr))
  : pystr * list pystr :=
  match body with
  | Returned r => r
  | Raised e => (prefix ++ e, [])
  end.

Section Adapters.

Variable preprocess_html : pystr -> pystr -> outcome pystr.

(** The module-level engines, [None] when their construction failed,
    and whether the helper functions were imported. *)
Variable serp : option serp_engine.
Variable naver : option engine.
Variable ces : option engine.
Variable helpers_imported : bool.

Definition no_result : pystr := u "검색 결과 없음.".

(** The items built from [organic_results]. *)
Definition organic_items (search_result : serp_response) : list item :=
  match organic_results search_result with
  | None => []
  | Some results =>
      map (fun i => Item (Some (get_or (item_title i) []))
                         (Some (get_or (item_link i) [])))
          (filter (fun i => truthy (get_or (item_link i) [])) results)
  end.

Definition serpapi_body (eng : serp_engine) (query : pystr)
  : outcome (pystr * list pystr) :=
  match serp_search eng query with
  | Raised e => Raised e
  | Returned search_result =>
      match handle_response eng search_result with
      | Raised e => Raised e
      | Returned handled_result =>
          let is_generic_web_search :=
            starts_with (u "웹 검색") handled_result in
          let is_no_result := str_eqb handled_result no_result in
          if negb is_generic_web_search && negb is_no_result
          then Returned (handled_result, [])
          else if is_no_result then Returned (handled_result, [])
          else
            let items := organic_items search_result in
            if negb (nonempty items) then Returned (no_result, [])
            else Returned
                   (gather_and_format preprocess_html (serp_base eng) items)
      end
  end.

Definition run_serpapi_async (query : pystr) : pystr * list pystr :=
  match serp with
  | None => (u "SerpAPI 엔진 초기화 실패", [])
  | Some eng =>
      if negb helpers_imported then (u "헬퍼 함수 임포트 실패", [])
      else catching (u "SerpAPI 검색 처리 중 오류 발생: ")
                    (serpapi_body eng query)
  end.




End Adapters.

(** *** Conversation memory and the stages of a turn *)

Inductive role : Type := Human | AI.

Record message : Type := Message {
  msg_role : role;
  msg_content : pystr
}.

Inductive stage : Type :=
| Decide | NoSearch | Refine | Choose | Agent | Summarize | FactCheck.

(** What a turn does to the outside: it invokes a chain or the agent,
    or appends a message to the conversation memory. *)
Inductive event : Type :=
| Invoked (s : stage)
| Appended (m : message).

(** The state a turn threads: [memory.chat_memory.messages], and the
    record of what it did, oldest first. *)
Record world : Type := World {
  chat_memory : list message;
  history : list event
}.

Definition M (A : Type) : Type := world -> A * world.

Definition ret {A} (a : A) : M A := fun w => (a, w).

Definition bind {A B} (m : M A) (f : A -> M B) : M B :=
  fun w => let '(a, w') := m w in f a w'.

Notation "x <- m ;; f" := (bind m (fun x => f))
  (at level 61, m at next level, right associativity).
Notation "m ;;; f" := (bind m (fun _ => f))
  (at level 61, right associativity).

(** [await chain.ainvoke(...)]: the call is recorded, its outcome is
    the one the environment gives. *)
Definition ainvoke {A} (s : stage) (result : A) : M A :=
  fun w => (result, World (chat_memory w) (history w ++ [Invoked s])).

Definition append_message (m : message) : M unit :=
  fun w => (tt, World (chat_memory w ++ [m]) (history w ++ [Appended m])).

Definition add_user_message (text : pystr) : M unit :=
  append_message (Message Human text).

Definition add_ai_message (text : pystr) : M unit :=
  append_message (Message AI text).

Definition messages : M (list message) := fun w => (chat_memory w, w).

(** *** The environment of [run_pipeline] *)

Inductive refine_result : Type :=
| RefineDict (text : option pystr)   (* a dict, with or without [text] *)
| RefineStr (s : pystr)
| RefineOther.

(** The observation of a step: a pair whose first component is a
    string or not ([None]) and whose second is a list or not; or
    something that is no pair.  An element of the list is a string or
    not. *)
Inductive observation : Type :=
| ObsPair (obs_str : option pystr) (src_links : option (list (option pystr)))
| ObsOther.

(** A step of the agent's trace: a pair of an action, which names its
    tool when it is an [AgentAction], and an observation; or something
    that is no pair. *)
Inductive step : Type :=
| Step (tool : option pystr) (obs : observation)
| StepOther.

(** The dict the agent returns: [output] and [intermediate_steps], each
    present or not; steps that are no list count as absent. *)
Record agent_result : Type := AgentResult {
  output : option pystr;
  intermediate_steps : option (list step)
}.

(** The chains and the agent.  A chain returns a dict, of which the
    pipeline reads one key (absent: [None]), or raises; [Raised] also
    stands for an exception raised while the result is read. *)
Record env : Type := Env {
  decide_chain : pystr -> outcome (option pystr);
  no_search_chain : pystr -> outcome (option pystr);
  refine_chain : pystr -> outcome refine_result;
  choose_chain : pystr -> outcome (option pystr);
  agent : pystr -> outcome agent_result;
  search_answer_chain : pystr -> pystr -> outcome (option pystr);
  fact_check_chain : pystr -> pystr -> outcome (option pystr)
}.

(** Which module-level components were constructed. *)
Record components : Type := Components {
  llm_ready : bool;
  decide_ready : bool;
  no_search_ready : bool;
  refine_ready : bool;
  choose_ready : bool;
  agent_ready : bool;
  search_answer_ready : bool;
  fact_check_ready : bool;
  parser_ready : bool
}.

Definition all_ready : components :=
  Components true true true true true true true true true.

(** *** [run_pipeline] *)

Definition INIT_ERROR : pystr := u "챗봇 초기화 오류 발생.".
Definition SEARCH : pystr := u "SEARCH".
Definition NO_SEARCH : pystr := u "NO_SEARCH".

(** [[^a-zA-Z]+] *)
Definition non_letters_regex : re :=
  Plus (Chr (fun c => negb (is_ascii_letter c))).

(** [s.lower()] for a string of ASCII letters. *)
Definition str_lower (s : pystr) : pystr := map ascii_lower s.

Definition engine_names : list pystr := [u "serpapi"; u "naver"; u "ces"].

Definition search_tools : list pystr :=
  [u "serpapi_search"; u "naver_search"; u "ces_search"].

(** [tool_map.get(engine_name, "ces_search")] *)
Definition tool_map_get (engine_name : pystr) : pystr :=
  if str_eqb engine_name (u "serpapi") then u "serpapi_search"
  else if str_eqb engine_name (u "naver") then u "naver_search"
  else u "ces_search".

(** The loop over [reversed(intermediate_steps)]: the first step whose
    action names a search tool and whose observation is a pair of a
    string and a list ends the loop. *)
Fixpoint last_tool_observation (reversed_steps : list step)
  : option (pystr * list (option pystr)) :=
  match reversed_steps with
  | [] => None
  | Step (Some tool) (ObsPair (Some obs_str) (Some src_links)) :: more =>
      if str_in tool search_tools then Some (obs_str, src_links)
      else last_tool_observation more
  | _ :: more => last_tool_observation more
  end.

(** What the agent stage leaves in the variables of the turn. *)
Record agent_vars : Type := AgentVars {
  final_answer_str : pystr;
  agent_observation_for_factcheck : pystr;
  original_source_links : list (option pystr)
}.

Definition read_agent_result (r : outcome agent_result) : agent_vars :=
  match r with
  | Returned agent_result =>
      let final := strip (get_or (output agent_result) []) in
      let '(obs, links) :=
        match intermediate_steps agent_result with
        | Some steps =>
            match last_tool_observation (rev steps) with
            | Some found => found
            | None => ([], [])
            end
        | None => ([], [])
        end in
      AgentVars final (if truthy obs then obs else final) links
  | Raised e => AgentVars (u "Agent 실행 중 에러 발생: " ++ e) [] []
  end.

(** The agent is constructed with the memory of the turns
    ([memory=memory]): when its call returns, the executor saves the
    input and the output of the call there, as a user's and an
    assistant's message; a call that raises saves nothing.  (The
    executor always returns its output; a result without one saves
    nothing here.) *)
Definition saved_by_agent (agent_input : pystr) (r : outcome agent_result)
  : list message :=
  match r with
  | Returned agent_result =>
      match output agent_result with
      | Some text => [Message Human agent_input; Message AI text]
      | None => []
      end
  | Raised _ => []
  end.

Fixpoint append_messages (ms : list message) : M unit :=
  match ms with
  | [] => ret tt
  | m :: more => append_message m ;;; append_messages more
  end.

Definition save_context (agent_input : pystr) (r : outcome agent_result)
  : M unit :=
  append_messages (saved_by_agent agent_input r).

Definition summary_skip_markers : list pystr :=
  [u "오류"; u "실패"; u "없음"; u "불가"; u "죄송합니다"].

Definition fact_check_failure_markers : list pystr :=
  [u "오류"; u "정보 확인 불가"; u "수정 불가"].

Definition contains_any (markers : list pystr) (s : pystr) : bool :=
  existsb (fun marker => contains marker s) markers.

Definition type_name (m : message) : pystr :=
  match msg_role m with
  | Human => u "HumanMessage"
  | AI => u "AIMessage"
  end.

(** [messages[-2:]] *)
Definition last_two {A} (xs : list A) : list A :=
  skipn (length xs - 2) xs.

Definition history_text_of (msgs : list message) : pystr :=
  let text :=
    join NL (map (fun m => type_name m ++ u ": " ++ msg_content m)
                 (last_two msgs)) in
  if truthy text then text else u "(이전 대화 없음)".

Definition observation_body_of (agent_observation : pystr) : pystr :=
  let stripped_observation := strip agent_observation in
  if truthy stripped_observation then stripped_observation
  else u "(검색된 본문 내용 없음)".

Definition combined_history_of (agent_observation : pystr)
    (msgs : list message) : pystr :=
  u "[검색된 본문]" ++ NL ++ firstn 2000 (observation_body_of agent_observation)
    ++ NL ++ NL ++ u "[최근 대화 기록]" ++ NL ++ history_text_of msgs.

(** The sources block appended to the body of the answer. *)
Definition attach_sources (final_answer_body : pystr)
    (links : list (option pystr)) : pystr :=
  if nonempty links then
    let unique_links := fromkeys (keep_truthy links) in
    if nonempty unique_links
    then final_answer_body ++ NL ++ NL ++ u "출처:" ++ NL
           ++ link_lines unique_links
    else final_answer_body
  else final_answer_body.

Section Run.

(** [str.upper] on a character outside ASCII, by the Unicode tables of
    the interpreter. *)
Variable upper_ext : char -> pystr.
Variable urlparse : pystr -> urlparse_result.
Variable E : env.
Variable C : components.

(** [s.upper()] *)
Definition str_upper (s : pystr) : pystr :=
  flat_map (fun c =>
              if c <? 128 then [if is_ascii_lower c then c - 32 else c]
              else upper_ext c) s.

(** Stage 1: the decision, [SEARCH] unless told otherwise. *)
Definition decide_stage (query : pystr) : M pystr :=
  r <- ainvoke Decide (decide_chain E query) ;;
  ret (match r with
       | Returned v => str_upper (strip (get_or v SEARCH))
       | Raised _ => SEARCH
       end).

(** The direct answer, used by the [NO_SEARCH] branch and by the
    fallback of the search branch, which differ in their constants. *)
Definition answer_directly (query default on_error : pystr) (limit : nat)
  : M pystr :=
  add_user_message query ;;;
  r <- ainvoke NoSearch (no_search_chain E query) ;;
  match r with
  | Returned v =>
      let answer := firstn limit (strip (get_or v default)) in
      add_ai_message answer ;;; ret answer
  | Raised _ => ret on_error
  end.

(** Stage 2: the rewritten query, the original one on failure. *)
Definition refine_stage (query : pystr) : M pystr :=
  r <- ainvoke Refine (refine_chain E query) ;;
  ret (match r with
       | Returned refine_result =>
           let refined :=
             match refine_result with
             | RefineDict text => strip (get_or text query)
             | RefineStr s => strip s
             | RefineOther => query
             end in
           if truthy refined then refined else query
       | Raised _ => query
       end).

(** Stage 3: the engine. *)
Definition normalize_engine (engine_name_raw : pystr) : pystr :=
  let engine_name := str_lower (sub_empty non_letters_regex engine_name_raw) in
  if str_in engine_name engine_names then engine_name else u "ces".

Definition choose_stage (refined : pystr) : M pystr :=
  r <- ainvoke Choose (choose_chain E refined) ;;
  ret (match r with
       | Returned v => normalize_engine (strip (get_or v (u "CES")))
       | Raised _ => u "ces"
       end).

(** Stage 4: the agent. *)
Definition agent_input_of (refined selected_tool_name : pystr) : pystr :=
  u "'" ++ refined ++ u "' 쿼리에 대해 '" ++ selected_tool_name
    ++ u "' 도구를 사용하여 관련 정보를 검색하고 그 결과를 말하라.".

Definition agent_stage (refined engine_name : pystr) : M agent_vars :=
  let selected_tool_name := tool_map_get engine_name in
  let agent_input := agent_input_of refined selected_tool_name in
  r <- ainvoke Agent (agent E agent_input) ;;
  save_context agent_input r ;;;
  ret (read_agent_result r).

(** Stage 5: the body of the agent's final answer. *)
Definition extract_content (final_answer_str : pystr) : pystr :=
  if truthy final_answer_str && parser_ready C then
    let '(parsed_body, _) := parse_agent_observation urlparse final_answer_str in
    if truthy parsed_body then parsed_body else final_answer_str
  else if negb (truthy final_answer_str) then u "(Agent 최종 답변 없음)"
  else final_answer_str.

(** Stage 6: the summary. *)
Definition summarize_stage (extracted_content refined : pystr) : M pystr :=
  if truthy extracted_content
     && negb (contains_any summary_skip_markers extracted_content)
     && search_answer_ready C
  then
    r <- ainvoke Summarize (search_answer_chain E extracted_content refined) ;;
    ret (match r with
         | Returned v =>
             let temp_summary := strip (get_or v []) in
             if truthy temp_summary then temp_summary else extracted_content
         | Raised _ => extracted_content
         end)
  else ret extracted_content.

(** Stage 7: the fact check. *)
Definition fact_check_stage (summary agent_observation : pystr) : M pystr :=
  if fact_check_ready C then
    msgs <- messages ;;
    let combined_history := combined_history_of agent_observation msgs in
    r <- ainvoke FactCheck (fact_check_chain E summary combined_history) ;;
    ret (match r with
         | Returned v =>
             let temp_checked := strip (get_or v []) in
             if truthy temp_checked
                && negb (contains_any fact_check_failure_markers temp_checked)
             then temp_checked else summary
         | Raised _ => summary
         end)
  else ret summary.

(** The search branch up to the fact check: the variables the agent
    stage set and [checked_summary]. *)
Definition grounded_summary (query : pystr) : M (agent_vars * pystr) :=
  refined <- refine_stage query ;;
  engine_name <- choose_stage refined ;;
  vars <- agent_stage refined engine_name ;;
  add_user_message query ;;;
  let extracted_content := extract_content (final_answer_str vars) in
  summary <- summarize_stage extracted_content refined ;;
  checked_summary <-
    fact_check_stage summary (agent_observation_for_factcheck vars) ;;
  ret (vars, checked_summary).

(** The search branch: the sources are attached to the checked summary
    and the answer is stored. *)
Definition search_path (query : pystr) : M pystr :=
  r <- grounded_summary query ;;
  let '(vars, checked_summary) := r in
  let final_answer_with_links :=
    attach_sources checked_summary (original_source_links vars) in
  add_ai_message final_answer_with_links ;;;
  ret final_answer_with_links.

Definition core_ready : bool :=
  llm_ready C && decide_ready C && no_search_ready C && refine_ready C
  && choose_ready C && agent_ready C && search_answer_ready C
  && fact_check_ready C && parser_ready C.

Definition search_ready : bool :=
  agent_ready C && refine_ready C && choose_ready C
  && search_answer_ready C && fact_check_ready C.

Definition run_pipeline (query : pystr) : M pystr :=
  if negb core_ready then ret INIT_ERROR
  else
    decision <- decide_stage query ;;
    if str_eqb decision NO_SEARCH then
      answer_directly query (u "답변 생성 불가") (u "간단 답변 생성 에러") 50
    else if negb search_ready then
      answer_directly query (u "답변 오류") (u "답변 생성 중 오류 발생.") 20
    else search_path query.

End Run.

End Pipeline.
Export Pipeline.

(** ** Substitution by a text *)

Module RegexSub.

(** [re.sub(pattern, repl, s)] for a replacement without group
    references: every match is replaced, an empty match too, also at
    the end of the text and next to the match before it. *)
Fixpoint sub_scan_with (r : re) (repl : pystr) (skip : nat) (pre s : pystr)
  : pystr :=
  match s with
  | [] =>
      match skip with
      | O => match match_here r pre [] with
             | Some _ => repl
             | None => []
             end
      | S _ => []
      end
  | c :: s' =>
      match skip with
      | S n => sub_scan_with r repl n (c :: pre) s'
      | O =>
          match match_here r pre s with
          | Some st =>
              match length s - length (rest st) with
              | O => repl ++ c :: sub_scan_with r repl 0 (c :: pre) s'
              | S n => repl ++ sub_scan_with r repl n (c :: pre) s'
              end
          | None => c :: sub_scan_with r repl 0 (c :: pre) s'
          end
      end
  end.

Definition sub_with (r : re) (repl s : pystr) : pystr :=
  sub_scan_with r repl 0 [] s.

(** [\s+] *)
Definition spaces_regex : re := Plus ws.

(** [s.replace(old, new)] for an [old] of one character. *)
Definition replace_char (old : char) (new s : pystr) : pystr :=
  flat_map (fun c => if (c =? old)%N then new else [c]) s.

End RegexSub.
Export RegexSub.

(** ** utils/html_processor.py *)

Module HtmlProcessor.

Local Open Scope N_scope.

Definition not_gt : re := Chr (fun c => negb (c =? 62)).

(** The pattern of a tag: an opening angle bracket, one or more
    characters other than the closing one, the closing one. *)
Definition tag_regex : re := seq_of [lit1 60; Plus not_gt; lit1 62].

(** [SE-TEXT\s*{( .*? )}\s*SE-TEXT] with DOTALL. *)
Definition se_text_regex : re :=
  seq_of [lit (u "SE-TEXT"); Star true ws; lit1 123;
          Group 1 (Star false any_char); lit1 125; Star true ws;
          lit (u "SE-TEXT")].

(** The pattern of the div whose id attribute is [postViewArea], with
    DOTALL: [<div], one or more characters other than the closing
    bracket, the attribute with its value in double quotes, any
    characters other than the closing bracket, that bracket, the
    shortest text (group 1) and the closing [</div>]. *)
Definition post_view_regex : re :=
  seq_of [lit (u "<div"); Plus not_gt;
          lit (u "id=" ++ [34] ++ u "postViewArea" ++ [34]);
          Star true not_gt; lit1 62; Group 1 (Star false any_char);
          lit (u "</div>")].

(** [extract_naver_blog_body]: the text of the SmartEditor blocks, or
    of the post view area, or [None]. *)
Definition extract_naver_blog_body (text : pystr) : option pystr :=
  let se_blocks := findall se_text_regex text in
  if nonempty se_blocks then
    let blocks :=
      map (fun b => strip (sub_empty tag_regex b))
          (filter (fun b => truthy (strip b)) se_blocks) in
    Some (join [10] blocks)
  else
    match search post_view_regex text with
    | Some m => Some (sub_empty tag_regex (group 1 m))
    | None => None
    end.

Section Preprocess.

(** The class [\w] of [re] on [str] patterns, by the Unicode tables of
    the interpreter. *)
Variable is_word : char -> bool.

Definition is_hangul_syllable (c : char) : bool :=
  (44032 <=? c) && (c <=? 55203).

(** What the second substitution keeps: word characters, Hangul
    syllables, whitespace, and the full stop, the comma, the question
    mark and the exclamation mark. *)
Definition kept_char (c : char) : bool :=
  is_word c || is_hangul_syllable c || is_space c
  || (c =? 46) || (c =? 44) || (c =? 63) || (c =? 33).

Definition special_char_regex : re := Chr (fun c => negb (kept_char c)).

Definition preprocess_html (text url : pystr) : pystr :=
  let text :=
    if contains (u "blog.naver.com") url then
      match extract_naver_blog_body text with
      | Some body_text => if truthy body_text then body_text else text
      | None => text
      end
    else text in
  let cleaned := sub_empty tag_regex text in
  let cleaned := sub_empty special_char_regex cleaned in
  let cleaned := strip (sub_with spaces_regex (u " ") cleaned) in
  firstn 2000 cleaned.

End Preprocess.

(** The [preprocess_html] that [utils/helpers.py] defines when the
    import fails: tags become spaces, whitespace is collapsed. *)
Definition fallback_preprocess_html (text : pystr) : pystr :=
  let cleaned := sub_with tag_regex (u " ") text in
  let cleaned := strip (sub_with spaces_regex (u " ") cleaned) in
  firstn 2000 cleaned.

End HtmlProcessor.
Export HtmlProcessor.

(** ** search/serpapi.py, search/naver.py, search/ces.py *)

Module Engines.

Local Open Scope N_scope.

(** [_clean_text] of the CES and SerpAPI engines. *)
Definition _clean_text (text : pystr) : pystr :=
  strip (sub_with spaces_regex (u " ") text).

(** [_clean_text] of the Naver engine: the zero-width joiner and the
    byte order mark are deleted and the no-break space becomes a
    space first. *)
Definition naver_clean_text (text : pystr) : pystr :=
  let text :=
    replace_char 65279 []
      (replace_char 160 (u " ") (replace_char 8205 [] text)) in
  strip (sub_with spaces_regex (u " ") text).

(** The answer box of a SerpAPI response: a dict whose keys may be
    absent; a value is the text an f-string prints for it. *)
Record answer_box : Type := AnswerBox {
  box_type : option pystr;
  box_location : option pystr;
  box_weather : option pystr;
  box_temperature : option pystr;
  box_unit : option pystr;
  box_price : option pystr;
  box_title : option pystr;
  box_stock : option pystr;
  box_exchange : option pystr;
  box_currency : option pystr;
  box_previous_close : option pystr;
  box_answer : option pystr;
  box_snippet : option pystr;
  box_highlighted_words : option (list pystr)
}.

Record knowledge_graph : Type := KnowledgeGraph {
  kg_title : option pystr;
  kg_description : option pystr
}.

Record serp_json : Type := SerpJson {
  json_answer_box : option answer_box;
  json_knowledge_graph : option knowledge_graph;
  json_organic_results : option (list item)
}.

(** What the adapter reads of the response. *)
Definition adapter_view (response_json : serp_json) : serp_response :=
  SerpResponse (json_organic_results response_json) [].

Definition none_info : pystr := u "정보 없음".
Definition not_available : pystr := u "N/A".

(** [a or b] on strings. *)
Definition or_else (a b : pystr) : pystr := if truthy a then a else b.

Definition weather_text (box : answer_box) : pystr :=
  u "날씨 정보" ++ NL
    ++ u "지역: " ++ get_or (box_location box) none_info ++ NL
    ++ u "날씨: " ++ get_or (box_weather box) none_info ++ NL
    ++ u "기온: " ++ get_or (box_temperature box) none_info ++ u " "
    ++ get_or (box_unit box) [].

Definition finance_text (box : answer_box) : pystr :=
  u "주가 정보 (SerpAPI - answer_box)" ++ NL
    ++ u "종목: " ++ get_or (box_title box) not_available
    ++ u " (" ++ get_or (box_stock box) not_available ++ u ")" ++ NL
    ++ u "거래소: " ++ get_or (box_exchange box) not_available ++ NL
    ++ u "현재가: " ++ get_or (box_price box) not_available ++ u " "
    ++ get_or (box_currency box) [] ++ NL
    ++ u "전일 종가: " ++ get_or (box_previous_close box) not_available.

Definition simple_answer (box : answer_box) : pystr :=
  or_else (get_or (box_answer box) [])
    (or_else (get_or (box_snippet box) [])
       (or_else (join (u " / ")
                   (match box_highlighted_words box with
                    | Some ws => ws
                    | None => []
                    end))
          (or_else (get_or (box_title box) []) none_info))).

Definition is_option_text (v : option pystr) (text : pystr) : bool :=
  match v with
  | Some s => str_eqb s text
  | None => false
  end.

Definition is_some {A} (v : option A) : bool :=
  match v with Some _ => true | None => false end.

(** [SerpapiEngine.handle_response]; the branch of the organic results
    fetches the first page with the methods of the engine, which can
    raise. *)
Definition serpapi_handle_response (eng : engine) (response_json : serp_json)
  : outcome pystr :=
  match json_answer_box response_json with
  | Some box =>
      if is_option_text (box_type box) (u "weather_result")
      then Returned (weather_text box)
      else if is_option_text (box_type box) (u "finance_results")
              && is_some (box_price box)
      then Returned (finance_text box)
      else Returned (u "간단 정보" ++ NL ++ simple_answer box)
  | None =>
      match json_knowledge_graph response_json with
      | Some kg =>
          Returned (u "지식 카드" ++ NL
                      ++ get_or (kg_title kg) none_info ++ u ": "
                      ++ get_or (kg_description kg) (u "설명 없음"))
      | None =>
          match json_organic_results response_json with
          | Some (first :: _) =>
              let title := get_or (item_title first) [] in
              let link := get_or (item_link first) [] in
              match extract_text eng link with
              | Raised e => Raised e
              | Returned html =>
                  match extract_main_text_from_html eng html with
                  | Raised e => Raised e
                  | Returned text =>
                      Returned (u "웹 검색" ++ NL ++ u "제목: " ++ title ++ NL
                                  ++ u "링크: " ++ link ++ NL ++ NL
                                  ++ u "본문:" ++ NL ++ text ++ u "...")
                  end
              end
          | _ => Returned no_result
          end
      end
  end.

(** The keywords of the services of Naver, in the order of
    [service_map]. *)
Definition service_map : list (pystr * list pystr) :=
  [(u "news", [u "뉴스"; u "기사"; u "보도"; u "언론"]);
   (u "book", [u "책"; u "도서"; u "출판"]);
   (u "encyc", [u "백과사전"; u "사전"; u "백과"]);
   (u "cafearticle", [u "카페"; u "카페글"; u "카페 포스트"]);
   (u "kin", [u "지식인"; u "질문"; u "답변"]);
   (u "webkr", [u "웹문서"; u "사이트"; u "페이지"]);
   (u "image", [u "이미지"; u "사진"; u "그림"]);
   (u "shop", [u "쇼핑"; u "상품"; u "조회"]);
   (u "doc", [u "전문자료"; u "논문"; u "리포트"]);
   (u "adult", [u "성인"; u "19금"; u "성인물"]);
   (u "errata", [u "오타"; u "교정"; u "정정"])].

Definition fallback_service : pystr := u "webkr".

(** The loops of [detect_service] over the services and their
    keywords. *)
Fixpoint first_service (services : list (pystr * list pystr)) (text : pystr)
  : pystr :=
  match services with
  | [] => fallback_service
  | (svc, keywords) :: more =>
      if existsb (fun kw => contains kw text) keywords then svc
      else first_service more text
  end.

Section Naver.

(** [str.lower], by the Unicode tables of the interpreter. *)
Variable str_lower_unicode : pystr -> pystr.

Definition detect_service (query : pystr) : pystr :=
  let text := str_lower_unicode query in
  first_service service_map text.

(** [not v] for a value that is [None] or a string. *)
Definition falsy (v : option pystr) : bool :=
  match v with
  | Some s => negb (truthy s)
  | None => true
  end.

(** The first lines of [search]: the service whose URL is asked. *)
Definition search_service_id (service : option pystr) (query : pystr)
  : pystr :=
  let service_id :=
    match service with
    | Some s =>
        if str_in s (map fst service_map) || str_eqb s (u "webkr")
        then service else None
    | None => None
    end in
  if falsy service_id
  then if falsy service then detect_service query else get_or service []
  else get_or service_id [].

Definition search_url (service : option pystr) (query : pystr) : pystr :=
  u "https://openapi.naver.com/v1/search/"
    ++ search_service_id service query ++ u ".json".

End Naver.

End Engines.
Export Engines.

(** ** api/main.py *)

Module Api.

Inductive http_result : Type :=
| Answered (answer : pystr)                  (* [AnswerResponse] *)
| HttpError (status : nat) (detail : pystr). (* [HTTPException] *)

Section Endpoint.

Variable upper_ext : char -> pystr.
Variable urlparse : pystr -> urlparse_result.
Variable E : env.
Variable C : components.

(** Whether the schemas and the pipeline were imported. *)
Variable schemas_imported : bool.
Variable pipeline_imported : bool.

(** [process_query_endpoint]; the request is absent or carries a
    query. *)
Definition process_query_endpoint (request : option pystr) : M http_result :=
  if negb schemas_imported
  then ret (HttpError 500 (u "API schema definition error."))
  else
    match request with
    | None => ret (HttpError 400 (u "Query cannot be empty."))
    | Some query =>
        if negb (truthy query) || negb (truthy (strip query))
        then ret (HttpError 400 (u "Query cannot be empty."))
        else if negb pipeline_imported
        then ret (HttpError 500
                    (u "Internal server error: Pipeline unavailable."))
        else
          final_answer <- run_pipeline upper_ext urlparse E C query ;;
          ret (Answered final_answer)
    end.

End Endpoint.

Inductive health : Type :=
| Healthy
| Unavailable (detail : pystr).              (* status 503 *)

(** [health_check], from whether [llm] and [agent] are not [None]. *)
Definition health_check (llm_ok agent_ok : bool) : health :=
  if llm_ok && agent_ok then Healthy
  else
    let details :=
      (if negb llm_ok then [u "LLM 초기화 실패"] else [])
        ++ (if negb agent_ok then [u "Agent 초기화 실패"] else []) in
    Unavailable (u "서버 이용불가: " ++ join (u ", ") details).

End Api.
Export Api.

(** ** web/app.py *)

Module Web.

(** A message of the session: a dict with a role and a content. *)
Record web_message : Type := WebMessage {
  web_role : pystr;
  web_content : pystr
}.

(** What [requests.get] gives for the health endpoint: a response, of
    which the page reads the status, the [message] of the JSON body
    (absent: [None]) and the text; or an exception of [requests]. *)
Inductive health_reply : Type :=
| HealthReply (status_is_200 : bool) (status_code : pystr)
    (message : option pystr) (text : pystr)
| HealthFailed (e : pystr).

(** What the [try] block of the prompt meets: a response whose JSON
    body has an [answer] or not, or one of the exceptions it tells
    apart, in the order of the [except] clauses. *)
Inductive post_outcome : Type :=
| PostOk (answer : option pystr)
| PostTimeout
| PostHttpError (status_code : pystr)
| PostRequestError
| PostOtherError.

Section Page.

(** The URL of the health endpoint, from the environment. *)
Variable HEALTH_ENDPOINT : pystr.

Definition check_api_health (reply : health_reply) : bool * pystr :=
  match reply with
  | HealthReply status_is_200 status_code message text =>
      if status_is_200 then (true, get_or message (u "API is running."))
      else (false,
            u "API health check failed with status " ++ status_code
              ++ u ": " ++ text)
  | HealthFailed e =>
      (false, u "Failed to connect to API at " ++ HEALTH_ENDPOINT
                ++ u ": " ++ e)
  end.

Definition user_says (content : pystr) : web_message :=
  WebMessage (u "user") content.

Definition assistant_says (content : pystr) : web_message :=
  WebMessage (u "assistant") content.

(** The block [if prompt:] on the messages of the session. *)
Definition handle_prompt (post : pystr -> post_outcome)
    (messages : list web_message) (prompt : option pystr)
  : list web_message :=
  match prompt with
  | None => messages
  | Some prompt =>
      if negb (truthy prompt) then messages
      else
        let messages := messages ++ [user_says prompt] in
        match post prompt with
        | PostOk answer =>
            if negb (falsy answer)
            then messages ++ [assistant_says (get_or answer [])]
            else messages
                   ++ [assistant_says (u "오류: 답변 형식이 잘못되었습니다.")]
        | PostTimeout =>
            messages ++ [assistant_says (u "오류: 응답 시간 초과")]
        | PostHttpError status_code =>
            messages
              ++ [assistant_says
                    (u "오류: API 요청 실패 (" ++ status_code ++ u ")")]
        | PostRequestError =>
            messages ++ [assistant_says (u "오류: 서버 연결 실패")]
        | PostOtherError =>
            messages ++ [assistant_says (u "오류: 알 수 없는 문제 발생")]
        end
  end.

(** One run of the page on the state of the session, in which
    [messages] is set or not: the page stops when the health check
    fails, the button empties the messages and reruns the page. *)
Definition page_run (reply : health_reply) (post : pystr -> post_outcome)
    (session : option (list web_message)) (reset_clicked : bool)
    (prompt : option pystr) : option (list web_message) :=
  let '(api_ok, _) := check_api_health reply in
  if negb api_ok then session
  else if reset_clicked then Some []
  else
    let messages :=
      match session with
      | Some messages => messages
      | None => []
      end in
    Some (handle_prompt post messages prompt).

End Page.

End Web.
Export Web.

(** ** The start of core/pipeline.py *)

Module Startup.








End Startup.
Export Startup.

(** ** Reading the record of a turn *)

Module Turn.

(** The turn starts from a memory and an empty record. *)
Definition start (memory : list message) : world := World memory [].

(** In the record, the user's message is appended before the agent is
    invoked: scanning from the oldest event, the message comes first. *)
Fixpoint user_message_before_agent (query : pystr) (events : list event)
  : bool :=
  match events with
  | [] => false
  | Invoked Agent :: _ => false
  | Appended (Message Human text) :: more =>
      str_eqb text query || user_message_before_agent query more
  | _ :: more => user_message_before_agent query more
  end.

(** The input the turn gives to the agent: the rewritten query and
    the tool of the chosen engine. *)
Definition agent_input_for (E : env) (query : pystr) : pystr :=
  let refined := fst (refine_stage E query (start [])) in
  let engine_name := fst (choose_stage E refined (start [])) in
  agent_input_of refined (tool_map_get engine_name).

(** The messages the agent's call of the turn saves in the memory. *)
Definition saved_for (E : env) (query : pystr) : list message :=
  let agent_input := agent_input_for E query in
  saved_by_agent agent_input (agent E agent_input).



(** The links the agent stage found in the trace. *)
Definition trace_links (r : outcome agent_result) : list (option pystr) :=
  original_source_links (read_agent_result r).

(** The sources block for the unique links, as both formatters write
    it. *)
Definition sources_block (unique_links : list pystr) : pystr :=
  NL ++ NL ++ u "출처:" ++ NL ++ link_lines unique_links.

End Turn.
Export Turn.

(** ** Sample environments *)

Module Samples.

Local Open Scope N_scope.

(** Upper case of the long s and of the sharp s; other characters
    outside ASCII are left as they are. *)
Definition sample_upper (c : char) : pystr :=
  if c =? 383 then [83] else if c =? 223 then [83; 83] else [c].

Definition link_a : pystr := u "https://example.com/a".
Definition link_b : pystr := u "https://example.com/b".

Definition sample_steps : list step :=
  [Step (Some (u "serpapi_search"))
        (ObsPair (Some (u "본문: 엔비디아 주가 상승"))
                 (Some [Some link_a; Some link_a; Some link_b; Some link_a]))].

(** Every call succeeds; the decision is [SEARCH]. *)
Definition search_env : env :=
  Env (fun _ => Returned (Some (u " search ")))
      (fun _ => Returned (Some (u "안녕하세요")))
      (fun _ => Returned (RefineDict (Some (u "엔비디아 주가"))))
      (fun _ => Returned (Some (u "SerpAPI")))
      (fun _ => Returned
                  (AgentResult
                     (Some (u "엔비디아 주가는 상승했습니다. https://example.com/c"))
                     (Some sample_steps)))
      (fun _ _ => Returned (Some (u "엔비디아 주가가 상승했습니다.")))
      (fun _ _ => Returned (Some (u "엔비디아 주가가 상승했습니다."))).

(** As [search_env], but the agent never ran a tool: its answer names
    a URL, its trace is empty. *)
Definition no_tool_env : env :=
  Env (decide_chain search_env) (no_search_chain search_env)
      (refine_chain search_env) (choose_chain search_env)
      (fun _ => Returned
                  (AgentResult
                     (Some (u "자세한 내용은 https://example.com/c 참고"))
                     (Some [])))
      (fun _ _ => Returned (Some (u "자세한 내용은 https://example.com/c 참고")))
      (fun _ _ => Returned (Some (u "자세한 내용은 https://example.com/c 참고"))).

(** As [no_tool_env], but the fact check answers in the format its
    prompt asks for: the text, then the list of the sources it
    found in it. *)
Definition cited_answer : pystr :=
  u "자세한 내용은 아래 참고" ++ NL ++ NL ++ u "출처:" ++ NL
    ++ u "- https://example.com/c".

Definition cited_env : env :=
  Env (decide_chain search_env) (no_search_chain search_env)
      (refine_chain search_env) (choose_chain search_env)
      (agent no_tool_env) (search_answer_chain no_tool_env)
      (fun _ _ => Returned (Some cited_answer)).

(** The decision is [NO_SEARCH] and the direct answer is blank. *)
Definition blank_answer_env : env :=
  Env (fun _ => Returned (Some (u "NO_SEARCH")))
      (fun _ => Returned (Some (u "  ")))
      (refine_chain search_env) (choose_chain search_env)
      (agent search_env) (search_answer_chain search_env)
      (fact_check_chain search_env).

(** Every call raises. *)
Definition failing_env : env :=
  Env (fun _ => Raised (u "timeout")) (fun _ => Raised (u "timeout"))
      (fun _ => Raised (u "timeout")) (fun _ => Raised (u "timeout"))
      (fun _ => Raised (u "timeout")) (fun _ _ => Raised (u "timeout"))
      (fun _ _ => Raised (u "timeout")).

Definition sample_query : pystr := u "엔비디아 최신 주가 알려줘".

(** A [urlparse] that fails with an exception other than [ValueError]. *)
Definition failing_urlparse (url : pystr) : urlparse_result :=
  UrlError (u "unexpected").

(** A preprocessing that keeps the text. *)
Definition sample_preprocess (text url : pystr) : outcome pystr :=
  Returned text.

(** Pages: the first link cannot be fetched, the second has content. *)
Definition sample_engine : engine :=
  Engine (fun _ => Returned [Item (Some (u "A")) (Some link_a);
                             Item (Some (u "B")) (Some link_b)])
         (fun link => if str_eqb link link_a then Raised (u "timeout")
                      else Returned (u "<p>내용</p>"))
         (fun html => Returned (u "내용")).

Definition sample_serp : serp_engine :=
  SerpEngine sample_engine
    (fun _ => Returned
                (SerpResponse (Some [Item (Some (u "A")) (Some link_a);
                                     Item (Some (u "B")) (Some link_b)]) []))
    (fun _ => Returned (u "웹 검색 결과")).

End Samples.
Export Samples.

(** ** The values of a turn on the search branch *)

Module TurnValues.

(** The rewritten query of the turn. *)
Definition refined_for (E : env) (query : pystr) : pystr :=
  fst (refine_stage E query (start [])).

(** The variables the agent stage sets. *)
Definition vars_for (E : env) (query : pystr) : agent_vars :=
  read_agent_result (agent E (agent_input_for E query)).

(** The content extracted from the agent's final answer. *)
Definition extracted_for (urlparse : pystr -> urlparse_result) (E : env)
    (C : components) (query : pystr) : pystr :=
  extract_content urlparse C (final_answer_str (vars_for E query)).

(** What the turn makes of the result of the fact check. *)
Definition checked_or (summary : pystr) (r : outcome (option pystr)) : pystr :=
  match r with
  | Returned v =>
      let temp_checked := strip (get_or v []) in
      if truthy temp_checked
         && negb (contains_any fact_check_failure_markers temp_checked)
      then temp_checked else summary
  | Raised _ => summary
  end.

End TurnValues.
Export TurnValues.

(** ** Sample responses of SerpAPI *)

Module EngineSamples.

(** An answer box of the weather. *)
Definition weather_json : serp_json :=
  SerpJson
    (Some (AnswerBox (Some (u "weather_result")) (Some (u "서울"))
             (Some (u "맑음")) (Some (u "21")) (Some (u "°C"))
             None None None None None None None None None))
    None None.

(** A response with one organic result and nothing else. *)
Definition organic_json : serp_json :=
  SerpJson None None (Some [Item (Some (u "B")) (Some link_b)]).

(** A response with two organic results; the page of the first cannot
    be fetched by [sample_engine]. *)
Definition two_results_json : serp_json :=
  SerpJson None None
    (Some [Item (Some (u "A")) (Some link_a);
           Item (Some (u "B")) (Some link_b)]).

(** The engine of SerpAPI when the service answers [response_json]. *)
Definition serp_answering (response_json : serp_json) : serp_engine :=
  SerpEngine sample_engine
    (fun _ => Returned (adapter_view response_json))
    (fun _ => serpapi_handle_response sample_engine response_json).

(** Components of which the agent was not constructed. *)
Definition no_agent : components :=
  Components true true true true true false true true true.

End EngineSamples.
Export EngineSamples.

(** ** What a pattern matches *)

Module RegexSemantics.

(** [matches r b w a]: the pattern [r] matches the word [w] when the
    text before it is [b] (reversed) and the text after it is [a]. *)
Inductive matches : re -> pystr -> pystr -> pystr -> Prop :=
| M_eps b a : matches Eps b [] a
| M_chr (p : char -> bool) c b a : p c = true -> matches (Chr p) b [c] a
| M_seq r1 r2 b w1 w2 a :
    matches r1 b w1 (w2 ++ a) ->
    matches r2 (rev w1 ++ b) w2 a ->
    matches (Seq r1 r2) b (w1 ++ w2) a
| M_alt_l r1 r2 b w a : matches r1 b w a -> matches (Alt r1 r2) b w a
| M_alt_r r1 r2 b w a : matches r2 b w a -> matches (Alt r1 r2) b w a
| M_star_nil g r b a : matches (Star g r) b [] a
| M_star_cons g r b w1 w2 a :
    matches r b w1 (w2 ++ a) ->
    matches (Star g r) (rev w1 ++ b) w2 a ->
    matches (Star g r) b (w1 ++ w2) a
| M_group n r b w a : matches r b w a -> matches (Group n r) b w a
| M_bos a : matches Bos [] [] a
| M_eos_end b : matches Eos b [] []
| M_eos_nl b : matches Eos b [] [10%N]
| M_not_behind w b a :
    starts_with (rev w) b = false -> matches (NotBehind w) b [] a.

(** Patterns without anchors and lookbehind: what they match does not
    depend on the surrounding text. *)
Fixpoint context_free (r : re) : bool :=
  match r with
  | Eps | Chr _ => true
  | Seq r1 r2 | Alt r1 r2 => context_free r1 && context_free r2
  | Star _ r1 | Group _ r1 => context_free r1
  | Bos | Eos | NotBehind _ => false
  end.

(** The state [st'] is [st] after the word [w] was read. *)
Definition reads (st : mstate) (w : pystr) (st' : mstate) : Prop :=
  rest st = w ++ rest st' /\ before st' = rev w ++ before st.

(** The string does not end with a line feed. *)
Definition no_final_newline (s : pystr) : Prop :=
  forall s0, s <> s0 ++ [10%N].

(** The words of a context-free pattern. *)
Definition lang (r : re) (w : pystr) : Prop := matches r [] w [].

(** No non-empty suffix of [t] is a word of [L]. *)
Definition suffix_free (L : pystr -> Prop) (t : pystr) : Prop :=
  forall p1 p2, t = p1 ++ p2 -> p2 <> [] -> ~ L p2.


Definition ends_with_newline (s : pystr) : bool :=
  match rev s with
  | c :: _ => (c =? 10)%N
  | [] => false
  end.

End RegexSemantics.
Export RegexSemantics.

(** ** Whitespace in normal form *)

Module TextSpec.

(** Each run of characters of the class [p] replaced by [repl];
    [in_run] tells that the character before was of the class. *)
Fixpoint squeeze (p : char -> bool) (repl : pystr) (in_run : bool) (s : pystr)
  : pystr :=
  match s with
  | [] => []
  | c :: s' =>
      if p c then
        if in_run then squeeze p repl true s'
        else repl ++ squeeze p repl true s'
      else c :: squeeze p repl false s'
  end.

(** Every whitespace character is a space, and none follows another. *)
Fixpoint single_spaced (s : pystr) : bool :=
  match s with
  | [] => true
  | c :: s' =>
      (if is_space c
       then (c =? 32)%N
            && match s' with
               | d :: _ => negb (is_space d)
               | [] => true
               end
       else true)
      && single_spaced s'
  end.

Definition not_space (c : char) : bool := negb (is_space c).

(** The text starts with a tag: an opening angle bracket, one or more
    characters other than the closing bracket, the closing bracket. *)
Definition tag_head (s : pystr) : Prop :=
  exists m after,
    s = 60%N :: m ++ 62%N :: after /\ m <> [] /\ ~ In 62%N m.

(** No tag starts anywhere in the text: after each opening angle
    bracket comes a closing one at once, or none at all. *)
Fixpoint tag_free (s : pystr) : bool :=
  match s with
  | [] => true
  | c :: s' =>
      (if (c =? 60)%N
       then starts_with [62%N] s' || negb (has_char 62%N s')
       else true)
      && tag_free s'
  end.

End TextSpec.
Export TextSpec.

(** ** Characters a pattern cannot match without *)

Module PatternSpec.

(** A sufficient condition for every match of [r] to hold the
    character [c]. *)
Fixpoint needs (c : char) (r : re) : Prop :=
  match r with
  | Chr p => forall x, p x = true -> x = c
  | Seq r1 r2 => needs c r1 \/ needs c r2
  | Alt r1 r2 => needs c r1 /\ needs c r2
  | Group _ r1 => needs c r1
  | Eps | Star _ _ | Bos | Eos | NotBehind _ => False
  end.

(** A sufficient condition for every match of [r] to be made of
    characters of the class [P]. *)
Fixpoint only (P : char -> bool) (r : re) : Prop :=
  match r with
  | Chr p => forall x, p x = true -> P x = true
  | Seq r1 r2 | Alt r1 r2 => only P r1 /\ only P r2
  | Star _ r1 | Group _ r1 => only P r1
  | Eps | Bos | Eos | NotBehind _ => True
  end.

(** The characters of the particles of [trailing_junk_regex]. *)
Definition particle_chars : pystr := u "에서이와과으로의가은는".

(** What the cleaning of a URL can cut: a closing parenthesis,
    whitespace, punctuation and the characters of the particles. *)
Definition junk_char (c : char) : bool :=
  simple_junk_char c || has_char c particle_chars.

End PatternSpec.
Export PatternSpec.

(** * Properties *)

(** ** Strings *)

Lemma str_eqb_eq a b : str_eqb a b = true <-> a = b.
Proof.
  unfold str_eqb. destruct (list_eq_dec N.eq_dec a b); split; congruence.
Qed.

Lemma str_eqb_refl a : str_eqb a a = true.
Proof. now apply str_eqb_eq. Qed.

Lemma str_eqb_neq a b : a <> b -> str_eqb a b = false.
Proof.
  intros H. destruct (str_eqb a b) eqn:E; [|reflexivity].
  apply str_eqb_eq in E. contradiction.
Qed.

Lemma str_in_In x xs : str_in x xs = true <-> In x xs.
Proof.
  unfold str_in. rewrite existsb_exists. split.
  - intros (y & Hy & E). apply str_eqb_eq in E. now subst.
  - intros H. exists x. split; [assumption | apply str_eqb_refl].
Qed.

(** ** The matcher and the semantics of patterns *)

Section MatcherSound.

Variable A : Type.

Let sound_for (r : re) (run : (mstate -> option A) -> mstate -> option A)
  : Prop :=
  forall k st x, run k st = Some x ->
    exists w st', reads st w st' /\ matches r (before st) w (rest st')
                  /\ k st' = Some x.

Lemma reads_nil st : reads st [] st.
Proof. split; reflexivity. Qed.

Lemma reads_app st w1 st1 w2 st2 :
  reads st w1 st1 -> reads st1 w2 st2 -> reads st (w1 ++ w2) st2.
Proof.
  intros [H1 H2] [H3 H4]. split.
  - rewrite H1, H3. now rewrite app_assoc.
  - rewrite H4, H2, rev_app_distr. now rewrite app_assoc.
Qed.

Lemma star_loop_sound g r body :
  sound_for r body ->
  forall fuel, sound_for (Star g r) (fun k => star_loop g body k fuel).
Proof.
  intros Hbody fuel. induction fuel as [|f IH]; intros k st x H; simpl in H.
  - exists [], st. repeat split; [constructor | assumption].
  - assert (Hagain :
      body (fun st' =>
              if length (rest st') <? length (rest st)
              then star_loop g body k f st' else None) st = Some x ->
      exists w st', reads st w st'
                    /\ matches (Star g r) (before st) w (rest st')
                    /\ k st' = Some x).
    { intros Hb. apply Hbody in Hb. destruct Hb as (w1 & st1 & R1 & M1 & K1).
      destruct (length (rest st1) <? length (rest st)); [|discriminate].
      apply IH in K1. destruct K1 as (w2 & st2 & R2 & M2 & K2).
      exists (w1 ++ w2), st2. split; [eapply reads_app; eassumption|].
      split; [|assumption].
      destruct R1 as [R1a R1b], R2 as [R2a R2b].
      apply M_star_cons.
      - rewrite <- R2a. exact M1.
      - rewrite <- R1b. exact M2. }
    assert (Hleave : k st = Some x ->
      exists w st', reads st w st'
                    /\ matches (Star g r) (before st) w (rest st')
                    /\ k st' = Some x).
    { intros Hk. exists [], st. repeat split; [constructor | assumption]. }
    destruct g; unfold orelse in H.
    + match type of H with
      | match ?b with _ => _ end = _ => destruct b eqn:Eb
      end; [inversion H; subst; auto | auto].
    + destruct (k st) eqn:Ek; [inversion H; subst; auto | auto].
Qed.

Lemma rmatch_sound r : sound_for r (rmatch (A:=A) r).
Proof.
  induction r; intros k st x H; cbn [rmatch] in H.
  - exists [], st. repeat split; [constructor | assumption].
  - destruct (rest st) as [|c s'] eqn:Es; [discriminate|].
    destruct (p c) eqn:Ep; [|discriminate].
    exists [c], (MState (c :: before st) s' (caps st)).
    split; [split; simpl; [assumption | reflexivity]|].
    split; [now constructor | assumption].
  - apply IHr1 in H. destruct H as (w1 & st1 & R1 & M1 & H).
    apply IHr2 in H. destruct H as (w2 & st2 & R2 & M2 & H).
    exists (w1 ++ w2), st2. split; [eapply reads_app; eassumption|].
    split; [|assumption].
    destruct R1 as [R1a R1b], R2 as [R2a R2b]. apply M_seq.
    + rewrite <- R2a. exact M1.
    + rewrite <- R1b. exact M2.
  - unfold orelse in H. destruct (rmatch r1 k st) eqn:E1.
    + inversion H; subst. apply IHr1 in E1.
      destruct E1 as (w & st' & R & M & K). exists w, st'.
      repeat split; try apply R; [now apply M_alt_l | assumption].
    + apply IHr2 in H. destruct H as (w & st' & R & M & K). exists w, st'.
      repeat split; try apply R; [now apply M_alt_r | assumption].
  - exact (star_loop_sound greedy IHr _ _ _ H).
  - apply IHr in H. destruct H as (w & st' & R & M & K).
    exists w, (set_cap n st st'). split; [exact R|].
    split; [now apply M_group | assumption].
  - destruct (before st) eqn:Eb; [|discriminate].
    exists [], st. split; [split; simpl; congruence|].
    split; [constructor | assumption].
  - destruct (rest st) as [|c [|d s']] eqn:Es; try discriminate.
    + exists [], st. split; [split; simpl; congruence|].
      rewrite Es. split; [constructor | assumption].
    + destruct (N.eqb_spec c 10); [subst c | discriminate].
      exists [], st. split; [split; simpl; congruence|].
      rewrite Es. split; [constructor | assumption].
  - destruct (starts_with (rev w) (before st)) eqn:Eb; [discriminate|].
    exists [], st. split; [apply reads_nil|].
    split; [now constructor | assumption].
Qed.

End MatcherSound.

Section MatcherComplete.

Variable A : Type.

(** The continuation accepts at the cursor whatever was captured. *)
Let accepts (k : mstate -> option A) (b a : pystr) : Prop :=
  forall cs, k (MState b a cs) <> None.

Let complete_at (r : re) (b w a : pystr) : Prop :=
  forall k cs, accepts k (rev w ++ b) a ->
    match r with
    | Star g r1 =>
        forall fuel, length (w ++ a) < fuel ->
          star_loop g (rmatch r1) k fuel (MState b (w ++ a) cs) <> None
    | _ => rmatch r k (MState b (w ++ a) cs) <> None
    end.

Lemma orelse_left (x y : option A) : x <> None -> orelse x y <> None.
Proof. destruct x; simpl; congruence. Qed.

Lemma orelse_right (x y : option A) : y <> None -> orelse x y <> None.
Proof. destruct x; simpl; congruence. Qed.

Lemma complete_at_rmatch r b w a :
  complete_at r b w a ->
  forall k cs, accepts k (rev w ++ b) a ->
    rmatch r k (MState b (w ++ a) cs) <> None.
Proof.
  intros H k cs Hk. specialize (H k cs Hk).
  destruct r; try exact H.
  cbn [rmatch rest]. apply H. lia.
Qed.

Lemma matches_complete_at r b w a : matches r b w a -> complete_at r b w a.
Proof.
  induction 1; intros k cs Hk; cbn [rmatch rest before].
  - apply Hk.
  - simpl. rewrite H. apply Hk.
  - rewrite <- app_assoc.
    apply (complete_at_rmatch IHmatches1). intros cs'.
    apply (complete_at_rmatch IHmatches2). intros cs''.
    unfold accepts in Hk. rewrite rev_app_distr, <- app_assoc in Hk. apply Hk.
  - apply orelse_left. now apply (complete_at_rmatch IHmatches).
  - apply orelse_right. now apply (complete_at_rmatch IHmatches).
  - intros [|f] Hf; [apply Hk|].
    cbn [star_loop]. destruct g; [apply orelse_right | apply orelse_left];
      apply Hk.
  - intros fuel Hf. destruct w1 as [|c w1].
    + apply (IHmatches2 k cs Hk fuel). exact Hf.
    + destruct fuel as [|f]; [simpl in Hf; lia|].
      cbn [star_loop].
      assert (Hagain :
        rmatch r
          (fun st' =>
             if length (rest st') <? length (rest (MState b (((c :: w1) ++ w2) ++ a) cs))
             then star_loop g (rmatch r) k f st' else None)
          (MState b (((c :: w1) ++ w2) ++ a) cs) <> None).
      { rewrite <- app_assoc. apply (complete_at_rmatch IHmatches1).
        intros cs'. cbn [rest].
        replace (length (w2 ++ a) <? length ((c :: w1) ++ w2 ++ a)) with true.
        - apply IHmatches2.
          + unfold accepts in Hk.
            rewrite rev_app_distr, <- app_assoc in Hk. exact Hk.
          + rewrite <- app_assoc in Hf. simpl in Hf.
            rewrite length_app in Hf. lia.
        - symmetry. apply Nat.ltb_lt. simpl. rewrite (length_app w1). lia. }
      destruct g; [apply orelse_left | apply orelse_right]; exact Hagain.
  - apply (complete_at_rmatch IHmatches). intros cs'. apply Hk.
  - apply Hk.
  - apply Hk.
  - simpl. apply Hk.
  - rewrite H. apply Hk.
Qed.

(** If the pattern matches a word at the cursor and the continuation
    accepts after it, the matcher finds a match. *)
Lemma rmatch_complete r b w a (k : mstate -> option A) cs :
  matches r b w a ->
  (forall cs', k (MState (rev w ++ b) a cs') <> None) ->
  rmatch r k (MState b (w ++ a) cs) <> None.
Proof.
  intros Hm Hk. apply complete_at_rmatch; [|exact Hk].
  now apply matches_complete_at.
Qed.

End MatcherComplete.

(** ** Inversion of the semantics *)

Lemma matches_seq_inv r1 r2 b w a :
  matches (Seq r1 r2) b w a ->
  exists w1 w2, w = w1 ++ w2 /\ matches r1 b w1 (w2 ++ a)
                /\ matches r2 (rev w1 ++ b) w2 a.
Proof.
  intros H. inversion H; subst. do 2 eexists. repeat split; eassumption.
Qed.

Lemma matches_alt_inv r1 r2 b w a :
  matches (Alt r1 r2) b w a -> matches r1 b w a \/ matches r2 b w a.
Proof. intros H. inversion H; subst; auto. Qed.

Lemma matches_group_inv n r b w a :
  matches (Group n r) b w a -> matches r b w a.
Proof. intros H. now inversion H. Qed.

Lemma matches_chr_inv p b w a :
  matches (Chr p) b w a -> exists c, w = [c] /\ p c = true.
Proof. intros H. inversion H; subst. eauto. Qed.

Lemma matches_eps_inv b w a : matches Eps b w a -> w = [].
Proof. intros H. now inversion H. Qed.

Lemma matches_eos_inv b w a :
  matches Eos b w a -> w = [] /\ (a = [] \/ a = [10%N]).
Proof. intros H. inversion H; subst; auto. Qed.

Lemma matches_star_inv g r b w a :
  matches (Star g r) b w a ->
  w = [] \/
  exists w1 w2, w = w1 ++ w2 /\ matches r b w1 (w2 ++ a)
                /\ matches (Star g r) (rev w1 ++ b) w2 a.
Proof.
  intros H. inversion H; subst; [now left | right].
  do 2 eexists. repeat split; eassumption.
Qed.

(** ** Patterns that do not look at the context *)

Lemma matches_context_free r b w a :
  matches r b w a -> context_free r = true ->
  forall b' a', matches r b' w a'.
Proof.
  induction 1; simpl; intros Hcf b' a'; try discriminate;
    try (apply andb_prop in Hcf; destruct Hcf as [Hc1 Hc2]).
  - constructor.
  - now constructor.
  - apply M_seq; auto.
  - apply M_alt_l; auto.
  - apply M_alt_r; auto.
  - constructor.
  - apply M_star_cons; auto.
  - apply M_group; auto.
Qed.

Lemma lang_matches r w b a :
  context_free r = true -> lang r w -> matches r b w a.
Proof. intros Hcf H. now apply (matches_context_free H). Qed.

Lemma matches_lang r w b a :
  context_free r = true -> matches r b w a -> lang r w.
Proof. intros Hcf H. now apply (matches_context_free H). Qed.

Lemma matches_star_app R b w1 a :
  matches R b w1 a ->
  forall g r w2, R = Star g r -> context_free r = true ->
    lang (Star g r) w2 ->
    forall b' a', matches (Star g r) b' (w1 ++ w2) a'.
Proof.
  induction 1; intros g' r' v ER Hcf Hv b' a'; inversion ER; subst.
  - simpl. now apply lang_matches.
  - rewrite <- app_assoc. apply M_star_cons.
    + now apply (matches_context_free H).
    + now apply IHmatches2.
Qed.

Lemma lang_star_app g r w1 w2 :
  context_free r = true ->
  lang (Star g r) w1 -> lang (Star g r) w2 -> lang (Star g r) (w1 ++ w2).
Proof.
  intros Hcf H1 H2. now apply (matches_star_app H1 eq_refl).
Qed.

Lemma lang_star_one g r w :
  context_free r = true -> lang r w -> lang (Star g r) w.
Proof.
  intros Hcf H. rewrite <- (app_nil_r w). apply M_star_cons.
  - now apply lang_matches.
  - constructor.
Qed.

Lemma lang_plus_inv r w :
  context_free r = true -> lang (Plus r) w -> lang (Star true r) w.
Proof.
  intros Hcf H. apply matches_seq_inv in H.
  destruct H as (w1 & w2 & -> & H1 & H2). now apply M_star_cons.
Qed.

Lemma lang_plus_intro r w1 w2 :
  context_free r = true ->
  lang r w1 -> lang (Star true r) w2 -> lang (Plus r) (w1 ++ w2).
Proof.
  intros Hcf H1 H2. apply M_seq; now apply lang_matches.
Qed.

(** The words of [r+] are closed under concatenation. *)
Lemma lang_plus_app r w1 w2 :
  context_free r = true ->
  lang (Plus r) w1 -> lang (Plus r) w2 -> lang (Plus r) (w1 ++ w2).
Proof.
  intros Hcf H1 H2. apply matches_seq_inv in H1.
  destruct H1 as (v1 & v2 & -> & Hv1 & Hv2). rewrite <- app_assoc.
  apply lang_plus_intro; [assumption | eapply matches_lang; eassumption |].
  apply lang_star_app; [assumption | |].
  - eapply matches_lang; [|eassumption]. exact Hcf.
  - now apply lang_plus_inv.
Qed.

Lemma lang_plus_one r w :
  context_free r = true -> lang r w -> lang (Plus r) w.
Proof.
  intros Hcf H. rewrite <- (app_nil_r w).
  apply lang_plus_intro; [assumption | assumption | constructor].
Qed.

(** ** Deleting a match anchored at the end *)

Lemma suffix_free_weaken (L L' : pystr -> Prop) t :
  (forall w, L' w -> L w) -> suffix_free L t -> suffix_free L' t.
Proof. intros Hsub H p1 p2 E Hne HL. exact (H p1 p2 E Hne (Hsub _ HL)). Qed.

Lemma no_final_newline_tail c s :
  no_final_newline (c :: s) -> no_final_newline s.
Proof. intros H s0 E. apply (H (c :: s0)). simpl. now rewrite E. Qed.

Lemma sub_scan_skip_all r s : forall n pre,
  length s <= n -> sub_scan r n pre s = [].
Proof.
  induction s as [|c s IH]; intros [|n] pre H; simpl in *;
    try reflexivity; try lia.
  apply IH. lia.
Qed.

Section TrailingSub.

(** The pattern [R$] for a context-free [R]. *)
Variable R : re.
Hypothesis R_context_free : context_free R = true.

Let P : re := Seq R Eos.

Lemma match_here_found pre s st :
  no_final_newline s -> match_here P pre s = Some st ->
  rest st = [] /\ lang R s.
Proof.
  intros Hnl H. unfold match_here in H. apply rmatch_sound in H.
  destruct H as (w & st' & [Hr Hb] & Hm & Hk).
  inversion Hk; subst st'. cbn [rest before] in *.
  apply matches_seq_inv in Hm. destruct Hm as (w1 & w2 & -> & H1 & H2).
  apply matches_eos_inv in H2. destruct H2 as [-> [Ha | Ha]].
  - split; [exact Ha|]. rewrite Hr, Ha, !app_nil_r.
    eapply matches_lang; [exact R_context_free | exact H1].
  - exfalso. apply (Hnl (w1 ++ [])). now rewrite Hr, Ha.
Qed.

Lemma match_here_missed pre s : match_here P pre s = None -> ~ lang R s.
Proof.
  intros H HL. unfold match_here in H. revert H.
  rewrite <- (app_nil_r s) at 1.
  apply rmatch_complete; [|discriminate].
  rewrite <- (app_nil_r s). apply M_seq.
  - now apply lang_matches.
  - constructor.
Qed.

(** The substitution cuts the text at the leftmost place from which
    the rest is a word of [R]. *)
Lemma sub_trailing_spec s : forall pre,
  no_final_newline s ->
  exists q, s = sub_scan P 0 pre s ++ q
            /\ (q = [] \/ lang R q)
            /\ forall p1 p2, sub_scan P 0 pre s = p1 ++ p2 -> p2 <> [] ->
                             ~ lang R (p2 ++ q).
Proof.
  induction s as [|c s IH]; intros pre Hnl.
  - exists []. simpl. split; [reflexivity|]. split; [now left|].
    intros p1 p2 E Hne. destruct p1, p2; simpl in E; congruence.
  - cbn [sub_scan]. destruct (match_here P pre (c :: s)) as [st|] eqn:Eh.
    + apply match_here_found in Eh as [Hrest HL]; [|exact Hnl].
      rewrite Hrest.
      cbn [length]. rewrite Nat.sub_0_r.
      rewrite sub_scan_skip_all by lia.
      exists (c :: s). split; [reflexivity|]. split; [now right|].
      intros p1 p2 E Hne. destruct p1, p2; simpl in E; congruence.
    + destruct (IH (c :: pre) (no_final_newline_tail Hnl))
        as (q & E & Hq & Hleft).
      exists q. split; [simpl; now f_equal|]. split; [exact Hq|].
      intros p1 p2 Ep Hne. destruct p1 as [|d p1]; simpl in Ep.
      * subst p2. simpl. rewrite <- E.
        eapply match_here_missed. exact Eh.
      * inversion Ep; subst d. now apply (Hleft p1 p2).
Qed.

(** A text without a suffix in [R] is left as it is. *)
Lemma sub_trailing_id t pre :
  no_final_newline t -> suffix_free (lang R) t -> sub_scan P 0 pre t = t.
Proof.
  intros Hnl Hfree.
  destruct (sub_trailing_spec pre Hnl) as (q & E & Hq & _).
  destruct q as [|c q].
  - now rewrite app_nil_r in E.
  - destruct Hq as [Hq | Hq]; [discriminate|].
    exfalso. now apply (Hfree _ _ E).
Qed.

(** When the words of [R] are closed under concatenation, what the
    substitution leaves has no suffix in [R]. *)
Hypothesis R_app : forall w1 w2, lang R w1 -> lang R w2 -> lang R (w1 ++ w2).

Lemma sub_trailing_suffix_free s pre :
  no_final_newline s -> suffix_free (lang R) (sub_scan P 0 pre s).
Proof.
  intros Hnl p1 p2 E Hne HL.
  destruct (sub_trailing_spec pre Hnl) as (q & _ & Hq & Hleft).
  apply (Hleft p1 p2 E Hne). destruct Hq as [-> | Hq].
  - now rewrite app_nil_r.
  - now apply R_app.
Qed.

End TrailingSub.

(** ** [strip] *)

Lemma lstrip_head s c s' : lstrip s = c :: s' -> is_space c = false.
Proof.
  induction s as [|d s IH]; simpl; [discriminate|].
  destruct (is_space d) eqn:Ed; [exact IH|].
  intros E. inversion E; subst. exact Ed.
Qed.

Lemma lstrip_suffix s : exists sp, s = sp ++ lstrip s.
Proof.
  induction s as [|d s [sp IH]]; simpl; [now exists []|].
  destruct (is_space d).
  - exists (d :: sp). simpl. now f_equal.
  - now exists [].
Qed.

Lemma lstrip_id s :
  (forall c s', s = c :: s' -> is_space c = false) -> lstrip s = s.
Proof.
  destruct s as [|c s]; [reflexivity|]. intros H. simpl.
  now rewrite (H c s eq_refl).
Qed.

Lemma rstrip_last s s0 c : rstrip s = s0 ++ [c] -> is_space c = false.
Proof.
  unfold rstrip. intros E. apply (f_equal (@rev char)) in E.
  rewrite rev_involutive, rev_app_distr in E. simpl in E.
  eapply lstrip_head. exact E.
Qed.

Lemma rstrip_prefix s : exists sp, s = rstrip s ++ sp.
Proof.
  unfold rstrip. destruct (lstrip_suffix (rev s)) as [sp E].
  exists (rev sp). apply (f_equal (@rev char)) in E.
  now rewrite rev_involutive, rev_app_distr in E.
Qed.

Lemma rstrip_id s :
  (forall s0 c, s = s0 ++ [c] -> is_space c = false) -> rstrip s = s.
Proof.
  intros H. unfold rstrip. rewrite lstrip_id; [apply rev_involutive|].
  intros c s' E. apply (H (rev s') c).
  apply (f_equal (@rev char)) in E. rewrite rev_involutive in E. exact E.
Qed.

Lemma strip_last s s0 c : strip s = s0 ++ [c] -> is_space c = false.
Proof. apply rstrip_last. Qed.

Lemma strip_head s c s' : strip s = c :: s' -> is_space c = false.
Proof.
  unfold strip. intros E. destruct (rstrip_prefix (lstrip s)) as [sp E'].
  rewrite E in E'. simpl in E'. eapply lstrip_head. exact E'.
Qed.

Lemma strip_id s :
  (forall c s', s = c :: s' -> is_space c = false) ->
  (forall s0 c, s = s0 ++ [c] -> is_space c = false) ->
  strip s = s.
Proof.
  intros Hh Hl. unfold strip. rewrite (lstrip_id Hh). now apply rstrip_id.
Qed.

Lemma strip_no_final_newline s : no_final_newline (strip s).
Proof. intros s0 E. apply strip_last in E. discriminate. Qed.

(** ** The trailing junk of a URL *)

Lemma junk_rounds_context_free : context_free junk_rounds = true.
Proof. reflexivity. Qed.

Lemma junk_round_context_free : context_free (Group 1 junk_round) = true.
Proof. reflexivity. Qed.

Lemma lang_opt_skip r : lang (Opt r) [].
Proof. apply M_alt_r. constructor. Qed.

Lemma lang_opt_take r w : lang r w -> lang (Opt r) w.
Proof. now apply M_alt_l. Qed.

Lemma lang_seq r1 r2 w1 w2 :
  context_free r1 = true -> context_free r2 = true ->
  lang r1 w1 -> lang r2 w2 -> lang (Seq r1 r2) (w1 ++ w2).
Proof. intros H1 H2 L1 L2. apply M_seq; now apply lang_matches. Qed.

Lemma lang_char (p : char -> bool) c : p c = true -> lang (Chr p) [c].
Proof. intros H. now constructor. Qed.

(** The five parts of one round, each possibly empty. *)
Lemma lang_junk_round w1 w2 w3 w4 w5 :
  lang (Opt (lit1 41%N)) w1 -> lang (Star true ws) w2 ->
  lang (Opt particle) w3 -> lang (Star true ws) w4 ->
  lang (Star true (Chr punct_char)) w5 ->
  lang junk_rounds (w1 ++ w2 ++ w3 ++ w4 ++ w5).
Proof.
  intros H1 H2 H3 H4 H5. apply lang_plus_one; [reflexivity|].
  apply M_group. unfold junk_round. cbn [seq_of].
  repeat (apply lang_seq; [reflexivity | reflexivity | assumption |]).
  assumption.
Qed.

Ltac empty_part := first [apply lang_opt_skip | apply M_star_nil].

Lemma lang_junk_paren : lang junk_rounds [41%N].
Proof.
  apply (@lang_junk_round [41%N] [] [] [] []); try empty_part.
  apply lang_opt_take. now apply lang_char.
Qed.

Lemma lang_junk_space c : is_space c = true -> lang junk_rounds [c].
Proof.
  intros H. apply (@lang_junk_round [] [c] [] [] []); try empty_part.
  apply lang_star_one; [reflexivity | now apply lang_char].
Qed.

Lemma lang_junk_punct c : punct_char c = true -> lang junk_rounds [c].
Proof.
  intros H. apply (@lang_junk_round [] [] [] [] [c]); try empty_part.
  apply lang_star_one; [reflexivity | now apply lang_char].
Qed.

Lemma lang_junk_particle w : lang particle w -> lang junk_rounds w.
Proof.
  intros H. rewrite <- (app_nil_r w).
  apply (@lang_junk_round [] [] w [] []); try empty_part.
  now apply lang_opt_take.
Qed.

Lemma lang_junk_char c : simple_junk_char c = true -> lang junk_rounds [c].
Proof.
  unfold simple_junk_char. intros H.
  apply orb_prop in H. destruct H as [H | H];
    [apply orb_prop in H; destruct H as [H | H]|].
  - apply N.eqb_eq in H. subst c. apply lang_junk_paren.
  - now apply lang_junk_space.
  - now apply lang_junk_punct.
Qed.

Lemma lang_junk_app w1 w2 :
  lang junk_rounds w1 -> lang junk_rounds w2 -> lang junk_rounds (w1 ++ w2).
Proof. apply lang_plus_app. reflexivity. Qed.

Lemma lang_star_chars R b w a :
  matches R b w a ->
  forall g p, R = Star g (Chr p) -> Forall (fun c => p c = true) w.
Proof.
  induction 1; intros g' p' ER; inversion ER; subst.
  - constructor.
  - apply matches_chr_inv in H. destruct H as (c & -> & Hc).
    simpl. constructor; [exact Hc|]. now apply (IHmatches2 g' p').
Qed.

Lemma lang_junk_chars w : forall c,
  simple_junk_char c = true ->
  Forall (fun d => simple_junk_char d = true) w ->
  lang junk_rounds (c :: w).
Proof.
  induction w as [|d w IH]; intros c Hc Hw.
  - now apply lang_junk_char.
  - inversion Hw; subst. change (c :: d :: w) with ([c] ++ d :: w).
    apply lang_junk_app; [now apply lang_junk_char | now apply IH].
Qed.

(** What [simple_trailing_junk_regex] deletes, the other pattern
    deletes too. *)
Lemma simple_junk_in_rounds w :
  lang (Plus (Chr simple_junk_char)) w -> lang junk_rounds w.
Proof.
  intros H. apply matches_seq_inv in H.
  destruct H as (w1 & w2 & -> & H1 & H2).
  apply matches_chr_inv in H1. destruct H1 as (c & -> & Hc).
  simpl. apply lang_junk_chars; [exact Hc|].
  exact (lang_star_chars H2 eq_refl).
Qed.

Lemma ends_with_newline_false s :
  ends_with_newline s = false -> no_final_newline s.
Proof.
  intros H s0 E. subst s. unfold ends_with_newline in H.
  rewrite rev_app_distr in H. simpl in H. discriminate.
Qed.

(** A word is in the language when the matcher accepts it whole. *)
Lemma lang_by_run r w :
  context_free r = true -> ends_with_newline w = false ->
  match_here (Seq r Eos) [] w <> None -> lang r w.
Proof.
  intros Hcf Hnl Hrun.
  destruct (match_here (Seq r Eos) [] w) as [st|] eqn:E; [|congruence].
  apply match_here_found in E; [apply E | exact Hcf |].
  now apply ends_with_newline_false.
Qed.

Lemma particles_lang tok : In tok particles -> lang junk_rounds tok.
Proof.
  intros H. apply lang_junk_particle.
  repeat (destruct H as [<- | H];
          [apply lang_by_run; [reflexivity | reflexivity | now vm_compute]|]).
  destruct H.
Qed.

(** ** [clean_url] *)

Lemma suffix_free_no_final_newline t :
  suffix_free (lang junk_rounds) t -> no_final_newline t.
Proof.
  intros H s0 E. apply (H s0 [10%N] E); [discriminate|].
  now apply lang_junk_space.
Qed.

Lemma simple_sub_id t :
  suffix_free (lang junk_rounds) t ->
  sub_empty simple_trailing_junk_regex t = t.
Proof.
  intros H. apply sub_trailing_id; [reflexivity | |].
  - now apply suffix_free_no_final_newline.
  - eapply suffix_free_weaken; [|exact H]. apply simple_junk_in_rounds.
Qed.

(** The two substitutions leave the text cut at the leftmost place
    from which only junk follows. *)
Lemma clean_url_cut link :
  clean_url link = sub_empty trailing_junk_regex (strip link)
  /\ suffix_free (lang junk_rounds) (clean_url link)
  /\ exists q, strip link = clean_url link ++ q.
Proof.
  assert (Hfree : suffix_free (lang junk_rounds)
                    (sub_empty trailing_junk_regex (strip link))).
  { apply sub_trailing_suffix_free;
      [reflexivity | apply lang_junk_app | apply strip_no_final_newline]. }
  assert (E : clean_url link = sub_empty trailing_junk_regex (strip link)).
  { unfold clean_url. now apply simple_sub_id. }
  rewrite E. split; [reflexivity|]. split; [exact Hfree|].
  destruct (@sub_trailing_spec junk_rounds eq_refl (strip link) []
              (strip_no_final_newline link)) as (q & Eq & _).
  exists q. exact Eq.
Qed.

Lemma clean_url_strip_id link : strip (clean_url link) = clean_url link.
Proof.
  destruct (clean_url_cut link) as (_ & Hfree & q & Eq).
  apply strip_id.
  - intros c s' E. rewrite E in Eq. simpl in Eq.
    eapply strip_head. exact Eq.
  - intros s0 c E. destruct (is_space c) eqn:Ec; [|reflexivity].
    exfalso. apply (Hfree s0 [c] E); [discriminate|].
    now apply lang_junk_space.
Qed.

(** Cleaning a cleaned URL changes nothing. *)
Lemma clean_url_idempotent link : clean_url (clean_url link) = clean_url link.
Proof.
  destruct (clean_url_cut link) as (_ & Hfree & _).
  unfold clean_url at 1. rewrite clean_url_strip_id.
  assert (E : sub_empty trailing_junk_regex (clean_url link) = clean_url link).
  { apply sub_trailing_id; [reflexivity | | exact Hfree].
    now apply suffix_free_no_final_newline. }
  rewrite E. now apply simple_sub_id.
Qed.

(** ** The links of a parse *)

Section CleanLinks.

Variable urlparse : pystr -> urlparse_result.

(** The link is one the loop keeps, and keeps unchanged. *)
Let kept (l : pystr) : Prop :=
  truthy l = true /\ clean_url l = l
  /\ exists scheme netloc, urlparse l = UrlParsed scheme netloc
                           /\ truthy scheme = true /\ truthy netloc = true.

Lemma clean_links_valid raw : forall acc L,
  clean_links urlparse raw acc = Returned L ->
  (forall l, In l acc -> exists scheme netloc,
      urlparse l = UrlParsed scheme netloc
      /\ truthy scheme = true /\ truthy netloc = true) ->
  forall l, In l L -> exists scheme netloc,
      urlparse l = UrlParsed scheme netloc
      /\ truthy scheme = true /\ truthy netloc = true.
Proof.
  induction raw as [|link raw IH]; intros acc L H Hacc; cbn [clean_links] in H.
  - inversion H; subst. exact Hacc.
  - destruct (negb (truthy link)); [now apply (IH acc)|].
    destruct (urlparse (clean_url link)) as [scheme netloc| |e] eqn:Eu;
      [|now apply (IH acc) | discriminate].
    destruct (truthy scheme && truthy netloc
              && negb (str_in (clean_url link) acc)) eqn:Ec;
      [|now apply (IH acc)].
    apply (IH _ _ H). intros l Hl. apply in_app_or in Hl.
    destruct Hl as [Hl | [<- | []]]; [now apply Hacc|].
    apply andb_prop in Ec. destruct Ec as [Ec _].
    apply andb_prop in Ec. destruct Ec as [Es En].
    exists scheme, netloc. auto.
Qed.

(** The empty string has no scheme and no host. *)
Hypothesis urlparse_empty : forall scheme netloc,
  urlparse [] = UrlParsed scheme netloc ->
  truthy scheme && truthy netloc = false.

Lemma clean_links_kept raw : forall acc L,
  clean_links urlparse raw acc = Returned L ->
  Forall kept acc -> NoDup acc -> Forall kept L /\ NoDup L.
Proof.
  induction raw as [|link raw IH]; intros acc L H Hacc Hnd;
    cbn [clean_links] in H.
  - inversion H; subst. now split.
  - destruct (negb (truthy link)); [now apply (IH acc)|].
    destruct (urlparse (clean_url link)) as [scheme netloc| |e] eqn:Eu;
      [|now apply (IH acc) | discriminate].
    destruct (truthy scheme && truthy netloc
              && negb (str_in (clean_url link) acc)) eqn:Ec;
      [|now apply (IH acc)].
    apply andb_prop in Ec. destruct Ec as [Ev Ein].
    apply (IH _ _ H).
    + apply Forall_app. split; [exact Hacc|]. constructor; [|constructor].
      split; [|split].
      * destruct (clean_url link) eqn:Ecl; [|reflexivity].
        rewrite (urlparse_empty Eu) in Ev. discriminate.
      * apply clean_url_idempotent.
      * apply andb_prop in Ev. destruct Ev as [Es En].
        exists scheme, netloc. auto.
    + apply NoDup_app; [exact Hnd | repeat constructor; simpl; tauto |].
      intros x Hx [<- | []].
      apply str_in_In in Hx. rewrite Hx in Ein. discriminate.
Qed.

Lemma clean_links_replay L : forall acc,
  Forall kept L -> NoDup (acc ++ L) ->
  clean_links urlparse L acc = Returned (acc ++ L).
Proof.
  induction L as [|l L IH]; intros acc HL Hnd; cbn [clean_links].
  - now rewrite app_nil_r.
  - inversion HL as [|? ? (Ht & Ec & scheme & netloc & Eu & Es & En) HL'];
      subst.
    rewrite Ht, Ec, Eu, Es, En. cbn [negb andb].
    assert (Hin : str_in l acc = false).
    { destruct (str_in l acc) eqn:E; [|reflexivity].
      apply str_in_In in E. apply NoDup_remove_2 in Hnd.
      exfalso. apply Hnd. apply in_or_app. now left. }
    rewrite Hin. cbn [negb].
    rewrite IH; [now rewrite <- app_assoc | exact HL' |].
    now rewrite <- app_assoc.
Qed.

(** Running the loop on its own result returns that result. *)
Lemma clean_links_idempotent raw L :
  clean_links urlparse raw [] = Returned L ->
  clean_links urlparse L [] = Returned L.
Proof.
  intros H. apply clean_links_kept in H; [|constructor | constructor].
  destruct H as [Hk Hnd]. now apply (@clean_links_replay L []).
Qed.

End CleanLinks.

Lemma parse_links urlparse observation :
  snd (parse_agent_observation urlparse observation) =
  match clean_links urlparse (found_links_raw observation) [] with
  | Returned links => links
  | Raised _ => []
  end.
Proof.
  unfold parse_agent_observation, parse_body.
  destruct (clean_links urlparse (found_links_raw observation) []);
    reflexivity.
Qed.

Lemma or_placeholder_nonempty content : or_placeholder content <> [].
Proof.
  unfold or_placeholder. destruct content; simpl; [|discriminate].
  now vm_compute.
Qed.

(** * The specification, statement by statement *)

(** ** The observation parser *)

(** C4.  For every observation, a string or not, the parser returns a
    pair of a non-empty content and a list of links: it is a total
    function whose only failures are caught.  When the body of its
    [try] block raises, the result is the observation stripped, paired
    with no link; when the body returns, the result is its content and
    links; in both cases an empty content is replaced by the fixed
    text [no_valid_content]. *)
Theorem parse_agent_observation_never_raises
    (urlparse : pystr -> urlparse_result) (observation : option pystr) :
  let r := parse_agent_observation_value urlparse observation in
  fst r <> []
  /\ (forall s e, observation = Some s -> parse_body urlparse s = Raised e ->
        r = (or_placeholder (strip s), [])
        /\ (strip s <> [] -> r = (strip s, [])))
  /\ (forall s content links, observation = Some s ->
        parse_body urlparse s = Returned (content, links) ->
        r = (if truthy content then content else no_valid_content, links)).
Proof.
  cbv zeta. split; [|split].
  - destruct observation as [s|]; simpl; [|now vm_compute].
    unfold parse_agent_observation.
    destruct (parse_body urlparse s) as [e|[c l]]; simpl;
      apply or_placeholder_nonempty.
  - intros s e -> H. simpl. unfold parse_agent_observation. rewrite H.
    split; [reflexivity|]. intros Hne. unfold or_placeholder.
    destruct (strip s); [congruence | reflexivity].
  - intros s c l -> H. simpl. unfold parse_agent_observation. now rewrite H.
Qed.

Lemma parse_agent_observation_never_raises_witness :
  parse_agent_observation_value failing_urlparse
    (Some (u "  참고: https://example.com/a  "))
  = (or_placeholder (strip (u "  참고: https://example.com/a  ")), [])
  /\ parse_agent_observation_value py_urlparse
       (Some (u "출처: https://example.com/a"))
     = (no_valid_content, [u "https://example.com/a"]).
Proof.
  assert (Hbody : parse_body failing_urlparse
                    (u "  참고: https://example.com/a  ")
                  = Raised (u "unexpected")) by (vm_compute; reflexivity).
  assert (Hbody' : parse_body py_urlparse (u "출처: https://example.com/a")
                   = Returned ([], [u "https://example.com/a"]))
    by (vm_compute; reflexivity).
  split.
  - destruct (parse_agent_observation_never_raises failing_urlparse
                (Some (u "  참고: https://example.com/a  ")))
      as (_ & Hraised & _).
    destruct (Hraised _ _ eq_refl Hbody) as [H _]. exact H.
  - destruct (parse_agent_observation_never_raises py_urlparse
                (Some (u "출처: https://example.com/a")))
      as (_ & _ & Hreturned).
    etransitivity; [exact (Hreturned _ _ _ eq_refl Hbody')|].
    vm_compute. reflexivity.
Defined.

(** C7.  Cleaning a candidate URL strips what trails it until nothing
    more can be stripped: the cleaned URL ends with no closing
    parenthesis, whitespace or punctuation and with none of the
    particles, and cleaning it again changes nothing; a link is kept
    only when [urlparse] finds a scheme and a host in it.  The text
    [https://example.com/page)에서], alone or inside a sentence, yields
    the link [https://example.com/page]. *)
Theorem url_cleaning_strips_trailing_junk (link : pystr) :
  let cleaned := clean_url link in
  (forall s0 c, cleaned = s0 ++ [c] -> simple_junk_char c = false)
  /\ (forall s0 tok, In tok particles -> cleaned <> s0 ++ tok)
  /\ clean_url cleaned = cleaned
  /\ (forall urlparse observation l,
        In l (snd (parse_agent_observation urlparse observation)) ->
        exists scheme netloc,
          urlparse l = UrlParsed scheme netloc
          /\ scheme <> [] /\ netloc <> [])
  /\ snd (parse_agent_observation py_urlparse
            (u "https://example.com/page)에서"))
     = [u "https://example.com/page"]
  /\ snd (parse_agent_observation py_urlparse
            (u "자세한 내용은 https://example.com/page)에서 확인하세요."))
     = [u "https://example.com/page"].
Proof.
  cbv zeta. destruct (clean_url_cut link) as (_ & Hfree & _).
  split; [|split; [|split; [|split; [|split]]]].
  - intros s0 c E. destruct (simple_junk_char c) eqn:Ec; [|reflexivity].
    exfalso. apply (Hfree s0 [c] E); [discriminate|].
    now apply lang_junk_char.
  - intros s0 tok Hin E. apply (Hfree s0 tok E).
    + intros ->. revert Hin. vm_compute. intuition discriminate.
    + now apply particles_lang.
  - apply clean_url_idempotent.
  - intros urlparse observation l Hin. rewrite parse_links in Hin.
    destruct (clean_links urlparse (found_links_raw observation) [])
      as [e|L] eqn:E; [destruct Hin|].
    assert (Hv : exists scheme netloc,
               urlparse l = UrlParsed scheme netloc
               /\ truthy scheme = true /\ truthy netloc = true).
    { eapply clean_links_valid; [exact E | | exact Hin].
      intros l0 []. }
    destruct Hv as (scheme & netloc & Eu & Hs & Hn).
    exists scheme, netloc. split; [exact Eu|].
    split; intros ->; discriminate.
  - now vm_compute.
  - now vm_compute.
Qed.

Lemma url_cleaning_strips_trailing_junk_witness :
  clean_url (u "https://example.com/page)에서")
    <> u "https://example.com/page)" ++ u "에서"
  /\ exists scheme netloc,
       py_urlparse (u "https://example.com/page")
         = UrlParsed scheme netloc /\ scheme <> [] /\ netloc <> [].
Proof.
  destruct (url_cleaning_strips_trailing_junk (u "https://example.com/page)에서"))
    as (_ & Hparticle & _ & Hvalid & _).
  split.
  - apply Hparticle. vm_compute. tauto.
  - apply (Hvalid py_urlparse (u "https://example.com/page)에서")).
    vm_compute. tauto.
Defined.

(** C8, as the code has it.  The cleaning of links is idempotent: for
    the list of links of any parse, running the cleaning loop (strip,
    the two substitutions, the check of scheme and host, the removal of
    duplicates) on that list returns the same list, element for
    element.  [urlparse] is any function that finds no scheme and host
    in the empty string. *)
Theorem cleaning_parsed_links_is_identity
    (urlparse : pystr -> urlparse_result) (observation : pystr) :
  (forall scheme netloc, urlparse [] = UrlParsed scheme netloc ->
     truthy scheme && truthy netloc = false) ->
  clean_links urlparse (snd (parse_agent_observation urlparse observation)) []
  = Returned (snd (parse_agent_observation urlparse observation)).
Proof.
  intros Hempty. rewrite parse_links.
  destruct (clean_links urlparse (found_links_raw observation) [])
    as [e|L] eqn:E; [reflexivity|].
  eapply clean_links_idempotent; eassumption.
Qed.

Lemma cleaning_parsed_links_is_identity_witness :
  clean_links py_urlparse
    (snd (parse_agent_observation py_urlparse
            (u "[문서](https://example.com/a b) 와 https://example.com/page)에서")))
    []
  = Returned
      (snd (parse_agent_observation py_urlparse
              (u "[문서](https://example.com/a b) 와 https://example.com/page)에서"))).
Proof.
  apply (cleaning_parsed_links_is_identity py_urlparse).
  intros scheme netloc H. vm_compute in H. inversion H. reflexivity.
Defined.

(** C8, as stated, fails: extracting again from the text of the links
    does not always give the links back.  The URL of a markdown link
    may hold a space, where the extraction of bare URLs stops. *)
Lemma reparsing_links_is_not_identity :
  snd (parse_agent_observation py_urlparse (u "[문서](https://example.com/a b)"))
    = [u "https://example.com/a b"]
  /\ reparse_links py_urlparse (u "[문서](https://example.com/a b)")
     = [u "https://example.com/a"]
  /\ ~ (forall observation,
          reparse_links py_urlparse observation
          = snd (parse_agent_observation py_urlparse observation)).
Proof.
  split; [now vm_compute|]. split; [now vm_compute|].
  intros H. specialize (H (u "[문서](https://example.com/a b)")).
  vm_compute in H. discriminate.
Qed.

(** ** Deleting the runs of a character class *)

Section ClassSub.

Variable p : char -> bool.

Lemma plus_class_found pre s st :
  match_here (Plus (Chr p)) pre s = Some st ->
  exists c w, s = c :: w ++ rest st /\ p c = true
              /\ Forall (fun d => p d = true) w.
Proof.
  intros H. unfold match_here in H. apply rmatch_sound in H.
  destruct H as (w & st' & [Hr _] & Hm & Hk). inversion Hk; subst st'.
  cbn [rest] in Hr. apply matches_seq_inv in Hm.
  destruct Hm as (w1 & w2 & -> & H1 & H2).
  apply matches_chr_inv in H1. destruct H1 as (c & -> & Hc).
  exists c, w2. split; [exact Hr|]. split; [exact Hc|].
  exact (lang_star_chars H2 eq_refl).
Qed.

Lemma plus_class_missed pre c s :
  match_here (Plus (Chr p)) pre (c :: s) = None -> p c = false.
Proof.
  intros H. destruct (p c) eqn:Hc; [|reflexivity]. exfalso. revert H.
  unfold match_here. change (c :: s) with ([c] ++ s).
  apply rmatch_complete; [|discriminate].
  change [c] with ([c] ++ []). apply M_seq; [now constructor | constructor].
Qed.

Lemma sub_scan_class s : forall n pre,
  n <= length s -> Forall (fun d => p d = true) (firstn n s) ->
  sub_scan (Plus (Chr p)) n pre s = filter (fun d => negb (p d)) s.
Proof.
  induction s as [|c s IH]; intros n pre Hn Hskip.
  - destruct n; [reflexivity | simpl in Hn; lia].
  - destruct n as [|n]; cbn [sub_scan].
    + destruct (match_here (Plus (Chr p)) pre (c :: s)) as [st|] eqn:E.
      * apply plus_class_found in E. destruct E as (c0 & w & Es & Hc & Hw).
        injection Es as Ec H1. subst c0.
        replace (length (c :: s) - length (rest st)) with (S (length w))
          by (rewrite H1; cbn [length]; rewrite length_app; lia).
        simpl. rewrite Hc. simpl. apply IH.
        -- rewrite H1, length_app. lia.
        -- rewrite H1, firstn_app, Nat.sub_diag, firstn_all. simpl.
           now rewrite app_nil_r.
      * apply plus_class_missed in E. simpl. rewrite E. simpl. f_equal.
        apply IH; [lia | constructor].
    + simpl in Hskip. inversion Hskip; subst. simpl. rewrite H1. simpl.
      apply IH; [simpl in Hn; lia | assumption].
Qed.

(** [re.sub] of the pattern [C+] by the empty string keeps the
    characters outside the class [C]. *)
Lemma sub_empty_class s :
  sub_empty (Plus (Chr p)) s = filter (fun d => negb (p d)) s.
Proof. apply sub_scan_class; [lia | constructor]. Qed.

End ClassSub.

Lemma sub_non_letters s :
  sub_empty non_letters_regex s = filter is_ascii_letter s.
Proof.
  unfold non_letters_regex. rewrite sub_empty_class.
  apply filter_ext. intros c. apply negb_involutive.
Qed.

(** ** The retrieval adapters *)

Section AdapterFacts.

Variable preprocess_html : pystr -> pystr -> outcome pystr.

Lemma failed_item_yields_none eng it :
  item_fails preprocess_html eng it ->
  _extract_and_process_item preprocess_html eng it = (None, None).
Proof.
  unfold item_fails, _extract_and_process_item.
  destruct (item_link it) as [link|]; [|reflexivity].
  intros [-> | [[e H] | [H | (html & H & Hmain)]]]; try reflexivity.
  - destruct link; [reflexivity|]. simpl. now rewrite H.
  - destruct link; [reflexivity|]. simpl. now rewrite H.
  - destruct link as [|c link]; [reflexivity|]. cbn [truthy negb].
    rewrite H. destruct (truthy html); [|reflexivity].
    destruct Hmain as [[e ->] | (main_text & -> & [[e ->] | ->])];
      reflexivity.
Qed.







End AdapterFacts.



(** C5, as stated, fails for the adapter of SerpAPI: there is a web
    search whose first item cannot be fetched and whose other item has
    content, for which the adapter returns the error message and no
    link instead of what the other item gives. *)
Lemma serpapi_first_fetch_failure_aborts_the_batch :
  ~ (forall preprocess_html (eng : serp_engine) j query l1 it l2,
       serp_search eng query = Returned (adapter_view j) ->
       handle_response eng (adapter_view j)
       = serpapi_handle_response (serp_base eng) j ->
       json_answer_box j = None -> json_knowledge_graph j = None ->
       organic_items (adapter_view j) = l1 ++ it :: l2 ->
       item_fails preprocess_html (serp_base eng) it ->
       run_serpapi_async preprocess_html (Some eng) true query
       = gather_and_format preprocess_html (serp_base eng) (l1 ++ l2)).
Proof.
  intros H.
  specialize (H sample_preprocess (serp_answering two_results_json)
                two_results_json sample_query []
                (Item (Some (u "A")) (Some link_a))
                [Item (Some (u "B")) (Some link_b)]
                eq_refl eq_refl eq_refl eq_refl).
  assert (Ho : organic_items (adapter_view two_results_json)
               = [] ++ Item (Some (u "A")) (Some link_a)
                    :: [Item (Some (u "B")) (Some link_b)])
    by (vm_compute; reflexivity).
  assert (Hitem : item_fails sample_preprocess
                    (serp_base (serp_answering two_results_json))
                    (Item (Some (u "A")) (Some link_a))).
  { right. left. exists (u "timeout"). vm_compute. reflexivity. }
  specialize (H Ho Hitem).
  apply (f_equal snd) in H. vm_compute in H. discriminate.
Qed.

(** ** The stages of a turn *)

(** C3.  After the engine-selection stage the engine name is one of
    [serpapi], [naver] and [ces], and the tool named to the agent is
    one of the three search tools.  The name is the raw output of the
    selector stripped, with every character that is no ASCII letter
    deleted, in lower case, when that is one of the three names; any
    other output, and a selection that raises, give [ces]. *)
Theorem engine_choice_is_one_of_three (E : env) (refined : pystr) (w : world) :
  let engine_name := fst (choose_stage E refined w) in
  In engine_name engine_names
  /\ In (tool_map_get engine_name) search_tools
  /\ (forall e, choose_chain E refined = Raised e -> engine_name = u "ces")
  /\ (forall v, choose_chain E refined = Returned v ->
        let normalized :=
          str_lower (filter is_ascii_letter (strip (get_or v (u "CES")))) in
        engine_name =
        if str_in normalized engine_names then normalized else u "ces").
Proof.
  cbv zeta.
  assert (Hces : In (u "ces") engine_names) by (vm_compute; tauto).
  assert (Hname : In (fst (choose_stage E refined w)) engine_names).
  { unfold choose_stage, bind, ainvoke, ret. cbn [fst].
    destruct (choose_chain E refined) as [e|v]; [exact Hces|].
    unfold normalize_engine.
    destruct (str_in _ engine_names) eqn:Ein; [|exact Hces].
    now apply str_in_In. }
  split; [exact Hname|]. split; [|split].
  - unfold tool_map_get.
    destruct (str_eqb _ (u "serpapi")); [vm_compute; tauto|].
    destruct (str_eqb _ (u "naver")); vm_compute; tauto.
  - intros e H. unfold choose_stage, bind, ainvoke, ret. cbn [fst].
    now rewrite H.
  - intros v H. unfold choose_stage, bind, ainvoke, ret. cbn [fst].
    rewrite H. unfold normalize_engine. now rewrite sub_non_letters.
Qed.

Lemma engine_choice_is_one_of_three_witness :
  fst (choose_stage failing_env sample_query (start [])) = u "ces"
  /\ fst (choose_stage search_env sample_query (start []))
     = (let normalized :=
          str_lower (filter is_ascii_letter
                       (strip (get_or (Some (u "SerpAPI")) (u "CES")))) in
        if str_in normalized engine_names then normalized else u "ces").
Proof.
  split.
  - destruct (engine_choice_is_one_of_three failing_env sample_query (start []))
      as (_ & _ & Hraised & _).
    exact (Hraised (u "timeout") eq_refl).
  - destruct (engine_choice_is_one_of_three search_env sample_query (start []))
      as (_ & _ & _ & Hreturned).
    exact (Hreturned (Some (u "SerpAPI")) eq_refl).
Defined.

(** ** The course of a turn *)

Section RunFacts.

Variable upper_ext : char -> pystr.
Variable urlparse : pystr -> urlparse_result.
Variable E : env.
Variable C : components.

Lemma decide_stage_world query w :
  snd (decide_stage upper_ext E query w)
  = World (chat_memory w) (history w ++ [Invoked Decide]).
Proof. reflexivity. Qed.

Lemma decide_stage_value query w :
  fst (decide_stage upper_ext E query w)
  = match decide_chain E query with
    | Returned v => str_upper upper_ext (strip (get_or v SEARCH))
    | Raised _ => SEARCH
    end.
Proof. reflexivity. Qed.

Lemma core_ready_search_ready : core_ready C = true -> search_ready C = true.
Proof.
  unfold core_ready, search_ready. intros H.
  repeat (apply andb_prop in H; destruct H as [H ?]).
  repeat (apply andb_true_intro; split); assumption.
Qed.

Lemma run_pipeline_search query w :
  core_ready C = true ->
  fst (decide_stage upper_ext E query w) <> NO_SEARCH ->
  run_pipeline upper_ext urlparse E C query w
  = search_path urlparse E C query
      (World (chat_memory w) (history w ++ [Invoked Decide])).
Proof.
  intros Hcore Hd. unfold run_pipeline. rewrite Hcore. cbn [negb].
  unfold bind at 1. rewrite (surjective_pairing (decide_stage _ _ _ _)).
  rewrite decide_stage_world, (str_eqb_neq Hd).
  now rewrite (core_ready_search_ready Hcore).
Qed.

Lemma run_pipeline_no_search query w :
  core_ready C = true ->
  fst (decide_stage upper_ext E query w) = NO_SEARCH ->
  run_pipeline upper_ext urlparse E C query w
  = answer_directly E query (u "답변 생성 불가") (u "간단 답변 생성 에러") 50
      (World (chat_memory w) (history w ++ [Invoked Decide])).
Proof.
  intros Hcore Hd. unfold run_pipeline. rewrite Hcore. cbn [negb].
  unfold bind at 1. rewrite (surjective_pairing (decide_stage _ _ _ _)).
  rewrite decide_stage_world, Hd. now rewrite str_eqb_refl.
Qed.

(** The values of the stages do not depend on the memory. *)
Lemma refine_stage_value query w w' :
  fst (refine_stage E query w) = fst (refine_stage E query w').
Proof. reflexivity. Qed.

Lemma choose_stage_value refined w w' :
  fst (choose_stage E refined w) = fst (choose_stage E refined w').
Proof. reflexivity. Qed.

Lemma summarize_stage_world extracted refined w :
  snd (summarize_stage E C extracted refined w) = w
  \/ snd (summarize_stage E C extracted refined w)
     = World (chat_memory w) (history w ++ [Invoked Summarize]).
Proof.
  unfold summarize_stage.
  destruct (truthy extracted
            && negb (contains_any summary_skip_markers extracted)
            && search_answer_ready C); [right | left]; reflexivity.
Qed.

Lemma fact_check_stage_world summary obs w :
  fact_check_ready C = true ->
  snd (fact_check_stage E C summary obs w)
  = World (chat_memory w) (history w ++ [Invoked FactCheck]).
Proof. intros H. unfold fact_check_stage. rewrite H. reflexivity. Qed.

Lemma append_messages_run ms w :
  append_messages ms w
  = (tt, World (chat_memory w ++ ms) (history w ++ map Appended ms)).
Proof.
  revert w. induction ms as [|m ms IH]; intros w.
  - cbn. rewrite !app_nil_r. now destruct w.
  - cbn [append_messages]. unfold bind at 1. unfold append_message at 1.
    rewrite IH. cbn [chat_memory history map].
    now rewrite <- !app_assoc.
Qed.

(** The agent stage: the call, then what the executor saves. *)
Lemma agent_stage_run refined engine_name w :
  agent_stage E refined engine_name w
  = (let agent_input := agent_input_of refined (tool_map_get engine_name) in
     let r := agent E agent_input in
     (read_agent_result r,
      World (chat_memory w ++ saved_by_agent agent_input r)
            (history w ++ [Invoked Agent]
               ++ map Appended (saved_by_agent agent_input r)))).
Proof.
  cbv zeta. unfold agent_stage, save_context, bind, ainvoke, ret.
  rewrite append_messages_run. cbn [chat_memory history].
  now rewrite <- !app_assoc.
Qed.

(** The search branch up to the fact check, stage by stage. *)
Lemma grounded_summary_unfolded query w :
  grounded_summary urlparse E C query w
  = (let w1 :=
       World (chat_memory w ++ saved_for E query ++ [Message Human query])
             (history w ++ [Invoked Refine; Invoked Choose; Invoked Agent]
                ++ map Appended (saved_for E query)
                ++ [Appended (Message Human query)]) in
     let s := summarize_stage E C (extracted_for urlparse E C query)
                (refined_for E query) w1 in
     let f := fact_check_stage E C (fst s)
                (agent_observation_for_factcheck (vars_for E query)) (snd s) in
     ((vars_for E query, fst f), snd f)).
Proof.
  cbv zeta. unfold grounded_summary.
  unfold bind at 1. unfold refine_stage at 1. unfold bind at 1.
  unfold ainvoke at 1. cbv beta iota. unfold ret at 1. cbv beta iota.
  unfold bind at 1. unfold choose_stage at 1. unfold bind at 1.
  unfold ainvoke at 1. cbv beta iota. unfold ret at 1. cbv beta iota.
  unfold bind at 1. rewrite agent_stage_run. cbv zeta beta iota.
  unfold bind at 1. unfold add_user_message, append_message.
  cbv beta iota. cbn [chat_memory history].
  unfold bind at 1.
  match goal with
  | |- context [summarize_stage E C ?x ?r ?w1] =>
      change x with (extracted_for urlparse E C query);
      change r with (refined_for E query)
  end.
  change (saved_by_agent _ _) with (saved_for E query).
  change (read_agent_result _) with (vars_for E query).
  rewrite <- !app_assoc. cbn [app].
  match goal with
  | |- context [summarize_stage E C ?x ?r ?w1] =>
      destruct (summarize_stage E C x r w1) as [summary w2]
  end.
  unfold bind, ret. cbn [fst snd].
  match goal with
  | |- context [fact_check_stage E C ?x ?o ?w2] =>
      destruct (fact_check_stage E C x o w2) as [checked w3]
  end.
  reflexivity.
Qed.

(** The variables of the agent stage are read from what the agent
    returns for the input of the turn. *)
Lemma grounded_summary_vars query w :
  fst (fst (grounded_summary urlparse E C query w))
  = read_agent_result (agent E (agent_input_for E query)).
Proof. now rewrite grounded_summary_unfolded. Qed.

End RunFacts.

Section TurnFacts.

Variable upper_ext : char -> pystr.
Variable urlparse : pystr -> urlparse_result.
Variable E : env.
Variable C : components.

Ltac run_stages :=
  cbv [grounded_summary search_path bind refine_stage choose_stage
       agent_stage add_user_message add_ai_message append_message ainvoke
       ret messages];
  cbn [chat_memory history fst snd].

Lemma grounded_summary_world query w :
  fact_check_ready C = true ->
  exists mid,
    (mid = [Invoked FactCheck] \/ mid = [Invoked Summarize; Invoked FactCheck])
    /\ snd (grounded_summary urlparse E C query w)
       = World (chat_memory w ++ saved_for E query ++ [Message Human query])
           (history w
              ++ [Invoked Refine; Invoked Choose; Invoked Agent]
              ++ map Appended (saved_for E query)
              ++ [Appended (Message Human query)] ++ mid).
Proof.
  intros Hfc. rewrite grounded_summary_unfolded. cbv zeta. cbn [snd].
  rewrite fact_check_stage_world by exact Hfc.
  match goal with
  | |- context [summarize_stage E C ?x ?r ?w1] =>
      destruct (summarize_stage_world E C x r w1) as [Hs|Hs]; rewrite Hs
  end; cbn [chat_memory history].
  - exists [Invoked FactCheck]. split; [now left|].
    f_equal. now rewrite <- !app_assoc.
  - exists [Invoked Summarize; Invoked FactCheck]. split; [now right|].
    f_equal. now rewrite <- !app_assoc.
Qed.

Lemma search_path_result query w :
  search_path urlparse E C query w
  = (let g := grounded_summary urlparse E C query w in
     let answer :=
       attach_sources (snd (fst g)) (original_source_links (fst (fst g))) in
     (answer,
      World (chat_memory (snd g) ++ [Message AI answer])
            (history (snd g) ++ [Appended (Message AI answer)]))).
Proof.
  unfold search_path, bind.
  destruct (grounded_summary urlparse E C query w) as [[vars checked] w'].
  reflexivity.
Qed.

(** The answer of the search branch is the checked summary with the
    links of the trace attached. *)
Lemma search_path_answer query w :
  fst (search_path urlparse E C query w)
  = attach_sources (snd (fst (grounded_summary urlparse E C query w)))
      (trace_links (agent E (agent_input_for E query))).
Proof.
  rewrite search_path_result. cbv zeta. cbn [fst].
  now rewrite grounded_summary_vars.
Qed.

Lemma attach_sources_nonempty body links :
  body <> [] -> attach_sources body links <> [].
Proof.
  intros H. unfold attach_sources.
  destruct (nonempty links); [|exact H].
  destruct (nonempty _); [|exact H].
  destruct body; [congruence | discriminate].
Qed.



Lemma truthy_nonempty s : truthy s = true -> s <> [].
Proof. destruct s; [discriminate | discriminate]. Qed.

Lemma extract_content_nonempty final : extract_content urlparse C final <> [].
Proof.
  unfold extract_content. destruct (truthy final) eqn:Ef; cbn [andb negb].
  - destruct (parser_ready C); [|now apply truthy_nonempty].
    destruct (parse_agent_observation urlparse final) as [parsed_body l].
    destruct (truthy parsed_body) eqn:Ep; now apply truthy_nonempty.
  - now vm_compute.
Qed.

Lemma summarize_stage_nonempty extracted refined w :
  extracted <> [] -> fst (summarize_stage E C extracted refined w) <> [].
Proof.
  intros H. unfold summarize_stage.
  match goal with
  | |- context [if ?c then _ else _] => destruct c
  end; [|exact H].
  cbv [bind ainvoke ret]. cbn [fst].
  destruct (search_answer_chain E extracted refined) as [e|v]; [exact H|].
  destruct (truthy _) eqn:Et; [now apply truthy_nonempty | exact H].
Qed.

Lemma fact_check_stage_nonempty summary obs w :
  summary <> [] -> fst (fact_check_stage E C summary obs w) <> [].
Proof.
  intros H. unfold fact_check_stage.
  destruct (fact_check_ready C); [|exact H].
  cbv [bind ainvoke ret messages]. cbn [fst].
  destruct (fact_check_chain E summary _) as [e|v]; [exact H|].
  destruct (truthy _) eqn:Et; cbn [andb]; [|exact H].
  destruct (negb _); [now apply truthy_nonempty | exact H].
Qed.

(** On the search branch the answer is never empty. *)
Lemma search_path_answer_nonempty query w :
  fst (search_path urlparse E C query w) <> [].
Proof.
  rewrite search_path_result. cbv zeta. cbn [fst].
  apply attach_sources_nonempty.
  rewrite grounded_summary_unfolded. cbv zeta. cbn [fst snd].
  apply fact_check_stage_nonempty, summarize_stage_nonempty,
    extract_content_nonempty.
Qed.

End TurnFacts.

(** ** A turn *)

(** C1, at the input where the code fails it.  The decision is
    [NO_SEARCH] and the chain of the direct answer returns a blank
    text: no call raises, and [run_pipeline] returns the empty string,
    which it also stores as the assistant's message. *)
Theorem blank_direct_answer_is_returned_empty :
  run_pipeline sample_upper py_urlparse blank_answer_env all_ready
    (u "ㅇ") (start [])
  = ([], World [Message Human (u "ㅇ"); Message AI []]
           [Invoked Decide; Appended (Message Human (u "ㅇ"));
            Invoked NoSearch; Appended (Message AI [])]).
Proof. vm_compute. reflexivity. Qed.

(** C2.  The output of the decision chain is stripped and put in upper
    case before it is compared; the turn answers directly when the
    result is [NO_SEARCH] and takes the search branch for any other
    value.  When the decision call raises the turn takes the search
    branch as well. *)
Theorem decision_is_normalized_and_defaults_to_search
    (upper_ext : char -> pystr) (urlparse : pystr -> urlparse_result)
    (E : env) (C : components) (query : pystr) (w : world) :
  core_ready C = true ->
  let w1 := World (chat_memory w) (history w ++ [Invoked Decide]) in
  (forall v, decide_chain E query = Returned v ->
     run_pipeline upper_ext urlparse E C query w
     = if str_eqb (str_upper upper_ext (strip (get_or v SEARCH))) NO_SEARCH
       then answer_directly E query (u "답변 생성 불가")
              (u "간단 답변 생성 에러") 50 w1
       else search_path urlparse E C query w1)
  /\ (forall e, decide_chain E query = Raised e ->
        run_pipeline upper_ext urlparse E C query w
        = search_path urlparse E C query w1).
Proof.
  intros Hcore. cbv zeta. split.
  - intros v Hv.
    destruct (str_eqb (str_upper upper_ext (strip (get_or v SEARCH))) NO_SEARCH)
      eqn:Ed.
    + apply run_pipeline_no_search; [exact Hcore|].
      rewrite decide_stage_value, Hv. now apply str_eqb_eq.
    + apply run_pipeline_search; [exact Hcore|].
      rewrite decide_stage_value, Hv. intros H. apply str_eqb_eq in H.
      congruence.
  - intros e He. apply run_pipeline_search; [exact Hcore|].
    rewrite decide_stage_value, He. now vm_compute.
Qed.

Lemma decision_is_normalized_and_defaults_to_search_witness :
  run_pipeline sample_upper py_urlparse failing_env all_ready sample_query
    (start [])
  = search_path py_urlparse failing_env all_ready sample_query
      (World (chat_memory (start []))
             (history (start []) ++ [Invoked Decide])).
Proof.
  destruct (@decision_is_normalized_and_defaults_to_search sample_upper
              py_urlparse failing_env all_ready sample_query (start [])
              eq_refl) as [_ Hraised].
  exact (Hraised (u "timeout") eq_refl).
Defined.

Lemma unique_links_first_seen (A B : pystr) :
  A <> [] -> B <> [] -> A <> B ->
  fromkeys (filter truthy [A; A; B; A]) = [A; B].
Proof.
  intros HA HB HAB.
  assert (TA : truthy A = true) by (destruct A; [congruence | reflexivity]).
  assert (TB : truthy B = true) by (destruct B; [congruence | reflexivity]).
  assert (EBA : str_eqb B A = false) by (apply str_eqb_neq; congruence).
  unfold fromkeys. cbn [filter]. rewrite TA, TB.
  unfold dedup_from, str_in, existsb.
  rewrite !str_eqb_refl, EBA. cbn [orb].
  now rewrite orb_true_r.
Qed.

(** C6.  For the links [A, A, B, A] with [A] and [B] distinct and not
    empty, the sources block lists [A] and then [B], each once: the
    formatted observation (of at least one text) ends with that block,
    and so does the final answer of a turn whose trace carries these
    links. *)
Theorem source_links_are_deduplicated_in_order (A B : pystr) :
  A <> [] -> B <> [] -> A <> B ->
  sources_block [A; B]
  = NL ++ NL ++ u "출처:" ++ NL ++ (u "- " ++ A) ++ NL ++ (u "- " ++ B)
  /\ (forall texts, texts <> [] ->
        format_search_results texts [A; A; B; A]
        = u "본문:" ++ NL ++ join (NL ++ NL) texts ++ sources_block [A; B])
  /\ (forall upper_ext urlparse E C query memory,
        core_ready C = true ->
        fst (decide_stage upper_ext E query (start memory)) <> NO_SEARCH ->
        trace_links (agent E (agent_input_for E query))
        = [Some A; Some A; Some B; Some A] ->
        exists body,
          fst (run_pipeline upper_ext urlparse E C query (start memory))
          = body ++ sources_block [A; B]).
Proof.
  intros HA HB HAB. pose proof (unique_links_first_seen HA HB HAB) as Hu.
  split; [reflexivity|]. split.
  - intros texts Ht. unfold format_search_results.
    destruct texts; [congruence|]. cbn [nonempty negb].
    unfold unique_links_of. rewrite Hu. reflexivity.
  - intros upper_ext urlparse E C query memory Hcore Hd Hl.
    rewrite (@run_pipeline_search upper_ext urlparse E C query _ Hcore Hd).
    rewrite search_path_answer, Hl.
    eexists. unfold attach_sources. cbn [nonempty].
    assert (TA : truthy A = true) by (destruct A; [congruence | reflexivity]).
    assert (TB : truthy B = true) by (destruct B; [congruence | reflexivity]).
    assert (Hf : filter truthy [A; A; B; A] = [A; A; B; A])
      by (cbn [filter]; now rewrite TA, TB).
    cbn [keep_truthy]. rewrite TA, TB, <- Hf, Hu. reflexivity.
Qed.

Lemma source_links_are_deduplicated_in_order_witness :
  format_search_results [u "문서 하나"] [link_a; link_a; link_b; link_a]
  = u "본문:" ++ NL ++ join (NL ++ NL) [u "문서 하나"]
      ++ sources_block [link_a; link_b]
  /\ exists body,
       fst (run_pipeline sample_upper py_urlparse search_env all_ready
              sample_query (start []))
       = body ++ sources_block [link_a; link_b].
Proof.
  assert (HA : link_a <> []) by (vm_compute; discriminate).
  assert (HB : link_b <> []) by (vm_compute; discriminate).
  assert (HAB : link_a <> link_b) by (vm_compute; discriminate).
  destruct (@source_links_are_deduplicated_in_order link_a link_b HA HB HAB)
    as (_ & Hformat & Hturn).
  split.
  - apply Hformat. discriminate.
  - apply (Hturn sample_upper py_urlparse search_env all_ready sample_query []).
    + reflexivity.
    + vm_compute. discriminate.
    + vm_compute. reflexivity.
Defined.

(** C9, as the code has it.  On the search branch the turn invokes
    the decision, the rewriting of the query, the selection of the
    engine and the agent, and only then appends the user's message to
    the memory.  The agent shares that memory: when its call returns,
    its own input and output are stored there first, as a user's and
    an assistant's message; when it raises, nothing is.  The summary
    (when the content is summarized) and the fact check follow the
    user's message, and the assistant's message with the final answer
    and its sources is appended last.  The agent thus runs before the
    user's message of the turn is in the memory. *)
Theorem user_message_is_appended_after_the_agent
    (upper_ext : char -> pystr) (urlparse : pystr -> urlparse_result)
    (E : env) (C : components) (query : pystr) (memory : list message) :
  core_ready C = true ->
  fst (decide_stage upper_ext E query (start memory)) <> NO_SEARCH ->
  let r := run_pipeline upper_ext urlparse E C query (start memory) in
  let agent_input := agent_input_for E query in
  let saved := saved_for E query in
  (exists mid,
     (mid = [Invoked FactCheck] \/ mid = [Invoked Summarize; Invoked FactCheck])
     /\ history (snd r)
        = [Invoked Decide; Invoked Refine; Invoked Choose; Invoked Agent]
          ++ map Appended saved
          ++ [Appended (Message Human query)]
          ++ mid ++ [Appended (Message AI (fst r))])
  /\ chat_memory (snd r)
     = memory ++ saved ++ [Message Human query; Message AI (fst r)]
  /\ (forall text steps,
        agent E agent_input = Returned (AgentResult (Some text) steps) ->
        saved = [Message Human agent_input; Message AI text])
  /\ (forall e, agent E agent_input = Raised e -> saved = [])
  /\ user_message_before_agent query (history (snd r)) = false.
Proof.
  intros Hcore Hd. cbv zeta.
  rewrite (@run_pipeline_search upper_ext urlparse E C query _ Hcore Hd).
  rewrite search_path_result. cbv zeta. cbn [fst snd history chat_memory].
  assert (Hfc : fact_check_ready C = true).
  { unfold core_ready in Hcore.
    repeat (apply andb_prop in Hcore; destruct Hcore as [Hcore ?]).
    assumption. }
  destruct (@grounded_summary_world urlparse E C query
              (World (chat_memory (start memory))
                     (history (start memory) ++ [Invoked Decide])) Hfc)
    as (mid & Hmid & Hw).
  rewrite Hw. cbn [history chat_memory start app].
  split; [|split; [|split; [|split]]].
  - exists mid. split; [exact Hmid|]. now rewrite <- !app_assoc.
  - now rewrite <- !app_assoc.
  - intros text steps Hr. unfold saved_for. cbv zeta. now rewrite Hr.
  - intros e Hr. unfold saved_for. cbv zeta. now rewrite Hr.
  - reflexivity.
Qed.

Lemma user_message_is_appended_after_the_agent_witness :
  user_message_before_agent sample_query
    (history (snd (run_pipeline sample_upper py_urlparse search_env
                     all_ready sample_query (start []))))
  = false.
Proof.
  assert (Hd : fst (decide_stage sample_upper search_env sample_query
                      (start [])) <> NO_SEARCH)
    by (vm_compute; discriminate).
  destruct (@user_message_is_appended_after_the_agent sample_upper
              py_urlparse search_env all_ready sample_query [] eq_refl Hd)
    as (_ & _ & _ & _ & H).
  exact H.
Defined.

(** C9, as stated, fails: there is a turn on the search branch in
    which the agent is invoked while the user's message is not yet in
    the memory. *)
Lemma agent_runs_before_the_user_message_is_stored :
  ~ (forall E query,
       fst (decide_stage sample_upper E query (start [])) <> NO_SEARCH ->
       user_message_before_agent query
         (history (snd (run_pipeline sample_upper py_urlparse E all_ready
                          query (start []))))
       = true).
Proof.
  intros H. specialize (H search_env sample_query).
  assert (Hd : fst (decide_stage sample_upper search_env sample_query
                      (start [])) <> NO_SEARCH)
    by (vm_compute; discriminate).
  specialize (H Hd). vm_compute in H. discriminate.
Qed.







(** C10, as stated, fails: there is a turn on the search branch in
    which no step of the trace gave a link and yet the final answer
    holds a sources block, the one the fact check wrote. *)
Lemma answer_without_trace_links_carries_a_sources_block :
  ~ (forall E query,
       fst (decide_stage sample_upper E query (start [])) <> NO_SEARCH ->
       keep_truthy (trace_links (agent E (agent_input_for E query))) = [] ->
       contains (u "출처:")
         (fst (run_pipeline sample_upper py_urlparse E all_ready query
                 (start [])))
       = false).
Proof.
  intros H. specialize (H cited_env sample_query).
  assert (Hd : fst (decide_stage sample_upper cited_env sample_query
                      (start [])) <> NO_SEARCH)
    by (vm_compute; discriminate).
  assert (Hl : keep_truthy
                 (trace_links
                    (agent cited_env (agent_input_for cited_env sample_query)))
               = [])
    by (vm_compute; reflexivity).
  specialize (H Hd Hl). vm_compute in H. discriminate.
Qed.

(** * Further properties of the code *)

(** ** Greedy runs of a class *)

Section ClassRun.

Variable p : char -> bool.

Lemma star_class_run s : forall fuel pre cs,
  length s < fuel ->
  star_loop true (rmatch (Chr p)) (fun st => Some st) fuel (MState pre s cs)
  = Some (MState (rev (take_while p s) ++ pre) (drop_while p s) cs).
Proof.
  induction s as [|c s IH]; intros fuel pre cs Hf;
    (destruct fuel as [|f]; [simpl in Hf; lia|]); cbn [star_loop rmatch rest].
  - reflexivity.
  - cbn [take_while drop_while]. destruct (p c) eqn:Hc.
    + cbn [rest before caps length].
      replace (length s <? S (length s)) with true
        by (symmetry; apply Nat.ltb_lt; lia).
      rewrite IH by (simpl in Hf; lia). cbn [orelse rev].
      now rewrite <- app_assoc.
    + reflexivity.
Qed.

(** The match of [C+] at the cursor is the whole run of the class. *)
Lemma plus_class_run pre c s :
  match_here (Plus (Chr p)) pre (c :: s)
  = if p c
    then Some (MState (rev (take_while p s) ++ c :: pre) (drop_while p s) [])
    else None.
Proof.
  unfold match_here, Plus. cbn [rmatch rest]. destruct (p c); [|reflexivity].
  cbn [before caps rest]. apply star_class_run. lia.
Qed.

Lemma take_drop_while s : s = take_while p s ++ drop_while p s.
Proof.
  induction s as [|c s IH]; [reflexivity|]. simpl.
  destruct (p c); [simpl; now f_equal | reflexivity].
Qed.

Lemma take_while_all s : Forall (fun d => p d = true) (take_while p s).
Proof.
  induction s as [|c s IH]; simpl; [constructor|].
  destruct (p c) eqn:Hc; [now constructor | constructor].
Qed.

Lemma take_drop_length s :
  length s = length (take_while p s) + length (drop_while p s).
Proof. rewrite (take_drop_while s) at 1. apply length_app. Qed.

Lemma firstn_take_while s :
  firstn (length (take_while p s)) s = take_while p s.
Proof.
  induction s as [|c s IH]; [reflexivity|]. simpl.
  destruct (p c); [simpl; now f_equal | reflexivity].
Qed.

Lemma skipn_take_while s :
  skipn (length (take_while p s)) s = drop_while p s.
Proof.
  induction s as [|c s IH]; [reflexivity|]. simpl.
  destruct (p c); [simpl; exact IH | reflexivity].
Qed.

Lemma drop_while_head s :
  match drop_while p s with
  | d :: _ => p d = false
  | [] => True
  end.
Proof.
  induction s as [|c s IH]; simpl; [exact I|].
  destruct (p c) eqn:Hc; [exact IH | exact Hc].
Qed.

Variable repl : pystr.

Lemma squeeze_in_run s :
  match s with d :: _ => p d = false | [] => True end ->
  squeeze p repl true s = squeeze p repl false s.
Proof. destruct s as [|d s]; [reflexivity|]. simpl. now intros ->. Qed.

Lemma squeeze_skip w s :
  Forall (fun d => p d = true) w ->
  squeeze p repl true (w ++ s) = squeeze p repl true s.
Proof.
  induction 1 as [|d w Hd Hw IH]; [reflexivity|]. simpl. now rewrite Hd.
Qed.

Lemma sub_scan_with_class s : forall pre,
  (forall n, n <= length s ->
     Forall (fun d => p d = true) (firstn n s) ->
     match skipn n s with d :: _ => p d = false | [] => True end ->
     sub_scan_with (Plus (Chr p)) repl n pre s = squeeze p repl true s)
  /\ sub_scan_with (Plus (Chr p)) repl 0 pre s = squeeze p repl false s.
Proof.
  induction s as [|c s IH]; intros pre.
  - split; [intros [|n] Hn _ _; [reflexivity | simpl in Hn; lia] | reflexivity].
  - assert (Hzero : sub_scan_with (Plus (Chr p)) repl 0 pre (c :: s)
                    = squeeze p repl false (c :: s)).
    { cbn [sub_scan_with]. rewrite plus_class_run. cbn [squeeze].
      destruct (p c) eqn:Hc.
      - cbn [rest].
        replace (length (c :: s) - length (drop_while p s))
          with (S (length (take_while p s)))
          by (cbn [length]; rewrite (take_drop_length s); lia).
        f_equal. destruct (IH (c :: pre)) as [Hrun _].
        rewrite Hrun.
        + reflexivity.
        + rewrite (take_drop_length s). lia.
        + rewrite firstn_take_while. apply take_while_all.
        + rewrite skipn_take_while. apply drop_while_head.
      - f_equal. apply IH. }
    split; [|exact Hzero].
    intros [|n] Hn Hall Hnext.
    + rewrite Hzero. symmetry. now apply squeeze_in_run.
    + cbn [sub_scan_with squeeze]. simpl in Hall. inversion Hall; subst.
      rewrite H1. apply IH; [simpl in Hn; lia | assumption | exact Hnext].
Qed.

(** [re.sub] of [C+] by a text replaces each run of the class by the
    text. *)
Lemma sub_with_class s :
  sub_with (Plus (Chr p)) repl s = squeeze p repl false s.
Proof. apply sub_scan_with_class. Qed.

End ClassRun.

(** ** Collapsing whitespace *)

Lemma space_text : u " " = [32%N].
Proof. vm_compute. reflexivity. Qed.

Lemma squeeze_spaces_head s :
  match squeeze is_space [32%N] true s with
  | d :: _ => is_space d = false
  | [] => True
  end.
Proof.
  induction s as [|c s IH]; simpl; [exact I|].
  destruct (is_space c) eqn:Hc; [exact IH | exact Hc].
Qed.

Lemma squeeze_single_spaced s : forall b,
  single_spaced (squeeze is_space [32%N] b s) = true.
Proof.
  induction s as [|c s IH]; intros b; [reflexivity|]. cbn [squeeze].
  destruct (is_space c) eqn:Hc.
  - destruct b; [apply IH|]. cbn [app single_spaced].
    rewrite (IH true).
    pose proof (squeeze_spaces_head s) as Hh.
    destruct (squeeze is_space [32%N] true s) as [|d t]; [reflexivity|].
    now rewrite Hh.
  - cbn [single_spaced]. now rewrite Hc, (IH false).
Qed.

Lemma single_spaced_prefix a : forall b,
  single_spaced (a ++ b) = true -> single_spaced a = true.
Proof.
  induction a as [|c a IH]; intros b H; [reflexivity|].
  cbn [app single_spaced] in *.
  apply andb_prop in H. destruct H as [Hc Ha].
  rewrite (IH b Ha), andb_true_r.
  destruct (is_space c); [|reflexivity].
  apply andb_prop in Hc. destruct Hc as [H32 Hnext]. rewrite H32.
  destruct a as [|d a]; [reflexivity | exact Hnext].
Qed.

Lemma single_spaced_suffix a : forall b,
  single_spaced (a ++ b) = true -> single_spaced b = true.
Proof.
  induction a as [|c a IH]; intros b H; [exact H|].
  cbn [app single_spaced] in H. apply andb_prop in H. now apply IH.
Qed.

Lemma single_spaced_strip s :
  single_spaced s = true -> single_spaced (strip s) = true.
Proof.
  intros H. unfold strip.
  destruct (rstrip_prefix (lstrip s)) as [sp E].
  destruct (lstrip_suffix s) as [sp' E'].
  rewrite E' in H. apply single_spaced_suffix in H.
  rewrite E in H. now apply single_spaced_prefix in H.
Qed.

Lemma squeeze_chars (p : char -> bool) repl s : forall b c,
  In c (squeeze p repl b s) -> In c repl \/ (In c s /\ p c = false).
Proof.
  induction s as [|d s IH]; intros b c H; [destruct H|].
  cbn [squeeze] in H. destruct (p d) eqn:Hd.
  - assert (Hin : In c (squeeze p repl true s) ->
                  In c repl \/ In c (d :: s) /\ p c = false).
    { intros H'. destruct (IH _ _ H') as [Hr | [Hs Hp]];
        [now left | right; split; [now right | exact Hp]]. }
    destruct b; [now apply Hin|].
    apply in_app_or in H. destruct H as [H | H]; [now left | now apply Hin].
  - destruct H as [<- | H]; [right; split; [now left | exact Hd]|].
    destruct (IH _ _ H) as [Hr | [Hs Hp]];
      [now left | right; split; [now right | exact Hp]].
Qed.

Lemma squeeze_keeps_others s : forall b,
  filter not_space (squeeze is_space [32%N] b s) = filter not_space s.
Proof.
  induction s as [|c s IH]; intros b; [reflexivity|].
  cbn [squeeze filter]. unfold not_space at 2.
  destruct (is_space c) eqn:Hc; cbn [negb].
  - destruct b; [apply IH|]. cbn [app filter]. apply IH.
  - cbn [filter]. unfold not_space at 1. rewrite Hc. cbn [negb].
    f_equal. apply IH.
Qed.

Lemma squeeze_length (p : char -> bool) x s : forall b,
  length (squeeze p [x] b s) <= length s.
Proof.
  induction s as [|c s IH]; intros b; [reflexivity|]. cbn [squeeze].
  destruct (p c); [destruct b|]; cbn [app length];
    [specialize (IH true) | specialize (IH true) | specialize (IH false)];
    lia.
Qed.

Lemma squeeze_normal s : forall b,
  single_spaced s = true ->
  (b = true -> match s with d :: _ => is_space d = false | [] => True end) ->
  squeeze is_space [32%N] b s = s.
Proof.
  induction s as [|c s IH]; intros b Hs Hb; [reflexivity|].
  cbn [squeeze]. cbn [single_spaced] in Hs.
  apply andb_prop in Hs. destruct Hs as [Hc Hs].
  destruct (is_space c) eqn:Ec.
  - destruct b; [specialize (Hb eq_refl); simpl in Hb; congruence|].
    apply andb_prop in Hc. destruct Hc as [H32 Hnext].
    apply N.eqb_eq in H32. subst c. cbn [app]. f_equal.
    apply IH; [exact Hs|]. intros _.
    destruct s as [|d s]; [exact I|]. now apply negb_true_iff in Hnext.
  - f_equal. apply IH; [exact Hs | discriminate].
Qed.

Lemma lstrip_keeps_others s : filter not_space (lstrip s) = filter not_space s.
Proof.
  induction s as [|c s IH]; [reflexivity|]. cbn [lstrip filter].
  unfold not_space at 2.
  destruct (is_space c) eqn:Hc; cbn [negb]; [exact IH|].
  cbn [filter]. unfold not_space at 1. now rewrite Hc.
Qed.

Lemma strip_keeps_others s : filter not_space (strip s) = filter not_space s.
Proof.
  unfold strip, rstrip.
  rewrite <- (rev_involutive (filter not_space (rev _))).
  rewrite <- filter_rev, rev_involutive, lstrip_keeps_others.
  rewrite filter_rev, rev_involutive. apply lstrip_keeps_others.
Qed.

Lemma lstrip_length s : length (lstrip s) <= length s.
Proof.
  induction s as [|c s IH]; [reflexivity|]. simpl.
  destruct (is_space c); simpl; lia.
Qed.

Lemma strip_length s : length (strip s) <= length s.
Proof.
  unfold strip, rstrip. rewrite length_rev.
  pose proof (lstrip_length (rev (lstrip s))) as H1.
  pose proof (lstrip_length s) as H2. rewrite length_rev in H1. lia.
Qed.

Lemma strip_chars s c : In c (strip s) -> In c s.
Proof.
  intros H. unfold strip in H.
  destruct (rstrip_prefix (lstrip s)) as [sp E].
  destruct (lstrip_suffix s) as [sp' E'].
  rewrite E'. apply in_or_app. right. rewrite E. apply in_or_app. now left.
Qed.

(** The text with its whitespace collapsed and stripped, as the three
    [_clean_text] and the two [preprocess_html] compute it. *)
Lemma collapse_spaces text :
  strip (sub_with spaces_regex (u " ") text)
  = strip (squeeze is_space [32%N] false text).
Proof. unfold spaces_regex, ws. now rewrite space_text, sub_with_class. Qed.

Lemma collapsed_normal text :
  let t := strip (squeeze is_space [32%N] false text) in
  single_spaced t = true
  /\ (forall c t', t = c :: t' -> is_space c = false)
  /\ (forall t0 c, t = t0 ++ [c] -> is_space c = false)
  /\ filter not_space t = filter not_space text
  /\ length t <= length text.
Proof.
  cbv zeta. split; [|split; [|split; [|split]]].
  - apply single_spaced_strip, squeeze_single_spaced.
  - intros c t'. apply strip_head.
  - intros t0 c. apply strip_last.
  - now rewrite strip_keeps_others, squeeze_keeps_others.
  - etransitivity; [apply strip_length | apply squeeze_length].
Qed.

Lemma collapsed_fixed t :
  single_spaced t = true ->
  (forall c t', t = c :: t' -> is_space c = false) ->
  (forall t0 c, t = t0 ++ [c] -> is_space c = false) ->
  strip (squeeze is_space [32%N] false t) = t.
Proof.
  intros Hs Hh Hl. rewrite squeeze_normal; [|exact Hs | discriminate].
  now apply strip_id.
Qed.

Lemma single_spaced_chars s c :
  single_spaced s = true -> In c s -> is_space c = true -> c = 32%N.
Proof.
  induction s as [|d s IH]; intros Hs Hin Hc; [destruct Hin|].
  cbn [single_spaced] in Hs. apply andb_prop in Hs. destruct Hs as [Hd Hs].
  destruct Hin as [-> | Hin]; [|now apply IH].
  rewrite Hc in Hd. apply andb_prop in Hd. now apply N.eqb_eq.
Qed.

Lemma replace_char_absent old new s :
  ~ In old s -> replace_char old new s = s.
Proof.
  induction s as [|c s IH]; intros H; [reflexivity|].
  unfold replace_char in *. cbn [flat_map].
  destruct (N.eqb_spec c old) as [-> | Hne]; [exfalso; apply H; now left|].
  cbn [app]. f_equal. apply IH. intros Hin. apply H. now right.
Qed.

Lemma replace_char_chars old new s c :
  In c (replace_char old new s) -> In c new \/ (In c s /\ c <> old).
Proof.
  induction s as [|d s IH]; intros H; [destruct H|].
  unfold replace_char in *. cbn [flat_map] in H.
  apply in_app_or in H. destruct H as [H | H].
  - destruct (N.eqb_spec d old) as [-> | Hne]; [now left|].
    destruct H as [<- | []]. right. split; [now left | exact Hne].
  - destruct (IH H) as [Hn | [Hs Hne]];
      [now left | right; split; [now right | exact Hne]].
Qed.

(** X1.  [_clean_text] of the CES and SerpAPI engines returns the text
    in a normal form: its only whitespace characters are single
    spaces between other characters, none leads or trails; the other
    characters are those of the input, in their order; the result is
    not longer than the input, and cleaning it again changes
    nothing. *)
Theorem clean_text_normal_form (text : pystr) :
  let t := _clean_text text in
  single_spaced t = true
  /\ (forall c t', t = c :: t' -> is_space c = false)
  /\ (forall t0 c, t = t0 ++ [c] -> is_space c = false)
  /\ filter not_space t = filter not_space text
  /\ length t <= length text
  /\ _clean_text t = t.
Proof.
  cbv zeta. unfold _clean_text. rewrite !collapse_spaces.
  destruct (collapsed_normal text) as (H1 & H2 & H3 & H4 & H5).
  repeat (split; [assumption|]).
  now apply collapsed_fixed.
Qed.


(** X2.  [_clean_text] of the Naver engine returns the same normal
    form, and its result holds no zero-width joiner, no byte order
    mark and no no-break space; cleaning it again changes nothing. *)
Theorem naver_clean_text_normal_form (text : pystr) :
  let t := naver_clean_text text in
  single_spaced t = true
  /\ (forall c t', t = c :: t' -> is_space c = false)
  /\ (forall t0 c, t = t0 ++ [c] -> is_space c = false)
  /\ ~ In 8205%N t /\ ~ In 65279%N t /\ ~ In 160%N t
  /\ naver_clean_text t = t.
Proof.
  cbv zeta. unfold naver_clean_text. rewrite !collapse_spaces.
  set (text' := replace_char 65279%N [] (replace_char 160%N (u " ")
                                            (replace_char 8205%N [] text))).
  destruct (collapsed_normal text') as (H1 & H2 & H3 & H4 & _).
  set (t := strip (squeeze is_space [32%N] false text')) in *.
  assert (Hchars : forall c, In c t -> c = 32%N \/ (In c text' /\ is_space c = false)).
  { intros c Hc. apply strip_chars, squeeze_chars in Hc.
    destruct Hc as [[<- | []] | Hc]; [now left | now right]. }
  assert (Hzwj : ~ In 8205%N t).
  { intros H. destruct (Hchars _ H) as [E | [Hin _]]; [discriminate|].
    apply replace_char_chars in Hin. destruct Hin as [[] | [Hin _]].
    apply replace_char_chars in Hin. rewrite space_text in Hin.
    destruct Hin as [[E | []] | [Hin _]]; [discriminate|].
    apply replace_char_chars in Hin. destruct Hin as [[] | [_ Hne]].
    now apply Hne. }
  assert (Hbom : ~ In 65279%N t).
  { intros H. destruct (Hchars _ H) as [E | [Hin _]]; [discriminate|].
    apply replace_char_chars in Hin. destruct Hin as [[] | [_ Hne]].
    now apply Hne. }
  assert (Hnbsp : ~ In 160%N t).
  { intros H. destruct (Hchars _ H) as [E | [_ Hs]]; discriminate. }
  repeat (split; [assumption|]).
  rewrite (@replace_char_absent _ [] _ Hzwj),
    (@replace_char_absent _ (u " ") _ Hnbsp),
    (@replace_char_absent _ [] _ Hbom).
  now apply collapsed_fixed.
Qed.


(** ** [preprocess_html] *)

Lemma sub_scan_char (q : char -> bool) s : forall pre,
  sub_scan (Chr q) 0 pre s = filter (fun c => negb (q c)) s.
Proof.
  induction s as [|c s IH]; intros pre; [reflexivity|].
  cbn [sub_scan filter]. unfold match_here. cbn [rmatch rest].
  destruct (q c); cbn [negb rest].
  - replace (length (c :: s) - length s) with 1 by (cbn [length]; lia).
    apply IH.
  - f_equal. apply IH.
Qed.

Lemma firstn_prefix {A} n (l : list A) : exists rest, l = firstn n l ++ rest.
Proof. exists (skipn n l). symmetry. apply firstn_skipn. Qed.

Lemma firstn_chars {A} n (l : list A) x : In x (firstn n l) -> In x l.
Proof.
  intros H. destruct (firstn_prefix n l) as [r E]. rewrite E.
  apply in_or_app. now left.
Qed.

(** What both [preprocess_html] do last: collapse, strip, clip. *)
Lemma clipped_normal text :
  let t := firstn 2000 (strip (squeeze is_space [32%N] false text)) in
  length t <= 2000
  /\ single_spaced t = true
  /\ (forall c t', t = c :: t' -> is_space c = false)
  /\ (length t < 2000 -> forall t0 c, t = t0 ++ [c] -> is_space c = false)
  /\ (forall c, In c t -> c = 32%N \/ (In c text /\ is_space c = false)).
Proof.
  cbv zeta. destruct (collapsed_normal text) as (H1 & H2 & H3 & _).
  set (full := strip (squeeze is_space [32%N] false text)) in *.
  split; [apply firstn_le_length|]. split; [|split; [|split]].
  - destruct (firstn_prefix 2000 full) as [r E]. rewrite E in H1.
    now apply single_spaced_prefix in H1.
  - intros c t' E. destruct full as [|d full']; [discriminate|].
    cbn [firstn] in E. inversion E; subst. now apply (H2 c full').
  - intros Hlen t0 c E. apply (H3 t0 c). rewrite <- E.
    symmetry. apply firstn_all2. rewrite length_firstn in Hlen. lia.
  - intros c Hc. apply firstn_chars, strip_chars, squeeze_chars in Hc.
    destruct Hc as [[<- | []] | Hc]; [now left | now right].
Qed.

(** [preprocess_html] collapses, strips and clips a text made of
    characters that its second substitution keeps. *)
Lemma preprocess_html_cleaned (is_word : char -> bool) (text url : pystr) :
  exists cleaned,
    preprocess_html is_word text url
    = firstn 2000 (strip (squeeze is_space [32%N] false cleaned))
    /\ forall c, In c cleaned -> kept_char is_word c = true.
Proof.
  unfold preprocess_html. rewrite collapse_spaces.
  match goal with
  | |- context [sub_empty (special_char_regex is_word) ?x] =>
      exists (sub_empty (special_char_regex is_word) x)
  end.
  split; [reflexivity|]. intros c Hin.
  unfold special_char_regex, sub_empty in Hin.
  rewrite sub_scan_char in Hin. apply filter_In in Hin.
  destruct Hin as [_ Hk]. now apply negb_true_iff, negb_false_iff in Hk.
Qed.

(** X3.  [preprocess_html] returns at most 2000 characters, each a
    single space or a character the second substitution keeps (a word
    character, a Hangul syllable, a full stop, a comma, a question or
    an exclamation mark); no whitespace leads, none follows another,
    and none trails unless the text was clipped. *)
Theorem preprocess_html_output (is_word : char -> bool) (text url : pystr) :
  let t := preprocess_html is_word text url in
  length t <= 2000
  /\ (forall c, In c t ->
        c = 32%N \/ (kept_char is_word c = true /\ is_space c = false))
  /\ single_spaced t = true
  /\ (forall c t', t = c :: t' -> is_space c = false)
  /\ (length t < 2000 -> forall t0 c, t = t0 ++ [c] -> is_space c = false).
Proof.
  cbv zeta.
  destruct (preprocess_html_cleaned is_word text url) as (cleaned & -> & Hk).
  destruct (clipped_normal cleaned) as (H1 & H2 & H3 & H4 & H5).
  split; [exact H1|]. split; [|now repeat split].
  intros c Hc. destruct (H5 c Hc) as [-> | [Hin Hs]]; [now left|].
  right. split; [now apply Hk | exact Hs].
Qed.

(** X4.  The [preprocess_html] that [utils/helpers.py] defines when
    the import of the other fails returns at most 2000 characters, its
    only whitespace single spaces, none leading, and none trailing
    unless the text was clipped. *)
Theorem fallback_preprocess_html_output (text : pystr) :
  let t := fallback_preprocess_html text in
  length t <= 2000
  /\ single_spaced t = true
  /\ (forall c t', t = c :: t' -> is_space c = false)
  /\ (length t < 2000 -> forall t0 c, t = t0 ++ [c] -> is_space c = false).
Proof.
  cbv zeta. unfold fallback_preprocess_html. rewrite collapse_spaces.
  destruct (clipped_normal (sub_with tag_regex (u " ") text))
    as (H1 & H2 & H3 & H4 & _).
  now repeat split.
Qed.


(** ** The answers of SerpAPI *)

Lemma direct_text_unmarked (c : char) (x : pystr) :
  c <> 50937%N -> c <> 44160%N ->
  starts_with (u "웹 검색") (c :: x) = false
  /\ str_eqb (c :: x) no_result = false.
Proof.
  intros H1 H2. split.
  - assert (E : u "웹 검색" = 50937%N :: skipn 1 (u "웹 검색"))
      by (vm_compute; reflexivity).
    rewrite E. cbn [starts_with].
    destruct (N.eqb_spec 50937 c) as [<- | _]; [congruence | reflexivity].
  - apply str_eqb_neq. intros E.
    assert (En : no_result = 44160%N :: skipn 1 no_result)
      by (vm_compute; reflexivity).
    rewrite En in E. congruence.
Qed.

Lemma head_of_app (p x : pystr) (c : char) :
  hd_error p = Some c -> p ++ x = c :: skipn 1 (p ++ x).
Proof. destruct p; [discriminate|]. cbn. now intros [= ->]. Qed.

Lemma handled_direct eng j :
  is_some (json_answer_box j) || is_some (json_knowledge_graph j) = true ->
  exists c x, serpapi_handle_response eng j = Returned (c :: x)
              /\ c <> 50937%N /\ c <> 44160%N.
Proof.
  assert (Ew : hd_error (u "날씨 정보") = Some 45216%N)
    by (vm_compute; reflexivity).
  assert (Ef : hd_error (u "주가 정보 (SerpAPI - answer_box)") = Some 51452%N)
    by (vm_compute; reflexivity).
  assert (Es : hd_error (u "간단 정보") = Some 44036%N)
    by (vm_compute; reflexivity).
  assert (Ek : hd_error (u "지식 카드") = Some 51648%N)
    by (vm_compute; reflexivity).
  intros H. unfold serpapi_handle_response.
  destruct (json_answer_box j) as [box|].
  - destruct (is_option_text (box_type box) (u "weather_result"));
      [|destruct (is_option_text (box_type box) (u "finance_results")
                  && is_some (box_price box))].
    + unfold weather_text. rewrite (@head_of_app _ _ _ Ew).
      eexists _, _. split; [reflexivity | split; discriminate].
    + unfold finance_text. rewrite (@head_of_app _ _ _ Ef).
      eexists _, _. split; [reflexivity | split; discriminate].
    + rewrite (@head_of_app _ _ _ Es).
      eexists _, _. split; [reflexivity | split; discriminate].
  - destruct (json_knowledge_graph j) as [kg|]; [|discriminate].
    rewrite (@head_of_app _ _ _ Ek).
    eexists _, _. split; [reflexivity | split; discriminate].
Qed.

(** X5.  The text [handle_response] of the SerpAPI engine returns tells
    the branch it took: it starts with the words of a web search
    exactly when the response has neither answer box nor knowledge
    graph and has an organic result, and it is the text of no result
    exactly when the response has none of the three. *)
Theorem handle_response_marks_its_branch
    (eng : engine) (j : serp_json) (text : pystr) :
  serpapi_handle_response eng j = Returned text ->
  (starts_with (u "웹 검색") text = true
   <-> json_answer_box j = None /\ json_knowledge_graph j = None
       /\ exists first more, json_organic_results j = Some (first :: more))
  /\ (str_eqb text no_result = true
      <-> json_answer_box j = None /\ json_knowledge_graph j = None
          /\ (json_organic_results j = None
              \/ json_organic_results j = Some [])).
Proof.
  intros H.
  destruct (is_some (json_answer_box j) || is_some (json_knowledge_graph j))
    eqn:Ed.
  - destruct (handled_direct eng j Ed) as (c & x & Hr & Hc1 & Hc2).
    rewrite Hr in H. injection H as <-.
    destruct (direct_text_unmarked x Hc1 Hc2) as [-> ->].
    apply orb_true_iff in Ed.
    split; (split; [discriminate|]); intros (Ha & Hk & _);
      rewrite Ha, Hk in Ed; now destruct Ed.
  - apply orb_false_iff in Ed. destruct Ed as [Ea Ek].
    destruct (json_answer_box j) as [box|] eqn:Ha; [discriminate|].
    destruct (json_knowledge_graph j) as [kg|] eqn:Hk; [discriminate|].
    unfold serpapi_handle_response in H. rewrite Ha, Hk in H.
    destruct (json_organic_results j) as [[|first more]|] eqn:Ho.
    + injection H as <-. split.
      * split; [now vm_compute|]. now intros (_ & _ & f & m & ?).
      * split; [auto|]. intros _. apply str_eqb_refl.
    + cbv zeta in H.
      destruct (extract_text eng (get_or (item_link first) [])) as [e|html];
        [discriminate|].
      destruct (extract_main_text_from_html eng html) as [e|main];
        [discriminate|].
      injection H as <-. split.
      * split; [intros _; repeat split; eauto|]. intros _.
        vm_compute. reflexivity.
      * split; [|now intros (_ & _ & [? | ?])].
        intros E. apply str_eqb_eq in E.
        assert (En : no_result = 44160%N :: skipn 1 no_result)
          by (vm_compute; reflexivity).
        rewrite En in E. discriminate E.
    + injection H as <-. split.
      * split; [now vm_compute|]. now intros (_ & _ & f & m & ?).
      * split; [auto|]. intros _. apply str_eqb_refl.
Qed.

Lemma handle_response_marks_its_branch_witness :
  exists text,
    serpapi_handle_response sample_engine organic_json = Returned text
    /\ (starts_with (u "웹 검색") text = true
        <-> json_answer_box organic_json = None
            /\ json_knowledge_graph organic_json = None
            /\ exists first more,
                 json_organic_results organic_json = Some (first :: more)).
Proof.
  eexists. split; [vm_compute; reflexivity|].
  refine (proj1 (@handle_response_marks_its_branch sample_engine organic_json
                   _ _)).
  vm_compute. reflexivity.
Defined.

(** X6.  For the engine of SerpAPI, whose [handle_response] is the one
    above: when the response has an answer box or a knowledge graph
    the adapter returns the text of [handle_response] as it is, with
    no link; when it has none of the three it returns the text of no
    result; on a web search the text [handle_response] built from the
    first page is dropped and the observation is formatted from the
    organic results that have a link. *)
Theorem serpapi_adapter_follows_the_response
    (preprocess_html : pystr -> pystr -> outcome pystr)
    (eng : serp_engine) (j : serp_json) (query : pystr) :
  serp_search eng query = Returned (adapter_view j) ->
  handle_response eng (adapter_view j)
  = serpapi_handle_response (serp_base eng) j ->
  let result := run_serpapi_async preprocess_html (Some eng) true query in
  (is_some (json_answer_box j) || is_some (json_knowledge_graph j) = true ->
     exists text,
       serpapi_handle_response (serp_base eng) j = Returned text
       /\ result = (text, []))
  /\ (json_answer_box j = None -> json_knowledge_graph j = None ->
      json_organic_results j = None \/ json_organic_results j = Some [] ->
      result = (no_result, []))
  /\ (forall text,
        serpapi_handle_response (serp_base eng) j = Returned text ->
        starts_with (u "웹 검색") text = true ->
        result
        = if nonempty (organic_items (adapter_view j))
          then gather_and_format preprocess_html (serp_base eng)
                 (organic_items (adapter_view j))
          else (no_result, [])).
Proof.
  intros Hs Hh. cbv zeta.
  unfold run_serpapi_async, serpapi_body. cbn [negb].
  rewrite Hs, Hh. split; [|split].
  - intros Hd. destruct (handled_direct (serp_base eng) j Hd)
      as (c & x & Hr & Hc1 & Hc2).
    exists (c :: x). split; [exact Hr|]. rewrite Hr.
    destruct (direct_text_unmarked x Hc1 Hc2) as [-> ->]. reflexivity.
  - intros Ha Hk Ho.
    assert (Hr : serpapi_handle_response (serp_base eng) j = Returned no_result).
    { unfold serpapi_handle_response. rewrite Ha, Hk.
      now destruct Ho as [-> | ->]. }
    rewrite Hr.
    rewrite str_eqb_refl.
    now destruct (starts_with (u "웹 검색") no_result).
  - intros text Hr Hw. rewrite Hr, Hw. cbn [negb andb].
    destruct (str_eqb text no_result) eqn:En.
    + apply str_eqb_eq in En. subst text.
      assert (F : starts_with (u "웹 검색") no_result = false)
        by (vm_compute; reflexivity).
      congruence.
    + now destruct (organic_items (adapter_view j)).
Qed.

Lemma serpapi_adapter_follows_the_response_witness :
  exists text,
    serpapi_handle_response (serp_base (serp_answering weather_json))
      weather_json = Returned text
    /\ run_serpapi_async sample_preprocess (Some (serp_answering weather_json))
         true sample_query = (text, []).
Proof.
  assert (Hs : serp_search (serp_answering weather_json) sample_query
               = Returned (adapter_view weather_json)) by reflexivity.
  assert (Hh : handle_response (serp_answering weather_json)
                 (adapter_view weather_json)
               = serpapi_handle_response
                   (serp_base (serp_answering weather_json)) weather_json)
    by reflexivity.
  assert (Hd : is_some (json_answer_box weather_json)
               || is_some (json_knowledge_graph weather_json) = true)
    by reflexivity.
  destruct (@serpapi_adapter_follows_the_response sample_preprocess
              (serp_answering weather_json) weather_json sample_query Hs Hh)
    as (H & _).
  exact (H Hd).
Defined.

(** ** The service of a Naver search *)

Lemma first_service_found services text :
  first_service services text = fallback_service
  \/ exists before svc keywords kw after,
       services = before ++ (svc, keywords) :: after
       /\ first_service services text = svc
       /\ In kw keywords /\ contains kw text = true
       /\ forall s kws k, In (s, kws) before -> In k kws ->
                          contains k text = false.
Proof.
  induction services as [|[svc keywords] more IH]; [now left|].
  cbn [first_service].
  destruct (existsb (fun kw => contains kw text) keywords) eqn:Ex.
  - right. apply existsb_exists in Ex. destruct Ex as (kw & Hin & Hc).
    exists [], svc, keywords, kw, more. repeat split; auto.
    now intros s kws k [].
  - destruct IH as [IH | (before & s & kws & kw & after & -> & E & Hin & Hc & Hb)];
      [now left|].
    right. exists ((svc, keywords) :: before), s, kws, kw, after.
    repeat split; auto.
    intros s' kws' k [[= <- <-] | Hin'] Hk; [|now apply (Hb s' kws')].
    destruct (contains k text) eqn:Ek; [|reflexivity].
    rewrite <- Ex. symmetry. apply existsb_exists. now exists k.
Qed.

Lemma first_service_first before svc keywords after kw text :
  In kw keywords -> contains kw text = true ->
  (forall s kws k, In (s, kws) before -> In k kws -> contains k text = false) ->
  first_service (before ++ (svc, keywords) :: after) text = svc.
Proof.
  intros Hin Hc. induction before as [|[s kws] before IH]; intros Hb;
    cbn [app first_service].
  - assert (Ex : existsb (fun k => contains k text) keywords = true)
      by (apply existsb_exists; now exists kw).
    now rewrite Ex.
  - destruct (existsb (fun k => contains k text) kws) eqn:Ex.
    + apply existsb_exists in Ex. destruct Ex as (k & Hk & Hck).
      rewrite (Hb s kws k (or_introl eq_refl) Hk) in Hck. discriminate.
    + apply IH. intros s' kws' k Hs Hk. apply (Hb s' kws' k); [now right | exact Hk].
Qed.

(** X7.  [detect_service] of the Naver engine returns a key of
    [service_map]: the first service, in the order of the map, one of
    whose keywords occurs in the query in lower case.  Whenever a
    keyword of a service occurs and no keyword of a service listed
    before it does, that service is returned, so a query that holds
    the first keyword of the map gives [news]; when no keyword occurs
    at all the result is [webkr], the fallback; and a result other
    than the fallback is returned only for a keyword that occurs. *)
Theorem detect_service_is_the_first_listed_match
    (str_lower_unicode : pystr -> pystr) (query : pystr) :
  let text := str_lower_unicode query in
  let svc := detect_service str_lower_unicode query in
  In svc (map fst service_map)
  /\ ((forall s kws k, In (s, kws) service_map -> In k kws ->
                       contains k text = false) ->
      svc = fallback_service)
  /\ (svc <> fallback_service ->
      exists before keywords kw after,
        service_map = before ++ (svc, keywords) :: after
        /\ In kw keywords /\ contains kw text = true
        /\ forall s kws k, In (s, kws) before -> In k kws ->
                           contains k text = false)
  /\ (forall before listed keywords kw after,
        service_map = before ++ (listed, keywords) :: after ->
        In kw keywords -> contains kw text = true ->
        (forall s kws k, In (s, kws) before -> In k kws ->
                         contains k text = false) ->
        svc = listed)
  /\ (contains (u "뉴스") text = true -> svc = u "news").
Proof.
  cbv zeta. unfold detect_service.
  assert (Hfirst : forall before listed keywords kw after,
            service_map = before ++ (listed, keywords) :: after ->
            In kw keywords ->
            contains kw (str_lower_unicode query) = true ->
            (forall s kws k, In (s, kws) before -> In k kws ->
                             contains k (str_lower_unicode query) = false) ->
            first_service service_map (str_lower_unicode query) = listed).
  { intros before listed keywords kw after -> Hin Hc Hb.
    now apply (@first_service_first before listed keywords after kw). }
  assert (Hnews : contains (u "뉴스") (str_lower_unicode query) = true ->
                  first_service service_map (str_lower_unicode query)
                  = u "news").
  { intros Hc. unfold service_map. cbn [first_service existsb].
    now rewrite Hc. }
  destruct (first_service_found service_map (str_lower_unicode query))
    as [E | (before & svc & kws & kw & after & Hm & E & Hin & Hc & Hb)].
  - split; [|split; [|split; [|split]]]; try assumption.
    + rewrite E. unfold service_map, fallback_service. cbn [map fst].
      do 5 right. now left.
    + intros _. exact E.
    + intros Hne. congruence.
  - split; [|split; [|split; [|split]]]; try assumption.
    + rewrite E, Hm, map_app. apply in_or_app. right. now left.
    + intros Hnone. rewrite (Hnone svc kws kw) in Hc; [discriminate| |exact Hin].
      rewrite Hm. apply in_or_app. right. now left.
    + intros _. rewrite E. exists before, kws, kw, after. auto.
Qed.

(** ** The endpoints *)

Lemma strip_nil : strip [] = [].
Proof. reflexivity. Qed.

Lemma endpoint_relays upper_ext urlparse E C query w :
  strip query <> [] ->
  process_query_endpoint upper_ext urlparse E C true true (Some query) w
  = (Answered (fst (run_pipeline upper_ext urlparse E C query w)),
     snd (run_pipeline upper_ext urlparse E C query w)).
Proof.
  intros Hq. unfold process_query_endpoint. cbn [negb].
  destruct query as [|c query]; [now rewrite strip_nil in Hq|].
  cbn [truthy negb orb].
  destruct (strip (c :: query)) eqn:Es; [congruence|].
  cbn [truthy negb]. unfold bind, ret.
  now destruct (run_pipeline upper_ext urlparse E C (c :: query) w).
Qed.

(** X8.  With the schemas imported, [process_query_endpoint] refuses
    an absent request and a query that is empty or made of whitespace
    with status 400, leaving the memory and the record of the turn as
    they were; any other query is handed to [run_pipeline] as it is,
    without stripping, and the answer of the pipeline is the answer
    of the endpoint. *)
Theorem endpoint_refuses_blank_queries
    (upper_ext : char -> pystr) (urlparse : pystr -> urlparse_result)
    (E : env) (C : components) (pipeline_imported : bool)
    (request : option pystr) (w : world) :
  let r := process_query_endpoint upper_ext urlparse E C true
             pipeline_imported request w in
  (request = None \/ (exists query, request = Some query /\ strip query = []) ->
   r = (HttpError 400 (u "Query cannot be empty."), w))
  /\ (forall query,
        request = Some query -> strip query <> [] ->
        pipeline_imported = true ->
        r = (Answered (fst (run_pipeline upper_ext urlparse E C query w)),
             snd (run_pipeline upper_ext urlparse E C query w))).
Proof.
  cbv zeta. unfold process_query_endpoint. cbn [negb]. split.
  - intros [-> | (query & -> & Hq)]; [reflexivity|].
    rewrite Hq. cbn [truthy negb]. now rewrite orb_true_r.
  - intros query -> Hq ->. now apply endpoint_relays.
Qed.

(** X9.  When [health_check] reports the service unavailable, because
    the model or the agent was not constructed, [process_query_endpoint]
    still answers a query: the answer is the text of the initialisation
    error, returned as an ordinary answer; no chain is invoked and
    nothing is stored. *)
Theorem unhealthy_service_answers_the_init_error
    (upper_ext : char -> pystr) (urlparse : pystr -> urlparse_result)
    (E : env) (C : components) (query : pystr) (w : world) :
  health_check (llm_ready C) (agent_ready C) <> Healthy ->
  strip query <> [] ->
  process_query_endpoint upper_ext urlparse E C true true (Some query) w
  = (Answered INIT_ERROR, w).
Proof.
  intros Hh Hq.
  rewrite (@endpoint_relays upper_ext urlparse E C query w Hq).
  unfold run_pipeline.
  assert (Hc : core_ready C = false).
  { unfold core_ready. unfold health_check in Hh.
    destruct (llm_ready C); [|reflexivity].
    destruct (agent_ready C); [now cbn in Hh|].
    cbn [andb]. now rewrite !andb_false_r. }
  now rewrite Hc.
Qed.

Lemma unhealthy_service_answers_the_init_error_witness :
  process_query_endpoint sample_upper py_urlparse search_env no_agent true true
    (Some sample_query) (start [])
  = (Answered INIT_ERROR, start []).
Proof.
  assert (Hh : health_check (llm_ready no_agent) (agent_ready no_agent)
               <> Healthy) by (vm_compute; discriminate).
  assert (Hq : strip sample_query <> []) by (vm_compute; discriminate).
  exact (@unhealthy_service_answers_the_init_error sample_upper py_urlparse
           search_env no_agent sample_query (start []) Hh Hq).
Defined.

(** ** The direct answer *)

Lemma firstn_nil_inv {A} n (l : list A) : firstn (S n) l = [] -> l = [].
Proof. now destruct l. Qed.

Section DirectFacts.

Variable upper_ext : char -> pystr.
Variable urlparse : pystr -> urlparse_result.
Variable E : env.
Variable C : components.

Lemma answer_directly_raised query default on_error limit w e :
  no_search_chain E query = Raised e ->
  answer_directly E query default on_error limit w
  = (on_error,
     World (chat_memory w ++ [Message Human query])
           (history w ++ [Appended (Message Human query); Invoked NoSearch])).
Proof.
  intros H. unfold answer_directly.
  cbv [bind add_user_message append_message ainvoke ret].
  cbn [chat_memory history]. rewrite H. now rewrite <- app_assoc.
Qed.

Lemma answer_directly_returned query default on_error limit w v :
  no_search_chain E query = Returned v ->
  let answer := firstn limit (strip (get_or v default)) in
  answer_directly E query default on_error limit w
  = (answer,
     World (chat_memory w ++ [Message Human query; Message AI answer])
           (history w ++ [Appended (Message Human query); Invoked NoSearch;
                          Appended (Message AI answer)])).
Proof.
  intros H. cbv zeta. unfold answer_directly.
  cbv [bind add_user_message add_ai_message append_message ainvoke ret].
  rewrite H. cbn [chat_memory history]. now rewrite <- !app_assoc.
Qed.

Lemma answer_directly_raised_value query default on_error limit w e :
  no_search_chain E query = Raised e ->
  fst (answer_directly E query default on_error limit w) = on_error.
Proof.
  intros H.
  now rewrite (@answer_directly_raised query default on_error limit w e H).
Qed.

Lemma answer_directly_returned_value query default on_error limit w v :
  no_search_chain E query = Returned v ->
  fst (answer_directly E query default on_error limit w)
  = firstn limit (strip (get_or v default)).
Proof.
  intros H.
  now rewrite (@answer_directly_returned query default on_error limit w v H).
Qed.

End DirectFacts.

(** X10.  When the decision is [NO_SEARCH] the turn invokes the chain
    of the direct answer and nothing else: neither the agent nor a
    chain of the search branch.  The user's message is stored before
    the call.  When the chain returns, the answer is the first 50
    characters of its stripped text, and it is stored as the
    assistant's message; when the chain raises, the answer is a fixed
    text and the user's message stays in the memory with no
    assistant's message after it.  The answer has at most 50
    characters either way. *)
Theorem direct_answer_is_clipped_and_stored
    (upper_ext : char -> pystr) (urlparse : pystr -> urlparse_result)
    (E : env) (C : components) (query : pystr) (memory : list message) :
  core_ready C = true ->
  fst (decide_stage upper_ext E query (start memory)) = NO_SEARCH ->
  let r := run_pipeline upper_ext urlparse E C query (start memory) in
  length (fst r) <= 50
  /\ (forall v, no_search_chain E query = Returned v ->
        fst r = firstn 50 (strip (get_or v (u "답변 생성 불가")))
        /\ chat_memory (snd r)
           = memory ++ [Message Human query; Message AI (fst r)]
        /\ history (snd r)
           = [Invoked Decide; Appended (Message Human query);
              Invoked NoSearch; Appended (Message AI (fst r))])
  /\ (forall e, no_search_chain E query = Raised e ->
        fst r = u "간단 답변 생성 에러"
        /\ chat_memory (snd r) = memory ++ [Message Human query]
        /\ history (snd r)
           = [Invoked Decide; Appended (Message Human query);
              Invoked NoSearch]).
Proof.
  intros Hcore Hd. cbv zeta.
  rewrite (@run_pipeline_no_search upper_ext urlparse E C query _ Hcore Hd).
  cbn [start chat_memory history app].
  split; [|split].
  - destruct (no_search_chain E query) as [e|v] eqn:En.
    + rewrite (@answer_directly_raised _ _ _ _ _ _ _ En). cbn [fst].
      vm_compute. repeat constructor.
    + rewrite (@answer_directly_returned _ _ _ _ _ _ _ En). cbn [fst].
      apply firstn_le_length.
  - intros v En. rewrite (@answer_directly_returned _ _ _ _ _ _ _ En).
    cbn [fst snd chat_memory history app]. auto.
  - intros e En. rewrite (@answer_directly_raised _ _ _ _ _ _ _ En).
    cbn [fst snd chat_memory history app]. auto.
Qed.

Lemma direct_answer_is_clipped_and_stored_witness :
  length (fst (run_pipeline sample_upper py_urlparse blank_answer_env
                 all_ready (u "ㅇ") (start []))) <= 50.
Proof.
  assert (Hd : fst (decide_stage sample_upper blank_answer_env (u "ㅇ")
                      (start [])) = NO_SEARCH)
    by (vm_compute; reflexivity).
  destruct (@direct_answer_is_clipped_and_stored sample_upper py_urlparse
              blank_answer_env all_ready (u "ㅇ") [] eq_refl Hd) as (H & _).
  exact H.
Defined.

Lemma run_pipeline_unready upper_ext urlparse E C query w :
  core_ready C = false ->
  fst (run_pipeline upper_ext urlparse E C query w) = INIT_ERROR.
Proof. intros H. unfold run_pipeline. now rewrite H. Qed.

Lemma simple_error_nonempty : u "간단 답변 생성 에러" <> [].
Proof. vm_compute. discriminate. Qed.

Lemma default_answer_not_blank : strip (u "답변 생성 불가") <> [].
Proof. vm_compute. discriminate. Qed.

Lemma init_error_nonempty : INIT_ERROR <> [].
Proof. vm_compute. discriminate. Qed.

(** X11.  A turn returns the empty string in one case only: the
    decision is [NO_SEARCH] and the chain of the direct answer returns
    a text that is empty or made of whitespace.  The search branch,
    the failure of a chain and the initialisation error never give an
    empty answer. *)
Theorem empty_answer_only_from_a_blank_direct_answer
    (upper_ext : char -> pystr) (urlparse : pystr -> urlparse_result)
    (E : env) (C : components) (query : pystr) (w : world) :
  fst (run_pipeline upper_ext urlparse E C query w) = [] ->
  fst (decide_stage upper_ext E query w) = NO_SEARCH
  /\ exists s, no_search_chain E query = Returned (Some s) /\ strip s = [].
Proof.
  intros H.
  destruct (core_ready C) eqn:Hcore.
  - destruct (str_eqb (fst (decide_stage upper_ext E query w)) NO_SEARCH)
      eqn:Hd.
    + apply str_eqb_eq in Hd. split; [exact Hd|].
      rewrite (@run_pipeline_no_search upper_ext urlparse E C query _ Hcore Hd)
        in H.
      destruct (no_search_chain E query) as [e|v] eqn:En.
      * rewrite (@answer_directly_raised_value _ _ _ _ _ _ _ En) in H.
        exact (False_ind _ (simple_error_nonempty H)).
      * rewrite (@answer_directly_returned_value _ _ _ _ _ _ _ En) in H.
        apply firstn_nil_inv in H. destruct v as [s|].
        -- exists s. auto.
        -- exact (False_ind _ (default_answer_not_blank H)).
    + exfalso.
      assert (Hne : fst (decide_stage upper_ext E query w) <> NO_SEARCH).
      { intros Eq. rewrite Eq, str_eqb_refl in Hd. discriminate. }
      rewrite (@run_pipeline_search upper_ext urlparse E C query _ Hcore Hne)
        in H.
      now apply search_path_answer_nonempty in H.
  - rewrite (@run_pipeline_unready upper_ext urlparse E C query w Hcore) in H.
    exact (False_ind _ (init_error_nonempty H)).
Qed.

Lemma empty_answer_only_from_a_blank_direct_answer_witness :
  fst (decide_stage sample_upper blank_answer_env (u "ㅇ") (start []))
  = NO_SEARCH
  /\ exists s, no_search_chain blank_answer_env (u "ㅇ") = Returned (Some s)
               /\ strip s = [].
Proof.
  assert (H : fst (run_pipeline sample_upper py_urlparse blank_answer_env
                     all_ready (u "ㅇ") (start [])) = [])
    by (vm_compute; reflexivity).
  exact (@empty_answer_only_from_a_blank_direct_answer sample_upper
           py_urlparse blank_answer_env all_ready (u "ㅇ") (start []) H).
Defined.

(** ** The summary and the fact check *)

Section SummaryFacts.

Variable urlparse : pystr -> urlparse_result.
Variable E : env.
Variable C : components.

Lemma summarize_stage_history extracted refined w :
  extracted <> [] -> search_answer_ready C = true ->
  snd (summarize_stage E C extracted refined w)
  = World (chat_memory w)
      (history w ++ if contains_any summary_skip_markers extracted
                    then [] else [Invoked Summarize]).
Proof.
  intros Hne Hr. unfold summarize_stage. rewrite Hr.
  destruct extracted as [|c x]; [congruence|]. cbn [truthy andb].
  destruct (contains_any summary_skip_markers (c :: x)); cbn [negb andb].
  - unfold ret. cbn [snd]. rewrite app_nil_r. now destruct w.
  - reflexivity.
Qed.

Lemma fact_check_stage_value summary obs w :
  fact_check_ready C = true ->
  fst (fact_check_stage E C summary obs w)
  = checked_or summary
      (fact_check_chain E summary (combined_history_of obs (chat_memory w))).
Proof. intros H. unfold fact_check_stage. now rewrite H. Qed.

End SummaryFacts.

(** X12.  On the search branch the chain of the summary is invoked
    exactly when the content extracted from the agent's answer holds
    none of the five markers of a failure; with a marker in it the
    content goes to the fact check as it is. *)
Theorem summary_is_skipped_on_marked_content
    (upper_ext : char -> pystr) (urlparse : pystr -> urlparse_result)
    (E : env) (C : components) (query : pystr) (memory : list message) :
  core_ready C = true ->
  fst (decide_stage upper_ext E query (start memory)) <> NO_SEARCH ->
  let r := run_pipeline upper_ext urlparse E C query (start memory) in
  let extracted := extracted_for urlparse E C query in
  (In (Invoked Summarize) (history (snd r))
   <-> contains_any summary_skip_markers extracted = false)
  /\ (contains_any summary_skip_markers extracted = true ->
      exists history_text,
        fst r = attach_sources
                  (checked_or extracted
                     (fact_check_chain E extracted history_text))
                  (trace_links (agent E (agent_input_for E query)))).
Proof.
  intros Hcore Hd. cbv zeta.
  assert (Hready : search_answer_ready C = true /\ fact_check_ready C = true).
  { unfold core_ready in Hcore.
    repeat (apply andb_prop in Hcore; destruct Hcore as [Hcore ?]). auto. }
  destruct Hready as [Hsa Hfc].
  rewrite (@run_pipeline_search upper_ext urlparse E C query _ Hcore Hd).
  rewrite search_path_result. cbv zeta. cbn [fst snd history].
  rewrite grounded_summary_unfolded. cbv zeta. cbn [fst snd].
  rewrite fact_check_stage_world by exact Hfc. cbn [history].
  rewrite fact_check_stage_value by exact Hfc.
  assert (Hne : extracted_for urlparse E C query <> [])
    by apply extract_content_nonempty.
  rewrite summarize_stage_history by assumption. cbn [history chat_memory].
  unfold summarize_stage. rewrite Hsa.
  destruct (contains_any summary_skip_markers (extracted_for urlparse E C query))
    eqn:Em.
  - rewrite andb_false_r. cbn [negb andb]. unfold ret. cbn [fst]. split.
    + split; [|discriminate]. intros Hin. exfalso.
      cbn [start history] in Hin.
      repeat match type of Hin with
             | In _ (_ ++ _) =>
                 apply in_app_or in Hin; destruct Hin as [Hin | Hin]
             | In _ (_ :: _) => destruct Hin as [Hin | Hin]; [discriminate|]
             | In _ [] => destruct Hin
             | In _ (map _ _) =>
                 apply in_map_iff in Hin; destruct Hin as (? & ? & _);
                 discriminate
             end.
    + intros _. eexists. reflexivity.
  - split; [|discriminate]. split; [reflexivity|]. intros _.
    apply in_or_app. left. apply in_or_app. left. apply in_or_app. right.
    now left.
Qed.

Lemma summary_is_skipped_on_marked_content_witness :
  In (Invoked Summarize)
     (history (snd (run_pipeline sample_upper py_urlparse search_env all_ready
                      sample_query (start []))))
  <-> contains_any summary_skip_markers
        (extracted_for py_urlparse search_env all_ready sample_query) = false.
Proof.
  assert (Hd : fst (decide_stage sample_upper search_env sample_query
                      (start [])) <> NO_SEARCH)
    by (vm_compute; discriminate).
  destruct (@summary_is_skipped_on_marked_content sample_upper py_urlparse
              search_env all_ready sample_query [] eq_refl Hd) as (H & _).
  exact H.
Defined.






(** ** Observations without a colon *)

Lemma needs_matches c r :
  needs c r -> forall b word a, matches r b word a -> In c word.
Proof.
  induction r; cbn [needs]; intros Hn b0 word a0 Hm; try contradiction.
  - apply matches_chr_inv in Hm. destruct Hm as (x & -> & Hx).
    left. now rewrite (Hn x Hx).
  - apply matches_seq_inv in Hm. destruct Hm as (w1 & w2 & -> & H1 & H2).
    apply in_or_app. destruct Hn as [Hn | Hn];
      [left; eapply IHr1 | right; eapply IHr2]; eassumption.
  - apply matches_alt_inv in Hm. destruct Hn as [Hn1 Hn2].
    destruct Hm as [Hm | Hm]; [eapply IHr1 | eapply IHr2]; eassumption.
  - apply matches_group_inv in Hm. eapply IHr; eassumption.
Qed.

Lemma needs_seq_of c rs : Exists (needs c) rs -> needs c (seq_of rs).
Proof.
  induction rs as [|r rs IH]; intros H; [inversion H|].
  destruct rs as [|r' rs].
  - inversion H as [? ? Hr | ? ? Hr]; [exact Hr | inversion Hr].
  - change (needs c r \/ needs c (seq_of (r' :: rs))).
    inversion H; subst; [now left | right; now apply IH].
Qed.

Lemma needs_lit c w : In c w -> needs c (lit w).
Proof.
  intros H. unfold lit. apply needs_seq_of. apply Exists_exists.
  exists (lit1 c). split; [now apply in_map|].
  intros x Hx. apply N.eqb_eq in Hx. now symmetry.
Qed.

Lemma needs_lit_ci c w :
  (exists d, In d w /\ forall x, ci_char d x = true -> x = c) ->
  needs c (lit_ci w).
Proof.
  intros (d & Hin & Hd). unfold lit_ci. apply needs_seq_of.
  apply Exists_exists. exists (Chr (ci_char d)). split; [|exact Hd].
  now apply (in_map (fun c0 => Chr (ci_char c0))).
Qed.

Section Without.

Variable c : char.
Variable r : re.
Hypothesis r_needs : needs c r.

Lemma match_here_without pre s : ~ In c s -> match_here r pre s = None.
Proof.
  intros Hs. destruct (match_here r pre s) as [st|] eqn:E; [|reflexivity].
  unfold match_here in E. apply rmatch_sound in E.
  destruct E as (w & st' & [Hr _] & Hm & _). cbn [rest before] in *.
  exfalso. apply Hs. rewrite Hr. apply in_or_app. left.
  eapply needs_matches; eassumption.
Qed.

Lemma search_without s : ~ In c s -> search r s = None.
Proof.
  unfold search. generalize (@nil char) as pre.
  induction s as [|x s IH]; intros pre Hs; cbn [search_from];
    rewrite (@match_here_without pre _ Hs); [reflexivity|].
  apply IH. intros H. apply Hs. now right.
Qed.

Lemma findall_without s : ~ In c s -> findall r s = [].
Proof.
  unfold findall. generalize (@nil char) as pre.
  induction s as [|x s IH]; intros pre Hs; cbn [findall_scan];
    rewrite (@match_here_without pre _ Hs); [reflexivity|].
  apply IH. intros H. apply Hs. now right.
Qed.

End Without.

Lemma colon_text : u "://" = [58; 47; 47]%N.
Proof. vm_compute. reflexivity. Qed.

Lemma http_prefix_needs_colon : needs 58%N http_prefix.
Proof.
  unfold http_prefix. apply needs_seq_of.
  apply Exists_cons_tl, Exists_cons_tl, Exists_cons_hd.
  apply needs_lit. rewrite colon_text. now left.
Qed.

Lemma markdown_link_needs_colon : needs 58%N markdown_link_regex.
Proof.
  unfold markdown_link_regex. apply needs_seq_of.
  do 3 apply Exists_cons_tl. apply Exists_cons_hd.
  left. apply http_prefix_needs_colon.
Qed.

Lemma plain_link_needs_colon : needs 58%N plain_link_regex.
Proof. right. left. apply http_prefix_needs_colon. Qed.

Lemma colon_literal x : (58 =? x)%N = true -> x = 58%N.
Proof. intros H. apply N.eqb_eq in H. now symmetry. Qed.

Lemma source_section_needs_colon : needs 58%N source_section_regex.
Proof.
  unfold source_section_regex. apply needs_seq_of.
  do 5 apply Exists_cons_tl. apply Exists_cons_hd. exact colon_literal.
Qed.

Lemma body_label_needs_colon : needs 58%N body_label_regex.
Proof.
  unfold body_label_regex. apply needs_seq_of.
  do 3 apply Exists_cons_tl. apply Exists_cons_hd. exact colon_literal.
Qed.

Lemma ci_colon x : ci_char 58%N x = true -> x = 58%N.
Proof.
  unfold ci_char. change (is_ascii_upper 58%N) with false. cbv iota.
  change (is_ascii_lower 58%N) with false.
  change (58 =? 115)%N with false. change (58 =? 105)%N with false.
  change (58 =? 107)%N with false. cbn [andb orb].
  rewrite !orb_false_r. apply N.eqb_eq.
Qed.

Lemma final_answer_needs_colon : needs 58%N final_answer_regex.
Proof.
  unfold final_answer_regex. apply needs_seq_of. apply Exists_cons_hd.
  apply needs_lit_ci. exists 58%N. split; [|exact ci_colon].
  assert (E : u "Final Answer:" = u "Final Answer" ++ [58%N])
    by (vm_compute; reflexivity).
  rewrite E. apply in_or_app. right. now left.
Qed.

(** X14.  An observation that holds no colon is returned by
    [parse_agent_observation] as it is, not even stripped, with no
    link; the empty observation gives the fixed text of no valid
    content. *)
Theorem observation_without_colon_is_returned_unchanged
    (urlparse : pystr -> urlparse_result) (observation : pystr) :
  ~ In 58%N observation ->
  parse_agent_observation urlparse observation
  = (if truthy observation then observation else no_valid_content, []).
Proof.
  intros H. unfold parse_agent_observation, parse_body, found_links_raw.
  rewrite (@findall_without _ _ markdown_link_needs_colon _ H).
  rewrite (@findall_without _ _ plain_link_needs_colon _ H).
  cbn [app fromkeys dedup_from clean_links].
  rewrite (@search_without _ _ source_section_needs_colon _ H).
  unfold match_start.
  rewrite (@match_here_without _ _ body_label_needs_colon _ _ H).
  rewrite (@search_without _ _ final_answer_needs_colon _ H).
  reflexivity.
Qed.

Lemma observation_without_colon_is_returned_unchanged_witness :
  parse_agent_observation py_urlparse (u " 검색 결과 없음 ")
  = (if truthy (u " 검색 결과 없음 ") then u " 검색 결과 없음 "
     else no_valid_content, []).
Proof.
  apply observation_without_colon_is_returned_unchanged.
  vm_compute. intuition discriminate.
Defined.

(** ** What the cleaning of a URL cuts *)

Lemma only_matches P r :
  only P r -> forall b word a, matches r b word a ->
  Forall (fun c => P c = true) word.
Proof.
  intros Ho b word a Hm. induction Hm; cbn [only] in Ho;
    try (now constructor).
  - constructor; [now apply Ho | constructor].
  - apply Forall_app. destruct Ho. split; auto.
  - destruct Ho. auto.
  - destruct Ho. auto.
  - apply Forall_app. split; auto.
  - auto.
Qed.

Lemma only_seq_of P rs : Forall (only P) rs -> only P (seq_of rs).
Proof.
  induction rs as [|r rs IH]; intros H; [exact I|].
  inversion H as [|? ? Hr Hrs]; subst. destruct rs as [|r' rs]; [exact Hr|].
  change (only P r /\ only P (seq_of (r' :: rs))). auto.
Qed.

Lemma only_alt_of P rs : Forall (only P) rs -> only P (alt_of rs).
Proof.
  induction rs as [|r rs IH]; intros H; [exact I|].
  inversion H as [|? ? Hr Hrs]; subst. destruct rs as [|r' rs]; [exact Hr|].
  change (only P r /\ only P (alt_of (r' :: rs))). auto.
Qed.

Lemma only_lit P w : forallb P w = true -> only P (lit w).
Proof.
  intros H. unfold lit. apply only_seq_of. apply Forall_map.
  apply Forall_forall. intros c Hc x Hx. apply N.eqb_eq in Hx. subst x.
  rewrite forallb_forall in H. now apply H.
Qed.

Lemma simple_junk_is_junk c : simple_junk_char c = true -> junk_char c = true.
Proof. intros H. unfold junk_char. now rewrite H. Qed.

Lemma only_junk_round : only junk_char junk_round.
Proof.
  assert (Hparen : only junk_char (Opt (lit1 41%N))).
  { split; [|exact I]. intros x Hx. apply N.eqb_eq in Hx. now subst x. }
  assert (Hws : only junk_char (Star true ws)).
  { intros x Hx. apply simple_junk_is_junk. unfold simple_junk_char.
    cbv [ws] in Hx. rewrite Hx. now rewrite orb_true_r. }
  assert (Hpunct : only junk_char (Star true (Chr punct_char))).
  { intros x Hx. apply simple_junk_is_junk. unfold simple_junk_char.
    rewrite Hx. now rewrite orb_true_r. }
  assert (Hparticle : only junk_char (Opt particle)).
  { split; [|exact I]. unfold particle. apply only_alt_of.
    repeat (apply Forall_cons;
            [first [ apply only_lit; vm_compute; reflexivity
                   | split; [split; [apply only_lit; vm_compute; reflexivity
                                    | exact I]
                            | apply only_lit; vm_compute; reflexivity] ]|]).
    constructor. }
  unfold junk_round. apply only_seq_of.
  repeat (apply Forall_cons; [assumption|]). constructor.
Qed.

Lemma junk_words w : lang junk_rounds w -> Forall (fun c => junk_char c = true) w.
Proof.
  apply only_matches. split; exact only_junk_round.
Qed.

(** X15.  Cleaning a candidate URL only cuts a tail off the stripped
    link: what is kept is a prefix of it, and every character cut is
    a closing parenthesis, whitespace, punctuation or a character of
    one of the particles.  A link whose last character is none of
    these is only stripped.  The second substitution of the code never
    changes anything: the first already leaves nothing for it. *)
Theorem url_cleaning_only_cuts_a_tail (link : pystr) :
  (exists tail,
     strip link = clean_url link ++ tail
     /\ Forall (fun c => junk_char c = true) tail)
  /\ (forall s0 c, strip link = s0 ++ [c] -> junk_char c = false ->
      clean_url link = strip link)
  /\ clean_url link = sub_empty trailing_junk_regex (strip link).
Proof.
  destruct (clean_url_cut link) as (E & _ & _).
  assert (Htail : exists tail,
             strip link = clean_url link ++ tail
             /\ Forall (fun c => junk_char c = true) tail).
  { rewrite E.
    destruct (@sub_trailing_spec junk_rounds eq_refl (strip link) []
                (@strip_no_final_newline link)) as (q & Hq & Hl & _).
    exists q. split; [exact Hq|].
    destruct Hl as [-> | Hl]; [constructor | now apply junk_words]. }
  split; [exact Htail|]. split; [|exact E].
  intros s0 c Es Hc. destruct Htail as (tail & Et & Hj).
  destruct tail as [|d tail] using rev_ind.
  - now rewrite app_nil_r in Et.
  - exfalso. rewrite Es, app_assoc in Et. apply app_inj_tail in Et.
    destruct Et as [_ <-]. apply Forall_app in Hj. destruct Hj as [_ Hj].
    inversion Hj; subst. congruence.
Qed.

(** ** Removing duplicates *)

Lemma str_in_app x s1 s2 : str_in x (s1 ++ s2) = str_in x s1 || str_in x s2.
Proof. apply existsb_app. Qed.

Lemma dedup_from_split xs : forall s1 s2,
  dedup_from (s1 ++ s2) xs
  = dedup_from s1 (filter (fun y => negb (str_in y s2)) xs).
Proof.
  induction xs as [|x xs IH]; intros s1 s2; [reflexivity|].
  cbn [dedup_from filter]. rewrite str_in_app.
  destruct (str_in x s2) eqn:E2; cbn [negb].
  - rewrite orb_true_r. apply IH.
  - rewrite orb_false_r. cbn [dedup_from].
    destruct (str_in x s1); [apply IH|].
    f_equal. apply (IH (x :: s1) s2).
Qed.

Lemma fromkeys_cons x xs :
  fromkeys (x :: xs)
  = x :: fromkeys (filter (fun y => negb (str_eqb y x)) xs).
Proof.
  unfold fromkeys. cbn [dedup_from str_in existsb].
  change (dedup_from [x] xs) with (dedup_from ([] ++ [x]) xs).
  rewrite (dedup_from_split xs [] [x]). f_equal. f_equal.
  apply filter_ext. intros y. unfold str_in. cbn [existsb].
  now rewrite orb_false_r.
Qed.

Lemma dedup_from_In seen xs x :
  In x (dedup_from seen xs) <-> In x xs /\ ~ In x seen.
Proof.
  revert seen. induction xs as [|y xs IH]; intros seen; cbn [dedup_from].
  - split; [intros [] | now intros [[] _]].
  - destruct (str_in y seen) eqn:Ey.
    + apply str_in_In in Ey. rewrite IH. split.
      * intros [H1 H2]. split; [now right | exact H2].
      * intros [[<- | H1] H2]; [contradiction | now split].
    + assert (Hy : ~ In y seen).
      { intros H. apply str_in_In in H. congruence. }
      cbn [In]. rewrite IH. cbn [In]. split.
      * intros [<- | [H1 H2]]; [now split; [left|] |].
        split; [now right | tauto].
      * intros [[<- | H1] H2]; [now left|].
        destruct (list_eq_dec N.eq_dec y x) as [-> | Hne]; [now left|].
        right. split; [exact H1 | tauto].
Qed.

Lemma dedup_from_NoDup xs : forall seen, NoDup (dedup_from seen xs).
Proof.
  induction xs as [|y xs IH]; intros seen; cbn [dedup_from]; [constructor|].
  destruct (str_in y seen); [apply IH|].
  constructor; [|apply IH]. rewrite dedup_from_In. intros [_ H].
  apply H. now left.
Qed.

Lemma fromkeys_In xs x : In x (fromkeys xs) <-> In x xs.
Proof. unfold fromkeys. rewrite dedup_from_In. cbn [In]. tauto. Qed.

Lemma filter_truthy_In links l : In l (filter truthy links) <-> In l links /\ l <> [].
Proof.
  rewrite filter_In. split; intros [H1 H2]; (split; [exact H1|]).
  - now apply truthy_nonempty.
  - destruct l; [congruence | reflexivity].
Qed.

Lemma filter_swap {A} (f g : A -> bool) l :
  filter f (filter g l) = filter g (filter f l).
Proof.
  induction l as [|x l IH]; [reflexivity|]. cbn [filter].
  destruct (f x) eqn:Ef, (g x) eqn:Eg; cbn [filter];
    rewrite ?Ef, ?Eg, IH; reflexivity.
Qed.

(** X16.  The links of a sources block, for any list of links: each
    listed once, those of the list that are not empty and no other,
    in the order of their first occurrence (the first link heads the
    block, and the rest of the block is that of the later links other
    than it).  [format_search_results] writes the texts followed by
    this block, and no block when no link is left. *)
Theorem sources_are_the_first_occurrences (links : list pystr) :
  NoDup (unique_links_of links)
  /\ (forall l, In l (unique_links_of links) <-> In l links /\ l <> [])
  /\ (forall x xs, links = x :: xs ->
        unique_links_of links
        = if truthy x
          then x :: unique_links_of
                      (filter (fun y => negb (str_eqb y x)) xs)
          else unique_links_of xs)
  /\ (forall texts, texts <> [] ->
        format_search_results texts links
        = u "본문:" ++ NL ++ join (NL ++ NL) texts
            ++ if nonempty (unique_links_of links)
               then sources_block (unique_links_of links) else []).
Proof.
  split; [apply dedup_from_NoDup|]. split; [|split].
  - intros l. unfold unique_links_of. rewrite fromkeys_In.
    apply filter_truthy_In.
  - intros x xs ->. unfold unique_links_of. cbn [filter].
    destruct (truthy x); [|reflexivity].
    rewrite fromkeys_cons. f_equal. f_equal. apply filter_swap.
  - intros texts Ht. unfold format_search_results.
    destruct texts as [|t texts]; [congruence|]. cbn [nonempty negb].
    assert (E : (if nonempty links then unique_links_of links else [])
                = unique_links_of links) by now destruct links.
    rewrite E. destruct (nonempty (unique_links_of links)).
    + reflexivity.
    + now rewrite app_nil_r.
Qed.

Lemma clean_links_origin urlparse raw : forall acc L,
  clean_links urlparse raw acc = Returned L ->
  NoDup acc ->
  NoDup L
  /\ forall l, In l L ->
       In l acc \/ exists link, In link raw /\ l = clean_url link.
Proof.
  induction raw as [|link raw IH]; intros acc L H Hnd; cbn [clean_links] in H.
  - injection H as <-. split; [exact Hnd | auto].
  - assert (Hskip : clean_links urlparse raw acc = Returned L ->
              NoDup L
              /\ forall l, In l L ->
                   In l acc
                   \/ exists link0, In link0 (link :: raw)
                                    /\ l = clean_url link0).
    { intros H'. destruct (IH acc L H' Hnd) as [H1 H2]. split; [exact H1|].
      intros l Hl. destruct (H2 l Hl) as [Ha | (link0 & Hin & El)];
        [now left | right; exists link0; split; [now right | exact El]]. }
    destruct (negb (truthy link)); [now apply Hskip|].
    destruct (urlparse (clean_url link)) as [scheme netloc| |e];
      [|now apply Hskip | discriminate].
    destruct (truthy scheme && truthy netloc
              && negb (str_in (clean_url link) acc)) eqn:Ec;
      [|now apply Hskip].
    apply andb_prop in Ec. destruct Ec as [_ Ein].
    assert (Hnd' : NoDup (acc ++ [clean_url link])).
    { apply NoDup_app; [exact Hnd | repeat constructor; simpl; tauto |].
      intros x Hx [<- | []]. apply str_in_In in Hx. rewrite Hx in Ein.
      discriminate. }
    destruct (IH _ L H Hnd') as [H1 H2]. split; [exact H1|].
    intros l Hl. destruct (H2 l Hl) as [Ha | (link0 & Hin & El)].
    + apply in_app_or in Ha. destruct Ha as [Ha | [<- | []]]; [now left|].
      right. exists link. split; [now left | reflexivity].
    + right. exists link0. split; [now right | exact El].
Qed.

(** X17.  The links [parse_agent_observation] returns are pairwise
    distinct, and each is the cleaned form of a candidate that one of
    the two patterns found in the observation. *)
Theorem parsed_links_are_distinct_cleaned_candidates
    (urlparse : pystr -> urlparse_result) (observation : pystr) :
  let links := snd (parse_agent_observation urlparse observation) in
  NoDup links
  /\ forall l, In l links ->
       exists candidate,
         (In candidate (findall markdown_link_regex observation)
          \/ In candidate (findall plain_link_regex observation))
         /\ l = clean_url candidate.
Proof.
  cbv zeta. rewrite parse_links.
  destruct (clean_links urlparse (found_links_raw observation) [])
    as [e|L] eqn:E; [split; [constructor | intros l []]|].
  destruct (@clean_links_origin _ _ _ _ E (NoDup_nil _)) as [Hnd Horigin].
  split; [exact Hnd|]. intros l Hl.
  destruct (Horigin l Hl) as [[] | (link & Hin & El)].
  exists link. split; [|exact El].
  unfold found_links_raw in Hin. apply (proj1 (fromkeys_In _ _)) in Hin.
  now apply in_app_or in Hin.
Qed.

(** ** The texts and the links of the items *)

Section Gathered.

Variable preprocess_html : pystr -> pystr -> outcome pystr.
Variable eng : engine.

Lemma doc_text_truthy title processed : truthy (doc_text title processed) = true.
Proof.
  assert (E : hd_error (u "--- 문서 (") = Some 45%N)
    by (vm_compute; reflexivity).
  unfold doc_text. now rewrite (@head_of_app _ _ _ E).
Qed.

Lemma item_gives_result it title processed link :
  item_gives preprocess_html eng it title processed link ->
  _extract_and_process_item preprocess_html eng it
  = (Some (doc_text title processed), Some link).
Proof.
  intros (Hl & Hne & Hp & -> & html & main & Eh & Hh & Em & Ep).
  unfold _extract_and_process_item. rewrite Hl.
  destruct link as [|c link]; [congruence|]. cbn [truthy negb].
  rewrite Eh. destruct html as [|h html]; [congruence|]. cbn [truthy].
  rewrite Em, Ep. destruct processed; [congruence | reflexivity].
Qed.

(** An item fails or gives a text, never both, and what it gives is
    determined. *)
Lemma item_fails_or_gives it :
  item_fails preprocess_html eng it
  \/ exists title processed link,
       item_gives preprocess_html eng it title processed link.
Proof.
  unfold item_fails, item_gives.
  destruct (item_link it) as [link|]; [|now left].
  destruct link as [|c link]; [left; now left|].
  destruct (extract_text eng (c :: link)) as [e|html] eqn:Eh;
    [left; right; left; now exists e|].
  destruct html as [|h html]; [left; right; right; now left|].
  destruct (extract_main_text_from_html eng (h :: html)) as [e|main] eqn:Em.
  { left. right. right. right. exists (h :: html). split; [first [reflexivity | eassumption]|].
    left. exists e. first [reflexivity | eassumption]. }
  destruct (preprocess_html main (c :: link)) as [e|processed] eqn:Ep.
  { left. right. right. right. exists (h :: html). split; [first [reflexivity | eassumption]|].
    right. exists main. split; [first [reflexivity | eassumption]|]. left. exists e. first [reflexivity | eassumption]. }
  destruct processed as [|p processed].
  { left. right. right. right. exists (h :: html). split; [first [reflexivity | eassumption]|].
    right. exists main. split; [first [reflexivity | eassumption]|]. right.
    first [reflexivity | eassumption]. }
  right. exists (get_or (item_title it) []), (p :: processed), (c :: link).
  split; [first [reflexivity | eassumption]|]. repeat split; try discriminate.
  exists (h :: html), main. repeat split; first [reflexivity | eassumption | discriminate].
Qed.

Lemma item_gives_not_fails it title processed link :
  item_gives preprocess_html eng it title processed link ->
  ~ item_fails preprocess_html eng it.
Proof.
  intros Hg Hf. apply item_gives_result in Hg.
  apply failed_item_yields_none in Hf. congruence.
Qed.

Lemma item_gives_determined it t1 p1 l1 t2 p2 l2 :
  item_gives preprocess_html eng it t1 p1 l1 ->
  item_gives preprocess_html eng it t2 p2 l2 ->
  (t1, p1, l1) = (t2, p2, l2).
Proof.
  intros (Hl1 & _ & _ & -> & html1 & main1 & Eh1 & _ & Em1 & Ep1)
         (Hl2 & _ & _ & -> & html2 & main2 & Eh2 & _ & Em2 & Ep2).
  rewrite Hl1 in Hl2. injection Hl2 as <-.
  rewrite Eh1 in Eh2. injection Eh2 as <-.
  rewrite Em1 in Em2. injection Em2 as <-.
  rewrite Ep1 in Ep2. injection Ep2 as <-.
  reflexivity.
Qed.

Lemma gathered_from_exists items :
  exists kept, gathered_from preprocess_html eng items kept.
Proof.
  induction items as [|it items (kept & IH)]; [exists []; constructor|].
  destruct (item_fails_or_gives it) as [Hf | (t & p & l & Hg)].
  - exists kept. now apply gathered_failed.
  - exists ((t, p, l) :: kept). now apply gathered_given.
Qed.

Lemma gathered_from_determined items kept :
  gathered_from preprocess_html eng items kept ->
  forall kept', gathered_from preprocess_html eng items kept' -> kept' = kept.
Proof.
  induction 1 as [|it items kept Hf _ IH|it items kept t p l Hg _ IH];
    intros kept' H'; inversion H'; subst.
  - reflexivity.
  - now apply IH.
  - exfalso. eapply item_gives_not_fails; eassumption.
  - exfalso. eapply item_gives_not_fails; eassumption.
  - f_equal; [|now apply IH].
    eapply item_gives_determined; eassumption.
Qed.

Lemma gathered_from_results items kept :
  gathered_from preprocess_html eng items kept ->
  keep_truthy (map fst (map (_extract_and_process_item preprocess_html eng)
                            items))
  = map (fun k => doc_text (fst (fst k)) (snd (fst k))) kept
  /\ keep_truthy (map snd (map (_extract_and_process_item preprocess_html eng)
                               items))
     = map snd kept.
Proof.
  induction 1 as [|it items kept Hf _ [IH1 IH2]
                  |it items kept t p l Hg _ [IH1 IH2]]; cbn [map].
  - now split.
  - rewrite (failed_item_yields_none _ _ _ Hf). cbn [fst snd keep_truthy].
    now split.
  - rewrite (item_gives_result Hg). cbn [fst snd keep_truthy map].
    rewrite doc_text_truthy.
    assert (Hl : truthy l = true).
    { destruct Hg as (_ & Hne & _). destruct l; [congruence | reflexivity]. }
    rewrite Hl, IH1, IH2. now split.
Qed.

Lemma gathered_from_sound items kept :
  gathered_from preprocess_html eng items kept ->
  forall k, In k kept ->
    exists it, In it items
               /\ item_gives preprocess_html eng it
                    (fst (fst k)) (snd (fst k)) (snd k).
Proof.
  induction 1 as [|it items kept Hf _ IH|it items kept t p l Hg _ IH];
    intros k Hin.
  - destruct Hin.
  - destruct (IH k Hin) as (it0 & Hin0 & Hg0). exists it0. split; [now right|].
    exact Hg0.
  - destruct Hin as [<- | Hin].
    + exists it. split; [now left | exact Hg].
    + destruct (IH k Hin) as (it0 & Hin0 & Hg0). exists it0.
      split; [now right | exact Hg0].
Qed.

Lemma gathered_from_complete items kept :
  gathered_from preprocess_html eng items kept ->
  forall it title processed link,
    In it items -> item_gives preprocess_html eng it title processed link ->
    In (title, processed, link) kept.
Proof.
  induction 1 as [|it0 items kept Hf _ IH|it0 items kept t p l Hg _ IH];
    intros it title processed link Hin Hgive.
  - destruct Hin.
  - destruct Hin as [<- | Hin]; [|now apply (IH it)].
    exfalso. eapply item_gives_not_fails; eassumption.
  - destruct Hin as [<- | Hin]; [|right; now apply (IH it)].
    left. eapply item_gives_determined; eassumption.
Qed.

Lemma gathered items :
  exists kept : list (pystr * pystr * pystr),
    keep_truthy (map fst (map (_extract_and_process_item preprocess_html eng)
                              items))
    = map (fun k => doc_text (fst (fst k)) (snd (fst k))) kept
    /\ keep_truthy (map snd (map (_extract_and_process_item preprocess_html eng)
                                 items))
       = map snd kept
    /\ forall k, In k kept ->
         exists it, In it items
                    /\ item_gives preprocess_html eng it
                         (fst (fst k)) (snd (fst k)) (snd k).
Proof.
  destruct (gathered_from_exists items) as (kept & Hk). exists kept.
  destruct (gathered_from_results Hk) as [Ht El].
  split; [exact Ht|]. split; [exact El|]. exact (gathered_from_sound Hk).
Qed.

End Gathered.

(** X18.  What an adapter gathers from the items: the texts and the
    links come in pairs, in the order of the items, one pair for each
    item that gave a text and none for an item that failed; the items
    determine the pairs.  Each link is the link of an item, not
    empty, whose page was fetched and gave a text that is not empty;
    each text is that text under the header of the document with the
    title of the item; and every item that gives a text has its pair
    among them. *)
Theorem gathered_texts_and_links_come_in_pairs
    (preprocess_html : pystr -> pystr -> outcome pystr)
    (eng : engine) (items : list item) :
  exists kept : list (pystr * pystr * pystr),
    gathered_from preprocess_html eng items kept
    /\ (forall kept', gathered_from preprocess_html eng items kept' ->
                      kept' = kept)
    /\ gather_and_format preprocess_html eng items
       = (format_search_results
            (map (fun k => doc_text (fst (fst k)) (snd (fst k))) kept)
            (map snd kept),
          map snd kept)
    /\ (forall title processed link, In (title, processed, link) kept ->
          link <> [] /\ processed <> []
          /\ exists it html main_text,
               In it items /\ item_link it = Some link
               /\ title = get_or (item_title it) []
               /\ extract_text eng link = Returned html
               /\ extract_main_text_from_html eng html = Returned main_text
               /\ preprocess_html main_text link = Returned processed)
    /\ (forall it title processed link,
          In it items ->
          item_gives preprocess_html eng it title processed link ->
          In (title, processed, link) kept)
    /\ (forall it, In it items -> item_fails preprocess_html eng it ->
          forall title processed link,
            ~ item_gives preprocess_html eng it title processed link).
Proof.
  destruct (gathered_from_exists preprocess_html eng items) as (kept & Hk).
  exists kept. split; [exact Hk|].
  split; [exact (gathered_from_determined Hk)|].
  destruct (gathered_from_results Hk) as [Ht El].
  split; [|split; [|split]].
  - unfold gather_and_format. cbv zeta. now rewrite Ht, El.
  - intros title processed link Hin.
    destruct (gathered_from_sound Hk _ Hin)
      as (it & Hit & Hl & Hne & Hp & Htitle & html & main & Eh & _ & Em & Ep).
    cbn [fst snd] in *. repeat split; try assumption.
    exists it, html, main. auto 10.
  - exact (gathered_from_complete Hk).
  - intros it _ Hf title processed link Hg.
    exact (item_gives_not_fails Hg Hf).
Qed.

(** ** Preprocessing a text again *)

Lemma sub_scan_without c r s :
  needs c r -> ~ In c s -> forall pre, sub_scan r 0 pre s = s.
Proof.
  intros Hn. induction s as [|x s IH]; intros Hs pre; [reflexivity|].
  cbn [sub_scan]. rewrite (@match_here_without c r Hn pre (x :: s) Hs).
  f_equal. apply IH. intros H. apply Hs. now right.
Qed.

Lemma filter_all {A} (f : A -> bool) l :
  (forall x, In x l -> f x = true) -> filter f l = l.
Proof.
  induction l as [|x l IH]; intros H; [reflexivity|]. cbn [filter].
  rewrite (H x (or_introl eq_refl)). f_equal. apply IH.
  intros y Hy. apply H. now right.
Qed.

Lemma tag_needs_lt : needs 60%N tag_regex.
Proof.
  left. intros x Hx. apply N.eqb_eq in Hx. now symmetry.
Qed.

Lemma post_view_needs_lt : needs 60%N post_view_regex.
Proof.
  unfold post_view_regex. apply needs_seq_of. apply Exists_cons_hd.
  apply needs_lit.
  assert (E : u "<div" = 60%N :: u "div") by (vm_compute; reflexivity).
  rewrite E. now left.
Qed.

Lemma se_text_needs_brace : needs 123%N se_text_regex.
Proof.
  unfold se_text_regex. apply needs_seq_of.
  do 2 apply Exists_cons_tl. apply Exists_cons_hd.
  intros x Hx. apply N.eqb_eq in Hx. now symmetry.
Qed.

(** X19.  Preprocessing is idempotent below the clipping length: a
    text [preprocess_html] returned with fewer than 2000 characters is
    returned unchanged when it is preprocessed again, under any URL.
    The class of word characters is any that holds neither the
    opening angle bracket nor the opening brace. *)
Theorem preprocess_html_is_idempotent_when_not_clipped
    (is_word : char -> bool) (text url url' : pystr) :
  is_word 60%N = false -> is_word 123%N = false ->
  length (preprocess_html is_word text url) < 2000 ->
  preprocess_html is_word (preprocess_html is_word text url) url'
  = preprocess_html is_word text url.
Proof.
  intros Hlt Hbrace Hlen.
  destruct (preprocess_html_cleaned is_word text url) as (cleaned & Et & Hk).
  rewrite Et in Hlen |- *.
  destruct (clipped_normal cleaned) as (_ & Hss & Hhead & Hlast & Hchars).
  specialize (Hlast Hlen).
  remember (firstn 2000 (strip (squeeze is_space [32%N] false cleaned)))
    as t eqn:Ht.
  clear Ht Et.
  assert (Hno : forall c, kept_char is_word c = false -> c <> 32%N ->
                          ~ In c t).
  { intros c Hc Hne Hin. destruct (Hchars c Hin) as [-> | [Hin' _]];
      [congruence|]. rewrite (Hk c Hin') in Hc. discriminate. }
  assert (H60 : ~ In 60%N t).
  { apply Hno; [|discriminate]. unfold kept_char. now rewrite Hlt. }
  assert (H123 : ~ In 123%N t).
  { apply Hno; [|discriminate]. unfold kept_char. now rewrite Hbrace. }
  assert (Hblog : extract_naver_blog_body t = None).
  { unfold extract_naver_blog_body.
    rewrite (@findall_without _ _ se_text_needs_brace _ H123). cbn [nonempty].
    now rewrite (@search_without _ _ post_view_needs_lt _ H60). }
  unfold preprocess_html at 1. rewrite Hblog.
  assert (Eb : forall b : bool, (if b then t else t) = t) by now intros [|].
  rewrite Eb. unfold sub_empty at 2.
  rewrite (@sub_scan_without _ _ _ tag_needs_lt H60 []).
  unfold sub_empty, special_char_regex. rewrite sub_scan_char.
  rewrite filter_all.
  - rewrite collapse_spaces, (collapsed_fixed Hss Hhead Hlast).
    apply firstn_all2. lia.
  - intros c Hc. rewrite negb_involutive.
    destruct (Hchars c Hc) as [-> | [Hin _]]; [|now apply Hk].
    unfold kept_char. cbn. now rewrite !orb_true_r.
Qed.

Lemma preprocess_html_is_idempotent_when_not_clipped_witness :
  preprocess_html is_ascii_letter
    (preprocess_html is_ascii_letter (u "<p>a  b</p>") (u "https://x"))
    (u "https://blog.naver.com/x")
  = preprocess_html is_ascii_letter (u "<p>a  b</p>") (u "https://x").
Proof.
  assert (Hlen : length (preprocess_html is_ascii_letter (u "<p>a  b</p>")
                           (u "https://x")) < 2000)
    by (apply Nat.ltb_lt; vm_compute; reflexivity).
  exact (@preprocess_html_is_idempotent_when_not_clipped is_ascii_letter
           (u "<p>a  b</p>") (u "https://x") (u "https://blog.naver.com/x")
           eq_refl eq_refl Hlen).
Defined.

(** ** Tags *)

Lemma has_char_In c s : has_char c s = true <-> In c s.
Proof.
  unfold has_char. rewrite existsb_exists. split.
  - intros (x & Hx & E). apply N.eqb_eq in E. now subst.
  - intros H. exists c. split; [exact H | apply N.eqb_refl].
Qed.

Lemma has_char_absent c s : has_char c s = false <-> ~ In c s.
Proof.
  rewrite <- has_char_In. destruct (has_char c s); split; congruence.
Qed.

Lemma matches_star_class g (p : char -> bool) w : forall b a,
  Forall (fun c => p c = true) w -> matches (Star g (Chr p)) b w a.
Proof.
  induction w as [|c w IH]; intros b a H; [constructor|].
  inversion H; subst. change (c :: w) with ([c] ++ w).
  apply M_star_cons; [now constructor | now apply IH].
Qed.

Lemma not_gt_chars m :
  ~ In 62%N m -> Forall (fun c => negb (c =? 62)%N = true) m.
Proof.
  intros H. apply Forall_forall. intros c Hc.
  destruct (N.eqb_spec c 62) as [-> | _]; [contradiction | reflexivity].
Qed.

Lemma tag_matches b m a :
  m <> [] -> ~ In 62%N m -> matches tag_regex b (60%N :: m ++ [62%N]) a.
Proof.
  intros Hne Hm. destruct m as [|c m]; [congruence|].
  apply not_gt_chars in Hm. inversion Hm; subst.
  unfold tag_regex, seq_of, Plus, not_gt.
  change (60%N :: (c :: m) ++ [62%N])
    with ([60%N] ++ ([c] ++ m) ++ [62%N]).
  apply M_seq; [constructor; apply N.eqb_refl|].
  apply M_seq; [|constructor; apply N.eqb_refl].
  apply M_seq; [now constructor|]. now apply matches_star_class.
Qed.

Lemma tag_matches_inv b w a :
  matches tag_regex b w a ->
  exists m, w = 60%N :: m ++ [62%N] /\ m <> [] /\ ~ In 62%N m.
Proof.
  unfold tag_regex, seq_of, Plus, not_gt. intros H.
  apply matches_seq_inv in H. destruct H as (w1 & w23 & -> & H1 & H23).
  apply matches_chr_inv in H1. destruct H1 as (c & -> & Hc).
  apply N.eqb_eq in Hc. subst c.
  apply matches_seq_inv in H23. destruct H23 as (w2 & w3 & -> & H2 & H3).
  apply matches_chr_inv in H3. destruct H3 as (d & -> & Hd).
  apply N.eqb_eq in Hd. subst d.
  apply matches_seq_inv in H2. destruct H2 as (x & y & -> & Hx & Hy).
  apply matches_chr_inv in Hx. destruct Hx as (e & -> & He).
  exists ([e] ++ y). split; [reflexivity|]. split; [discriminate|].
  assert (Hall : Forall (fun c => negb (c =? 62)%N = true) ([e] ++ y)).
  { constructor; [exact He|]. eapply lang_star_chars; [exact Hy | reflexivity]. }
  intros Hin. rewrite Forall_forall in Hall. specialize (Hall _ Hin).
  discriminate.
Qed.

Lemma match_here_tag_some pre s st :
  match_here tag_regex pre s = Some st ->
  exists m, s = 60%N :: m ++ 62%N :: rest st /\ m <> [] /\ ~ In 62%N m.
Proof.
  intros H. unfold match_here in H. apply rmatch_sound in H.
  destruct H as (w & st' & [Hr _] & Hm & Hk). injection Hk as ->.
  cbn [rest before] in *. apply tag_matches_inv in Hm.
  destruct Hm as (m & -> & Hne & Hm). exists m. split; [|now split].
  rewrite Hr. cbn [app]. now rewrite <- app_assoc.
Qed.

Lemma match_here_tag_none pre s :
  ~ tag_head s -> match_here tag_regex pre s = None.
Proof.
  intros H. destruct (match_here tag_regex pre s) as [st|] eqn:E;
    [|reflexivity].
  exfalso. apply H. apply match_here_tag_some in E.
  destruct E as (m & Es & Hne & Hm). now exists m, (rest st).
Qed.

Lemma match_here_tag_head pre s :
  tag_head s -> match_here tag_regex pre s <> None.
Proof.
  intros (m & after & -> & Hne & Hm). unfold match_here.
  change (60%N :: m ++ 62%N :: after)
    with ((60%N :: m) ++ [62%N] ++ after).
  rewrite app_assoc. apply rmatch_complete; [|discriminate].
  now apply tag_matches.
Qed.

Lemma first_occurrence (c : char) s :
  In c s -> exists m after, s = m ++ c :: after /\ ~ In c m.
Proof.
  induction s as [|d s IH]; intros H; [destruct H|].
  destruct (N.eq_dec d c) as [-> | Hne].
  - exists [], s. split; [reflexivity | intros []].
  - destruct H as [-> | H]; [congruence|].
    destruct (IH H) as (m & after & -> & Hm). exists (d :: m), after.
    split; [reflexivity|]. intros [E | Hin]; [congruence | contradiction].
Qed.

Lemma tag_head_of d s :
  d <> 62%N -> In 62%N s -> tag_head (60%N :: d :: s).
Proof.
  intros Hd Hin.
  destruct (@first_occurrence _ _ Hin) as (m & after & -> & Hm).
  exists (d :: m), after. split; [reflexivity|]. split; [discriminate|].
  intros [E | H]; [congruence | contradiction].
Qed.

Lemma tag_free_tail c s : tag_free (c :: s) = true -> tag_free s = true.
Proof. cbn [tag_free]. intros H. now apply andb_prop in H. Qed.

Lemma tag_free_no_head s : tag_free s = true -> ~ tag_head s.
Proof.
  intros H (m & after & -> & Hne & Hm). cbn [tag_free] in H.
  rewrite N.eqb_refl in H. apply andb_prop in H. destruct H as [H _].
  destruct m as [|d m]; [congruence|]. cbn [app starts_with] in H.
  assert (Hd : (62 =? d)%N = false).
  { apply N.eqb_neq. intros <-. apply Hm. now left. }
  rewrite Hd in H. cbn [andb orb] in H. apply negb_true_iff in H.
  apply has_char_absent in H. apply H. right. apply in_or_app. right.
  now left.
Qed.

Lemma tag_free_search s : forall pre,
  tag_free s = true -> search_from tag_regex pre s = None.
Proof.
  induction s as [|c s IH]; intros pre H; cbn [search_from];
    rewrite (@match_here_tag_none pre _ (@tag_free_no_head _ H));
    [reflexivity|].
  apply IH. now apply tag_free_tail in H.
Qed.

Lemma tag_free_app_l repl t :
  ~ In 60%N repl -> tag_free t = true -> tag_free (repl ++ t) = true.
Proof.
  intros Hr Ht. induction repl as [|c repl IH]; [exact Ht|].
  cbn [app tag_free].
  destruct (N.eqb_spec c 60) as [-> | _]; [exfalso; apply Hr; now left|].
  cbn [andb]. apply IH. intros H. apply Hr. now right.
Qed.

Lemma tag_free_prefix a : forall b,
  tag_free (a ++ b) = true -> tag_free a = true.
Proof.
  induction a as [|c a IH]; intros b H; [reflexivity|].
  cbn [app tag_free] in *. apply andb_prop in H. destruct H as [Hc Ha].
  rewrite (IH b Ha), andb_true_r.
  destruct (c =? 60)%N; [|reflexivity].
  destruct a as [|d a]; [reflexivity|]. cbn [app starts_with] in *.
  destruct (62 =? d)%N; [reflexivity|]. cbn [andb orb] in *.
  apply negb_true_iff in Hc. apply negb_true_iff.
  apply has_char_absent in Hc. apply has_char_absent.
  intros H. apply Hc. change (d :: a ++ b) with ((d :: a) ++ b).
  apply in_or_app. now left.
Qed.

Lemma tag_free_suffix a b : tag_free (a ++ b) = true -> tag_free b = true.
Proof.
  induction a as [|c a IH]; intros H; [exact H|].
  apply IH. now apply (tag_free_tail c).
Qed.

(** A transformation that keeps the brackets it does not drop, keeps
    a closing bracket that follows an opening one at once, and adds no
    closing bracket, keeps a text free of tags. *)
Lemma tag_free_filter (f : char -> bool) s :
  tag_free s = true -> tag_free (filter f s) = true.
Proof.
  induction s as [|c s IH]; intros H; [reflexivity|].
  cbn [tag_free] in H. apply andb_prop in H. destruct H as [Hc Hs].
  cbn [filter]. destruct (f c) eqn:Ef; [|now apply IH].
  cbn [tag_free]. rewrite (IH Hs), andb_true_r.
  destruct (c =? 60)%N; [|reflexivity].
  apply orb_prop in Hc. destruct Hc as [Hc | Hc].
  - destruct s as [|d s]; [discriminate|]. cbn [starts_with] in Hc.
    apply andb_prop in Hc. destruct Hc as [Hd _]. apply N.eqb_eq in Hd.
    subst d. cbn [filter]. destruct (f 62%N) eqn:E62.
    + cbn [starts_with]. now rewrite N.eqb_refl.
    + apply orb_true_iff. right. apply negb_true_iff, has_char_absent.
      intros Hin. apply filter_In in Hin. destruct Hin as [_ Hf]. congruence.
  - apply orb_true_iff. right. apply negb_true_iff in Hc.
    apply negb_true_iff, has_char_absent. apply has_char_absent in Hc.
    intros Hin. apply filter_In in Hin. now destruct Hin.
Qed.

Lemma squeeze_closing s : forall b,
  In 62%N (squeeze is_space [32%N] b s) -> In 62%N s.
Proof.
  intros b H. apply squeeze_chars in H.
  destruct H as [[E | []] | [H _]]; [discriminate | exact H].
Qed.

Lemma tag_free_squeeze s : forall b,
  tag_free s = true -> tag_free (squeeze is_space [32%N] b s) = true.
Proof.
  induction s as [|c s IH]; intros b H; [reflexivity|].
  cbn [tag_free] in H. apply andb_prop in H. destruct H as [Hc Hs].
  cbn [squeeze]. destruct (is_space c) eqn:Ec.
  - destruct b; [now apply IH|]. cbn [app tag_free]. now apply IH.
  - cbn [tag_free]. rewrite (IH false Hs), andb_true_r.
    destruct (c =? 60)%N; [|reflexivity].
    apply orb_prop in Hc. destruct Hc as [Hc | Hc].
    + destruct s as [|d s]; [discriminate|]. cbn [starts_with] in Hc.
      apply andb_prop in Hc. destruct Hc as [Hd _]. apply N.eqb_eq in Hd.
      subst d. cbn [squeeze is_space]. change (is_space 62%N) with false.
      cbv iota. cbn [starts_with]. now rewrite N.eqb_refl.
    + apply orb_true_iff. right. apply negb_true_iff in Hc.
      apply negb_true_iff, has_char_absent. apply has_char_absent in Hc.
      intros Hin. apply Hc. now apply squeeze_closing in Hin.
Qed.

Lemma tag_free_strip s : tag_free s = true -> tag_free (strip s) = true.
Proof.
  intros H. unfold strip.
  destruct (rstrip_prefix (lstrip s)) as [sp E].
  destruct (lstrip_suffix s) as [sp' E'].
  rewrite E' in H. apply tag_free_suffix in H. rewrite E in H.
  now apply tag_free_prefix in H.
Qed.

Lemma tag_free_firstn n s : tag_free s = true -> tag_free (firstn n s) = true.
Proof.
  intros H. rewrite <- (firstn_skipn n s) in H.
  now apply tag_free_prefix in H.
Qed.

Section TagSub.

(** The replacement holds no angle bracket. *)
Variable repl : pystr.
Hypothesis repl_open : ~ In 60%N repl.
Hypothesis repl_close : ~ In 62%N repl.

Lemma sub_scan_with_skip r w : forall pre after,
  sub_scan_with r repl (length w) pre (w ++ after)
  = sub_scan_with r repl 0 (rev w ++ pre) after.
Proof.
  induction w as [|x w IH]; intros pre after; [reflexivity|].
  cbn [length app sub_scan_with rev]. rewrite IH.
  now rewrite <- app_assoc.
Qed.

Lemma sub_tag_free n : forall s pre,
  length s <= n ->
  tag_free (sub_scan_with tag_regex repl 0 pre s) = true
  /\ (In 62%N (sub_scan_with tag_regex repl 0 pre s) -> In 62%N s).
Proof.
  induction n as [|n IH]; intros s pre Hlen.
  - destruct s; [|simpl in Hlen; lia]. cbn [sub_scan_with].
    rewrite match_here_tag_none; [now split|].
    now intros (m & after & E & _).
  - destruct s as [|c s].
    + cbn [sub_scan_with].
      rewrite match_here_tag_none; [now split|].
      now intros (m & after & E & _).
    + cbn [sub_scan_with].
      destruct (match_here tag_regex pre (c :: s)) as [st|] eqn:Em.
      * apply match_here_tag_some in Em.
        destruct Em as (m & Es & Hne & Hm). injection Es as -> ->.
        match goal with
        | |- context [length ?a - length ?b] =>
            assert (El : length a - length b = S (length (m ++ [62%N])))
        end.
        { cbn [length]. rewrite !length_app. cbn [length].
          unfold pystr, char in *. lia. }
        rewrite El. clear El.
        replace (m ++ 62%N :: rest st) with ((m ++ [62%N]) ++ rest st)
          by now rewrite <- app_assoc.
        cbv beta iota. rewrite sub_scan_with_skip.
        destruct (IH (rest st) (rev (m ++ [62%N]) ++ 60%N :: pre)) as [Hf Hc].
        { cbn [length] in Hlen. rewrite !length_app in Hlen.
          cbn [length] in Hlen. unfold pystr, char in *. lia. }
        split; [now apply tag_free_app_l|].
        intros Hin. apply in_app_or in Hin.
        destruct Hin as [Hin | Hin]; [contradiction|].
        right. apply in_or_app. right. now apply Hc.
      * destruct (IH s (c :: pre)) as [Hf Hc];
          [simpl in Hlen; lia|].
        split.
        -- cbn [tag_free]. rewrite Hf, andb_true_r.
           destruct (N.eqb_spec c 60) as [-> | _]; [|reflexivity].
           destruct s as [|d s]; [cbn [sub_scan_with];
             rewrite match_here_tag_none;
             [reflexivity | now intros (m & after & E & _)]|].
           destruct (N.eq_dec d 62) as [-> | Hd].
           ++ cbn [sub_scan_with].
              rewrite match_here_tag_none;
                [|intros (m & after & E & _); discriminate].
              cbn [starts_with]. now rewrite N.eqb_refl.
           ++ apply orb_true_iff. right. apply negb_true_iff, has_char_absent.
              intros Hin. apply Hc in Hin.
              destruct Hin as [E | Hin]; [congruence|].
              apply (@match_here_tag_head pre _ (@tag_head_of _ _ Hd Hin)).
              exact Em.
        -- intros [<- | Hin]; [now left | right; now apply Hc].
Qed.

End TagSub.

Lemma sub_scan_as_with r s : forall n pre,
  sub_scan r n pre s = sub_scan_with r [] n pre s.
Proof.
  induction s as [|c s IH]; intros n pre.
  - cbn [sub_scan sub_scan_with]. destruct n; [|reflexivity].
    now destruct (match_here r pre []).
  - cbn [sub_scan sub_scan_with]. destruct n as [|n]; [|apply IH].
    destruct (match_here r pre (c :: s)) as [st|].
    + destruct (length (c :: s) - length (rest st)); cbn [app];
        [f_equal|]; apply IH.
    + f_equal. apply IH.
Qed.

Lemma preprocess_html_tag_free is_word text url :
  tag_free (preprocess_html is_word text url) = true.
Proof.
  unfold preprocess_html. cbv zeta. rewrite collapse_spaces.
  apply tag_free_firstn, tag_free_strip, tag_free_squeeze.
  unfold sub_empty at 1. unfold special_char_regex.
  rewrite sub_scan_char. apply tag_free_filter.
  unfold sub_empty. rewrite sub_scan_as_with.
  now apply (@sub_tag_free [] (fun H => H) (fun H => H) _ _ _ (le_n _)).
Qed.

Lemma fallback_preprocess_html_tag_free text :
  tag_free (fallback_preprocess_html text) = true.
Proof.
  unfold fallback_preprocess_html. cbv zeta. rewrite collapse_spaces.
  apply tag_free_firstn, tag_free_strip, tag_free_squeeze.
  unfold sub_with. rewrite space_text.
  assert (H60 : ~ In 60%N [32%N]) by (intros [E | []]; discriminate).
  assert (H62 : ~ In 62%N [32%N]) by (intros [E | []]; discriminate).
  now apply (@sub_tag_free [32%N] H60 H62 _ _ _ (le_n _)).
Qed.

(** X20.  Neither [preprocess_html] leaves a tag in its result: the
    pattern of a tag, with which they start, matches nowhere in the
    text they return. *)
Theorem no_tag_is_left_in_the_text :
  (forall is_word text url,
     search tag_regex (preprocess_html is_word text url) = None)
  /\ (forall text, search tag_regex (fallback_preprocess_html text) = None).
Proof.
  split.
  - intros is_word text url. apply tag_free_search.
    apply preprocess_html_tag_free.
  - intros text. apply tag_free_search.
    apply fallback_preprocess_html_tag_free.
Qed.

(** X23.  With [preprocess_html] of [utils/html_processor.py] as the
    preprocessing of the adapters, every document of an observation
    is the header with the title of its item followed by a text of at
    most 2000 characters, not empty, free of tags, its only whitespace
    single spaces; the links returned are those of these documents, in
    their order. *)
Theorem documents_of_an_observation_are_clean
    (is_word : char -> bool) (eng : engine) (items : list item) :
  let preprocess := fun text url => Returned (preprocess_html is_word text url) in
  exists kept : list (pystr * pystr * pystr),
    gather_and_format preprocess eng items
    = (format_search_results
         (map (fun k => doc_text (fst (fst k)) (snd (fst k))) kept)
         (map snd kept),
       map snd kept)
    /\ forall title processed link, In (title, processed, link) kept ->
         processed <> [] /\ length processed <= 2000
         /\ search tag_regex processed = None
         /\ single_spaced processed = true
         /\ exists it, In it items /\ item_link it = Some link
                       /\ title = get_or (item_title it) [].
Proof.
  cbv zeta.
  destruct (gathered (fun text url => Returned (preprocess_html is_word text url))
              eng items) as (kept & Ht & El & Hk).
  exists kept. split.
  - unfold gather_and_format. cbv zeta. now rewrite Ht, El.
  - intros title processed link Hin.
    destruct (Hk _ Hin) as (it & Hit & Hl & Hne & Hp & Htitle & html & main
                            & Eh & _ & Em & Ep).
    cbn [fst snd] in *. injection Ep as <-.
    split; [exact Hp|].
    split; [|split; [apply tag_free_search, preprocess_html_tag_free|]].
    + destruct (preprocess_html_cleaned is_word main link) as (cleaned & -> & _).
      apply firstn_le_length.
    + destruct (preprocess_html_cleaned is_word main link) as (cleaned & -> & _).
      destruct (clipped_normal cleaned) as (_ & Hss & _).
      split; [exact Hss|]. exists it. auto.
Qed.

(** ** The service a Naver search asks *)

Lemma first_service_listed text :
  In (first_service service_map text) (map fst service_map).
Proof.
  destruct (first_service_found service_map text)
    as [E | (before & svc & kws & kw & after & Hm & E & _)]; rewrite E.
  - unfold service_map, fallback_service. cbn [map fst]. do 5 right. now left.
  - rewrite Hm, map_app. apply in_or_app. right. now left.
Qed.

(** X21.  [search] of the Naver engine asks the service it is given
    whenever one is given, listed in [service_map] or not: the check
    against the map changes nothing.  Without a service, as the
    adapter calls it, it asks the service [detect_service] finds for
    the query, which is a key of the map. *)
Theorem search_asks_the_given_service
    (str_lower_unicode : pystr -> pystr) (service : option pystr)
    (query : pystr) :
  search_service_id str_lower_unicode service query
  = (if falsy service then detect_service str_lower_unicode query
     else get_or service [])
  /\ In (search_service_id str_lower_unicode None query) (map fst service_map).
Proof.
  split; [|apply first_service_listed].
  unfold search_service_id. destruct service as [s|]; [|reflexivity].
  destruct (str_in s (map fst service_map) || str_eqb s (u "webkr"));
    [|reflexivity].
  cbn [falsy get_or]. now destruct (negb (truthy s)).
Qed.

(** ** The page *)

Lemma app_two {A} (l : list A) x y : (l ++ [x]) ++ [y] = l ++ [x; y].
Proof. now rewrite <- app_assoc. Qed.

Lemma error_text_nonempty (x : pystr) : u "오류: " ++ x <> [].
Proof.
  assert (E : hd_error (u "오류: ") = Some 50724%N)
    by (vm_compute; reflexivity).
  rewrite (@head_of_app _ _ _ E). discriminate.
Qed.

Lemma bad_format_text :
  u "오류: 답변 형식이 잘못되었습니다." = u "오류: " ++ u "답변 형식이 잘못되었습니다.".
Proof. vm_compute. reflexivity. Qed.

Lemma timeout_text : u "오류: 응답 시간 초과" = u "오류: " ++ u "응답 시간 초과".
Proof. vm_compute. reflexivity. Qed.

Lemma request_failed_text (x : pystr) :
  u "오류: API 요청 실패 (" ++ x = u "오류: " ++ u "API 요청 실패 (" ++ x.
Proof.
  assert (E : u "오류: API 요청 실패 (" = u "오류: " ++ u "API 요청 실패 (")
    by (vm_compute; reflexivity).
  rewrite E. now rewrite <- app_assoc.
Qed.

Lemma no_connection_text : u "오류: 서버 연결 실패" = u "오류: " ++ u "서버 연결 실패".
Proof. vm_compute. reflexivity. Qed.

Lemma unknown_text :
  u "오류: 알 수 없는 문제 발생" = u "오류: " ++ u "알 수 없는 문제 발생".
Proof. vm_compute. reflexivity. Qed.

(** X22.  A prompt that is not empty adds two messages to the session
    of the page, whatever the request to the API meets: the prompt as
    the user's message, then one message of the assistant, which is
    never empty.  It is the answer of the API when the response carries
    an answer that is not empty; an empty or missing answer is
    recorded as an answer of a wrong format, and each failure as its
    own text.  An absent or empty prompt adds nothing, and the page
    leaves the session as it is when the health check fails. *)
Theorem page_stores_two_messages_for_a_prompt
    (HEALTH_ENDPOINT : pystr) (post : pystr -> post_outcome)
    (messages : list web_message) (prompt : pystr) :
  prompt <> [] ->
  (exists content,
     handle_prompt post messages (Some prompt)
     = messages ++ [user_says prompt; assistant_says content]
     /\ content <> []
     /\ (forall answer, post prompt = PostOk (Some answer) -> answer <> [] ->
           content = answer)
     /\ (post prompt = PostOk None \/ post prompt = PostOk (Some []) ->
         content = u "오류: 답변 형식이 잘못되었습니다."))
  /\ handle_prompt post messages None = messages
  /\ handle_prompt post messages (Some []) = messages
  /\ (forall reply session reset_clicked any_prompt,
        fst (check_api_health HEALTH_ENDPOINT reply) = false ->
        page_run HEALTH_ENDPOINT reply post session reset_clicked any_prompt
        = session).
Proof.
  intros Hp. split; [|split; [reflexivity | split; [reflexivity|]]].
  - unfold handle_prompt. destruct prompt as [|c prompt]; [congruence|].
    cbn [truthy negb].
    destruct (post (c :: prompt)) as [[answer|]| |status| |] eqn:Epost.
    + destruct answer as [|a answer]; cbn [falsy truthy negb get_or].
      * eexists. rewrite app_two. split; [reflexivity|].
        split; [rewrite bad_format_text; apply error_text_nonempty|].
        split; [intros answer [= <-] H; congruence | reflexivity].
      * eexists. rewrite app_two. split; [reflexivity|].
        split; [discriminate|].
        split; [now intros answer' [= <-] | intros [H | H]; discriminate].
    + cbn [falsy negb]. eexists. rewrite app_two. split; [reflexivity|].
      split; [rewrite bad_format_text; apply error_text_nonempty|].
      split; [intros answer H; discriminate | reflexivity].
    + eexists. rewrite app_two. split; [reflexivity|].
      split; [rewrite timeout_text; apply error_text_nonempty|].
      split; [intros answer H; discriminate | intros [H | H]; discriminate].
    + eexists. rewrite app_two. split; [reflexivity|].
      split; [rewrite request_failed_text; apply error_text_nonempty|].
      split; [intros answer H; discriminate | intros [H | H]; discriminate].
    + eexists. rewrite app_two. split; [reflexivity|].
      split; [rewrite no_connection_text; apply error_text_nonempty|].
      split; [intros answer H; discriminate | intros [H | H]; discriminate].
    + eexists. rewrite app_two. split; [reflexivity|].
      split; [rewrite unknown_text; apply error_text_nonempty|].
      split; [intros answer H; discriminate | intros [H | H]; discriminate].
  - intros reply session reset_clicked any_prompt H. unfold page_run.
    destruct (check_api_health HEALTH_ENDPOINT reply) as [api_ok message].
    cbn [fst] in H. now rewrite H.
Qed.

Lemma page_stores_two_messages_for_a_prompt_witness :
  exists content,
    handle_prompt (fun _ => PostOk (Some [])) [] (Some sample_query)
    = [] ++ [user_says sample_query; assistant_says content]
    /\ content <> [].
Proof.
  assert (Hp : sample_query <> []) by (vm_compute; discriminate).
  destruct (@page_stores_two_messages_for_a_prompt [] (fun _ => PostOk (Some []))
              [] sample_query Hp) as ((content & E & Hne & _) & _).
  exists content. split; [exact E | exact Hne].
Defined.

(** ** The start of the pipeline *)



(** ** The evidence of the fact check *)





